(** * HPC false-sharing benchmarks: a shallow embedding and its properties

    The repository holds six small OpenMP programs (array sums, matrix
    comparison, matrix initialisation), each run in a [good], [bad-fs] or
    [bad-ma] mode.  This file embeds their kernels and their [main]
    functions and states the properties of the specification over them.

    Conventions of the embedding (LP64, as the sources assume):
    - [unsigned long] is a [Z] in [0, 2^64); every arithmetic operation
      on it is written with its wrap-around ([wrap]);
    - [int] is a [Z] in [-2^31, 2^31); signed overflow is a fault;
    - an array is a [list]; an access outside it is the fault
      [OutOfBounds], a division by zero the fault [DivByZero];
    - the program asks for a number of threads; how many threads run a
      region [#pragma omp parallel] is up to the OpenMP runtime, and no
      program reads [omp_get_num_threads()].  The size of the team the
      runtime grants is therefore a parameter, [team], of every
      definition that has a region, as the schedule of a work-sharing
      loop and the results of [malloc] and [rand()] are; a team has at
      least one thread and, where the request is positive, at most as
      many as requested;
    - a region is run worker after worker, [tid = 0 .. team-1]: a
      worker writes only its own accumulator slot (or its own cells)
      and the shared input is read-only, so every interleaving ends in
      the same state as this one; the order of the log across workers
      is that of this run, only the order within a worker is the
      program's;
    - every read of an input element (every write of an output cell) is
      appended to a log, so that "processed exactly once" can be stated;
    - the clock is not modelled: the elapsed times the programs print
      are left out of [printed], which keeps the computed scalars. *)

From stdpp Require Import base numbers list list_numbers strings.

Local Open Scope Z_scope.

(** ** Machine integers and outcomes *)

Module C.

Definition ULONG_MODULUS : Z := 2 ^ 64.
Definition INT_MAX : Z := 2 ^ 31 - 1.
Definition EXIT_FAILURE : Z := 1.
Definition EXIT_SUCCESS : Z := 0.
Definition sizeof_unsigned_long : Z := 8.
Definition sizeof_int : Z := 4.
Definition sizeof_pointer : Z := 8.
Definition CACHE_LINE_SIZE : Z := 64.

(** Reduction of a mathematical integer to an [unsigned long]; also the
    conversion of an [int] to [unsigned long] / [size_t]. *)
Definition wrap (z : Z) : Z := z mod ULONG_MODULUS.

Inductive fault : Type :=
| OutOfBounds      (* access outside an array *)
| DivByZero        (* x / 0 or x % 0 *)
| IntOverflow      (* signed overflow of an int *)
| OutOfFuel        (* the loop did not finish within the fuel given *)
| Exit (status : Z) (* exit(status) was called *).

Inductive outcome (A : Type) : Type :=
| Done (a : A)
| Fault (f : fault).
Global Arguments Done {A} a.
Global Arguments Fault {A} f.

Definition bind {A B} (m : outcome A) (k : A → outcome B) : outcome B :=
  match m with
  | Done a => k a
  | Fault f => Fault f
  end.

(** [a / b] and [a % b] on unsigned long. *)
Definition udiv (a b : Z) : outcome Z :=
  if b =? 0 then Fault DivByZero else Done (a / b).
Definition umod (a b : Z) : outcome Z :=
  if b =? 0 then Fault DivByZero else Done (a mod b).

(** [a[i]] as an rvalue and [a[i] = x]. *)
Definition load {A} (a : list A) (i : Z) : outcome A :=
  if i <? 0 then Fault OutOfBounds
  else match a !! Z.to_nat i with
       | Some x => Done x
       | None => Fault OutOfBounds
       end.

Definition store {A} (a : list A) (i : Z) (x : A) : outcome (list A) :=
  if (0 <=? i) && (i <? Z.of_nat (length a))
  then Done (<[Z.to_nat i := x]> a)
  else Fault OutOfBounds.

End C.
Export C.

Global Instance outcome_bind : MBind outcome := λ A B k m, bind m k.
Global Instance outcome_ret : MRet outcome := λ A a, Done a.

(** ** Loops *)

(** The body of a loop is run at each value the loop variable takes. *)
Fixpoint iterate {S : Type} (body : Z → S → outcome S) (l : list Z) (s : S)
  : outcome S :=
  match l with
  | [] => Done s
  | i :: l' => s' ← body i s; iterate body l' s'
  end.

(** [for (i = lo; i < hi; i++)]: since [i < hi] holds before [i++], the
    increment never wraps and the loop variable takes exactly the values
    [lo, lo+1, .., hi-1] (none when [hi <= lo]). *)
Definition for_range {S : Type} (lo hi : Z) (body : Z → S → outcome S)
  : S → outcome S :=
  iterate body (seqZ lo (hi - lo)).

(** [for (i = hi; i > 0; i--)]: the values [hi, hi-1, .., 1]. *)
Definition for_down {S : Type} (hi : Z) (body : Z → S → outcome S)
  : S → outcome S :=
  iterate body (reverse (seqZ 1 hi)).

(** [for (unsigned long i = lo; i < hi; i += step)]: the increment may
    wrap, and then the loop need not stop; hence the fuel. *)
Fixpoint for_stride {S : Type} (fuel : nat) (hi step : Z)
    (body : Z → S → outcome S) (i : Z) (s : S) : outcome S :=
  if i <? hi then
    match fuel with
    | O => Fault OutOfFuel
    | Datatypes.S fuel' =>
        s' ← body i s;
        for_stride fuel' hi step body (wrap (i + step)) s'
    end
  else Done s.

(** [a + b] and [a * b] on int: signed overflow is undefined. *)
Definition int_add (a b : Z) : outcome Z :=
  if (- INT_MAX - 1 <=? a + b) && (a + b <=? INT_MAX) then Done (a + b)
  else Fault IntOverflow.
Definition int_mul (a b : Z) : outcome Z :=
  if (- INT_MAX - 1 <=? a * b) && (a * b <=? INT_MAX) then Done (a * b)
  else Fault IntOverflow.

(** [for (int j = lo; j < hi; j += step)] *)
Fixpoint for_int_stride {S : Type} (fuel : nat) (hi step : Z)
    (body : Z → S → outcome S) (j : Z) (s : S) : outcome S :=
  if j <? hi then
    match fuel with
    | O => Fault OutOfFuel
    | Datatypes.S fuel' =>
        s' ← body j s;
        j' ← int_add j step;
        for_int_stride fuel' hi step body j' s'
    end
  else Done s.

(** [#pragma omp parallel]: the region is run by the [team] threads
    the runtime grants, numbered [0 .. team-1]
    ([omp_get_thread_num()]); [team] is what [omp_get_num_threads()]
    would return inside the region, not what the program asked for. *)
Definition parallel {S : Type} (team : Z) (worker : Z → S → outcome S)
  : S → outcome S :=
  iterate worker (seqZ 0 team).

(** [#pragma omp parallel for] over [lo <= i < hi], run by a team of
    [team] threads: [owner i] is the worker of the team the schedule
    deals iteration [i] to; a worker runs its iterations in increasing
    order. *)
Definition parallel_for {S : Type} (owner : Z → Z) (team lo hi : Z)
    (body : Z → Z → S → outcome S) : S → outcome S :=
  parallel team
    (fun tid => iterate (body tid)
                  (filter (fun i => owner i = tid) (seqZ lo (hi - lo)))).

(** The static schedule of libgomp and libomp for [n] iterations and a
    team of [team] threads: the first [n mod team] workers take
    [n / team + 1] consecutive iterations, the others [n / team]. *)
Definition static_schedule (n team i : Z) : Z :=
  let q := n / team in
  let r := n mod team in
  if i <? r * (q + 1) then i / (q + 1)
  else r + (i - r * (q + 1)) / q.

(** ** The process: allocation requests and printed results *)

(** What the outside sees of a run: the byte counts passed to [malloc],
    in order, and the numeric results printed (sums, counts, cells). *)
Record world : Type := { mallocs : list Z; printed : list Z }.

Definition fresh_world : world := {| mallocs := []; printed := [] |}.

(** A computation of the process: it threads the world and keeps it when
    it faults. *)
Definition M (A : Type) : Type := world → outcome A * world.

Definition ret {A} (a : A) : M A := fun w => (Done a, w).
Definition lift {A} (m : outcome A) : M A := fun w => (m, w).
Definition exit {A} (status : Z) : M A := fun w => (Fault (Exit status), w).
Definition print (v : Z) : M unit :=
  fun w => (Done tt, {| mallocs := mallocs w; printed := printed w ++ [v] |}).
Definition bindM {A B} (m : M A) (k : A → M B) : M B :=
  fun w =>
    match m w with
    | (Done a, w') => k a w'
    | (Fault f, w') => (Fault f, w')
    end.

Global Instance M_bind : MBind M := λ A B k m, bindM m k.
Global Instance M_ret : MRet M := λ A a, ret a.

Section Heap.

(** Whether a request of that many bytes is served, and the
    indeterminate content of fresh storage. *)
Variable malloc_ok : Z → bool.

(** [(T * ) malloc(bytes)]: [None] is NULL; a block holds
    [bytes / sizeof(T)] objects, each [fresh]. *)
Definition malloc {A} (fresh : A) (bytes elem_size : Z) : M (option (list A)) :=
  fun w =>
    (Done (if malloc_ok bytes
           then Some (replicate (Z.to_nat (bytes / elem_size)) fresh)
           else None),
     {| mallocs := mallocs w ++ [bytes]; printed := printed w |}).

End Heap.

(** A NULL pointer is a block of no elements: every access through it
    faults. *)
Definition block_of {A} (p : option (list A)) : list A := default [] p.

(** The state of a parallel region: the accumulator slots and the log of
    the input indices read so far. *)
Record region (Slot : Type) : Type := { slots : list Slot; reads : list Z }.
Global Arguments slots {Slot} r.
Global Arguments reads {Slot} r.

(** What a kernel hands back: the value it returns and the log of the
    input indices it read. *)
Record report : Type := { total : Z; visited : list Z }.

(** ** Code shared by the array programs *)

(** [load_array]: [array[i] = i + 1] for [i < size].  Where the loop is
    a [parallel for], its iterations write distinct cells, so their
    order is immaterial. *)
Definition load_array (array : list Z) (size : Z) : outcome (list Z) :=
  for_range 0 size (fun i array => store array i (wrap (i + 1))) array.

(** [for (i = 0; i < size; i++) indices[i] = i;] *)
Definition fill_identity (indices : list Z) (size : Z) : outcome (list Z) :=
  for_range 0 size (fun i indices => store indices i i) indices.

(** [shuffle_array] and [shuffle_indices] (one body under two names).
    [rand k] is what the [k]-th call of [rand()] after
    [srand(time(NULL))] returns. *)
Definition shuffle_array (rand : nat → Z) (indices : list Z) (size : Z)
  : outcome (list Z) :=
  '(indices, _) ←
    for_down (wrap (size - 1))
      (fun i '(indices, calls) =>
         j ← umod (wrap (rand calls)) (wrap (i + 1));
         temp ← load indices i;
         x ← load indices j;
         indices ← store indices i x;
         indices ← store indices j temp;
         Done (indices, Datatypes.S calls))
      (indices, O);
  Done indices.

(** Lines 56-59 of [sum_good], repeated in every partitioned kernel:
    the range of worker [tid]. *)
Definition chunk_bounds (size num_threads tid : Z) : outcome (Z * Z) :=
  chunk_size ← udiv size (wrap num_threads);
  let start := wrap (wrap tid * chunk_size) in
  let end_ := if tid =? num_threads - 1 then size
              else wrap (start + chunk_size) in
  Done (start, end_).

(** ** array_sum_memory_access_28.c and matrix_init_access_variation_29.c

    The two files share [sum_good] and [sum_bad_fs] verbatim; they
    differ in [sum_bad_ma] and in [main]. *)

Module ArraySum.

(** [typedef struct { unsigned long sum; char padding[56]; } PaddedSum;] *)
Record PaddedSum : Type := { sum : Z; padding : list Z }.

Definition sizeof_PaddedSum : Z :=
  sizeof_unsigned_long + (CACHE_LINE_SIZE - sizeof_unsigned_long).

(** [partial_sums[tid].sum += array[idx]] *)
Definition add_padded (array : list Z) (tid idx : Z) (st : region PaddedSum)
  : outcome (region PaddedSum) :=
  x ← load array idx;
  p ← load (slots st) tid;
  ps ← store (slots st) tid {| sum := wrap (sum p + x); padding := padding p |};
  Done {| slots := ps; reads := reads st ++ [idx] |}.

(** [partial_sums[tid] += array[idx]] *)
Definition add_packed (array : list Z) (tid idx : Z) (st : region Z)
  : outcome (region Z) :=
  x ← load array idx;
  p ← load (slots st) tid;
  ps ← store (slots st) tid (wrap (p + x));
  Done {| slots := ps; reads := reads st ++ [idx] |}.

(** [for (i = 0; i < num_threads; i++) partial_sums[i].sum = 0;] *)
Definition zero_padded (num_threads : Z) (partial_sums : list PaddedSum)
  : outcome (list PaddedSum) :=
  for_range 0 num_threads
    (fun i ps => p ← load ps i;
                 store ps i {| sum := 0; padding := padding p |})
    partial_sums.

(** [for (i = 0; i < num_threads; i++) total_sum += partial_sums[i].sum;] *)
Definition reduce_padded (num_threads : Z) (partial_sums : list PaddedSum)
  : outcome Z :=
  for_range 0 num_threads
    (fun i total_sum => p ← load partial_sums i;
                        Done (wrap (total_sum + sum p)))
    0.

(** Euclid's loop of [sum_bad_ma], lines 128-134 of file 28. *)
Fixpoint gcd_loop (fuel : nat) (a b : Z) : outcome Z :=
  if b =? 0 then Done a
  else match fuel with
       | O => Fault OutOfFuel
       | Datatypes.S fuel' => r ← umod a b; gcd_loop fuel' b r
       end.

Section Kernels.

Variable malloc_ok : Z → bool.
Variable junk : Z.
(** The size of the team the runtime grants the region of the kernel.
    The kernels partition by [num_threads], the number asked for. *)
Variable team : Z.

Definition fresh_PaddedSum : PaddedSum :=
  {| sum := junk; padding := replicate 56 junk |}.

(** [sum_good] from the initialisation of the slots on. *)
Definition sum_good_run (array : list Z) (size num_threads : Z)
    (partial_sums : list PaddedSum) : outcome report :=
  partial_sums ← zero_padded num_threads partial_sums;
  st ← parallel team
          (fun tid st =>
             '(start, end_) ← chunk_bounds size num_threads tid;
             for_range start end_ (fun i st => add_padded array tid i st) st)
          {| slots := partial_sums; reads := [] |};
  total_sum ← reduce_padded num_threads (slots st);
  Done {| total := total_sum; visited := reads st |}.

Definition sum_good (array : list Z) (size num_threads : Z) : M report :=
  partial_sums ← malloc malloc_ok fresh_PaddedSum
                    (wrap (num_threads * sizeof_PaddedSum)) sizeof_PaddedSum;
  match partial_sums with
  | None => exit EXIT_FAILURE
  | Some partial_sums =>
      r ← lift (sum_good_run array size num_threads partial_sums);
      _ ← print (total r);
      mret r
  end.

(** [sum_bad_fs] from the initialisation of the slots on. *)
Definition sum_bad_fs_run (array : list Z) (size num_threads : Z)
    (partial_sums : list Z) : outcome report :=
  partial_sums ←
    for_range 0 num_threads (fun i ps => store ps i 0) partial_sums;
  st ← parallel team
          (fun tid st =>
             '(start, end_) ← chunk_bounds size num_threads tid;
             for_range start end_ (fun i st => add_packed array tid i st) st)
          {| slots := partial_sums; reads := [] |};
  total_sum ←
    for_range 0 num_threads
      (fun i total_sum => p ← load (slots st) i;
                          Done (wrap (total_sum + p)))
      0;
  Done {| total := total_sum; visited := reads st |}.

Definition sum_bad_fs (array : list Z) (size num_threads : Z) : M report :=
  partial_sums ← malloc malloc_ok junk
                    (wrap (num_threads * sizeof_unsigned_long))
                    sizeof_unsigned_long;
  match partial_sums with
  | None => exit EXIT_FAILURE
  | Some partial_sums =>
      r ← lift (sum_bad_fs_run array size num_threads partial_sums);
      _ ← print (total r);
      mret r
  end.

(** [sum_bad_ma] of file 28 (strided access), from the initialisation
    of the slots on. *)
Definition sum_bad_ma_strided_run (fuel : nat) (array : list Z)
    (size num_threads stride : Z) (partial_sums : list PaddedSum)
  : outcome report :=
  partial_sums ← zero_padded num_threads partial_sums;
  st ← parallel team
          (fun tid st =>
             for_stride fuel size num_threads
               (fun i st =>
                  idx ← umod (wrap (i * stride)) size;
                  add_padded array tid idx st)
               (wrap tid) st)
          {| slots := partial_sums; reads := [] |};
  total_sum ← reduce_padded num_threads (slots st);
  Done {| total := total_sum; visited := reads st |}.

(** The boolean tells whether the warning "not co-prime" was printed. *)
Definition sum_bad_ma_strided (fuel : nat) (array : list Z)
    (size num_threads stride : Z) : M (bool * report) :=
  a ← lift (gcd_loop fuel stride size);
  let warning := negb (a =? 1) in
  partial_sums ← malloc malloc_ok fresh_PaddedSum
                    (wrap (num_threads * sizeof_PaddedSum)) sizeof_PaddedSum;
  match partial_sums with
  | None => exit EXIT_FAILURE
  | Some partial_sums =>
      r ← lift (sum_bad_ma_strided_run fuel array size num_threads stride
                  partial_sums);
      _ ← print (total r);
      mret (warning, r)
  end.

(** [sum_bad_ma] of file 29 (access through the shuffled indices),
    from the initialisation of the slots on. *)
Definition sum_bad_ma_shuffled_run (array : list Z) (size num_threads : Z)
    (shuffled_indices : list Z) (partial_sums : list PaddedSum)
  : outcome report :=
  partial_sums ← zero_padded num_threads partial_sums;
  st ← parallel team
          (fun tid st =>
             '(start, end_) ← chunk_bounds size num_threads tid;
             for_range start end_
               (fun i st =>
                  idx ← load shuffled_indices i;
                  add_padded array tid idx st)
               st)
          {| slots := partial_sums; reads := [] |};
  total_sum ← reduce_padded num_threads (slots st);
  Done {| total := total_sum; visited := reads st |}.

Definition sum_bad_ma_shuffled (array : list Z) (size num_threads : Z)
    (shuffled_indices : list Z) : M report :=
  partial_sums ← malloc malloc_ok fresh_PaddedSum
                    (wrap (num_threads * sizeof_PaddedSum)) sizeof_PaddedSum;
  match partial_sums with
  | None => exit EXIT_FAILURE
  | Some partial_sums =>
      r ← lift (sum_bad_ma_shuffled_run array size num_threads
                  shuffled_indices partial_sums);
      _ ← print (total r);
      mret r
  end.

Definition valid_mode (mode : string) : bool :=
  String.eqb mode "good" || String.eqb mode "bad-fs" || String.eqb mode "bad-ma".

(** [main] of array_sum_memory_access_28.c.  [size_arg] is what
    [atol(argv[2])] returns and [threads_arg] what [atoi(argv[3])]
    returns. *)
Definition main_28 (fuel : nat) (argc : Z) (mode : string)
    (size_arg threads_arg : Z) : M Z :=
  if negb (argc =? 4) then mret EXIT_FAILURE else
  let size := wrap size_arg in
  let num_threads := threads_arg in
  if negb (valid_mode mode) then mret EXIT_FAILURE else
  if size =? 0 then mret EXIT_FAILURE else
  if num_threads <=? 0 then mret EXIT_FAILURE else
  array ← malloc malloc_ok junk (wrap (size * sizeof_unsigned_long))
             sizeof_unsigned_long;
  match array with
  | None => mret EXIT_FAILURE
  | Some array =>
      array ← lift (load_array array size);
      _ ← (if String.eqb mode "good" then
             _ ← sum_good array size num_threads; mret tt
           else if String.eqb mode "bad-fs" then
             _ ← sum_bad_fs array size num_threads; mret tt
           else if String.eqb mode "bad-ma" then
             let stride := 7 in
             _ ← sum_bad_ma_strided fuel array size num_threads stride;
             mret tt
           else mret tt);
      mret EXIT_SUCCESS
  end.

(** [main] of matrix_init_access_variation_29.c. *)
Definition main_29 (rand : nat → Z) (argc : Z) (mode : string)
    (size_arg threads_arg : Z) : M Z :=
  if negb (argc =? 4) then mret EXIT_FAILURE else
  let size := wrap size_arg in
  let num_threads := threads_arg in
  if negb (valid_mode mode) then mret EXIT_FAILURE else
  if size =? 0 then mret EXIT_FAILURE else
  if num_threads <=? 0 then mret EXIT_FAILURE else
  array ← malloc malloc_ok junk (wrap (size * sizeof_unsigned_long))
             sizeof_unsigned_long;
  match array with
  | None => mret EXIT_FAILURE
  | Some array =>
      array ← lift (load_array array size);
      shuffled_indices ←
        (if String.eqb mode "bad-ma" then
           p ← malloc malloc_ok junk (wrap (size * sizeof_unsigned_long))
                 sizeof_unsigned_long;
           match p with
           | None => exit EXIT_FAILURE (* [return EXIT_FAILURE] from main *)
           | Some indices =>
               indices ← lift (fill_identity indices size);
               indices ← lift (shuffle_array rand indices size);
               mret (Some indices)
           end
         else mret None);
      _ ← (if String.eqb mode "good" then
             _ ← sum_good array size num_threads; mret tt
           else if String.eqb mode "bad-fs" then
             _ ← sum_bad_fs array size num_threads; mret tt
           else if String.eqb mode "bad-ma" then
             _ ← sum_bad_ma_shuffled array size num_threads
                   (block_of shuffled_indices);
             mret tt
           else mret tt);
      mret EXIT_SUCCESS
  end.

End Kernels.

End ArraySum.

(** ** C_code/matrix_compare_memory_modes_31.c *)

Module MatrixCompare.

(** [typedef struct { unsigned long diff_count; char padding[56]; } PaddedDiff;] *)
Record PaddedDiff : Type := { diff_count : Z; padding : list Z }.

Definition sizeof_PaddedDiff : Z :=
  sizeof_unsigned_long + (CACHE_LINE_SIZE - sizeof_unsigned_long).

(** [initialize_matrices]; the second loop steps by 1000 and needs fuel. *)
Definition initialize_matrices (fuel : nat) (A B : list Z) (size : Z)
  : outcome (list Z * list Z) :=
  '(A, B) ←
    for_range 0 size
      (fun i '(A, B) =>
         A ← store A i (i mod 100);
         a ← load A i;
         B ← store B i a;
         Done (A, B))
      (A, B);
  B ← for_stride fuel size 1000
        (fun i B => a ← load A i; store B i (wrap (a + 1)))
        0 B;
  Done (A, B).

(** [if (A[idx] != B[idx]) partial_diffs[tid].diff_count++;] *)
Definition count_padded (A B : list Z) (tid idx : Z) (st : region PaddedDiff)
  : outcome (region PaddedDiff) :=
  a ← load A idx;
  b ← load B idx;
  if a =? b then Done {| slots := slots st; reads := reads st ++ [idx] |}
  else
    p ← load (slots st) tid;
    ps ← store (slots st) tid
           {| diff_count := wrap (diff_count p + 1); padding := padding p |};
    Done {| slots := ps; reads := reads st ++ [idx] |}.

(** [if (A[idx] != B[idx]) partial_diffs[tid]++;] *)
Definition count_packed (A B : list Z) (tid idx : Z) (st : region Z)
  : outcome (region Z) :=
  a ← load A idx;
  b ← load B idx;
  if a =? b then Done {| slots := slots st; reads := reads st ++ [idx] |}
  else
    p ← load (slots st) tid;
    ps ← store (slots st) tid (wrap (p + 1));
    Done {| slots := ps; reads := reads st ++ [idx] |}.

Definition zero_padded (num_threads : Z) (partial_diffs : list PaddedDiff)
  : outcome (list PaddedDiff) :=
  for_range 0 num_threads
    (fun i ps => p ← load ps i;
                 store ps i {| diff_count := 0; padding := padding p |})
    partial_diffs.

Definition reduce_padded (num_threads : Z) (partial_diffs : list PaddedDiff)
  : outcome Z :=
  for_range 0 num_threads
    (fun i total_diffs => p ← load partial_diffs i;
                          Done (wrap (total_diffs + diff_count p)))
    0.

Section Kernels.

Variable malloc_ok : Z → bool.
Variable junk : Z.
(** The size of the team the runtime grants the region of the kernel. *)
Variable team : Z.

Definition fresh_PaddedDiff : PaddedDiff :=
  {| diff_count := junk; padding := replicate 56 junk |}.

Definition compare_good_run (A B : list Z) (size num_threads : Z)
    (partial_diffs : list PaddedDiff) : outcome report :=
  partial_diffs ← zero_padded num_threads partial_diffs;
  st ← parallel team
          (fun tid st =>
             '(start, end_) ← chunk_bounds size num_threads tid;
             for_range start end_ (fun i st => count_padded A B tid i st) st)
          {| slots := partial_diffs; reads := [] |};
  total_diffs ← reduce_padded num_threads (slots st);
  Done {| total := total_diffs; visited := reads st |}.

Definition compare_good (A B : list Z) (size num_threads : Z) : M report :=
  partial_diffs ← malloc malloc_ok fresh_PaddedDiff
                    (wrap (num_threads * sizeof_PaddedDiff)) sizeof_PaddedDiff;
  match partial_diffs with
  | None => exit EXIT_FAILURE
  | Some partial_diffs =>
      r ← lift (compare_good_run A B size num_threads partial_diffs);
      _ ← print (total r);
      mret r
  end.

Definition compare_bad_fs_run (A B : list Z) (size num_threads : Z)
    (partial_diffs : list Z) : outcome report :=
  partial_diffs ←
    for_range 0 num_threads (fun i ps => store ps i 0) partial_diffs;
  st ← parallel team
          (fun tid st =>
             '(start, end_) ← chunk_bounds size num_threads tid;
             for_range start end_ (fun i st => count_packed A B tid i st) st)
          {| slots := partial_diffs; reads := [] |};
  total_diffs ←
    for_range 0 num_threads
      (fun i total_diffs => p ← load (slots st) i;
                            Done (wrap (total_diffs + p)))
      0;
  Done {| total := total_diffs; visited := reads st |}.

Definition compare_bad_fs (A B : list Z) (size num_threads : Z) : M report :=
  partial_diffs ← malloc malloc_ok junk
                    (wrap (num_threads * sizeof_unsigned_long))
                    sizeof_unsigned_long;
  match partial_diffs with
  | None => exit EXIT_FAILURE
  | Some partial_diffs =>
      r ← lift (compare_bad_fs_run A B size num_threads partial_diffs);
      _ ← print (total r);
      mret r
  end.

Definition compare_bad_ma_run (A B : list Z) (size num_threads : Z)
    (shuffled_indices : list Z) (partial_diffs : list PaddedDiff)
  : outcome report :=
  partial_diffs ← zero_padded num_threads partial_diffs;
  st ← parallel team
          (fun tid st =>
             '(start, end_) ← chunk_bounds size num_threads tid;
             for_range start end_
               (fun i st =>
                  idx ← load shuffled_indices i;
                  count_padded A B tid idx st)
               st)
          {| slots := partial_diffs; reads := [] |};
  total_diffs ← reduce_padded num_threads (slots st);
  Done {| total := total_diffs; visited := reads st |}.

Definition compare_bad_ma (A B : list Z) (size num_threads : Z)
    (shuffled_indices : list Z) : M report :=
  partial_diffs ← malloc malloc_ok fresh_PaddedDiff
                    (wrap (num_threads * sizeof_PaddedDiff)) sizeof_PaddedDiff;
  match partial_diffs with
  | None => exit EXIT_FAILURE
  | Some partial_diffs =>
      r ← lift (compare_bad_ma_run A B size num_threads shuffled_indices
                  partial_diffs);
      _ ← print (total r);
      mret r
  end.

Definition valid_mode (mode : string) : bool :=
  String.eqb mode "good" || String.eqb mode "bad-fs" || String.eqb mode "bad-ma".

(** [main]; [N_arg] is what [atol(argv[2])] returns. *)
Definition main (fuel : nat) (rand : nat → Z) (argc : Z) (mode : string)
    (N_arg threads_arg : Z) : M Z :=
  if negb (argc =? 4) then mret EXIT_FAILURE else
  let N := wrap N_arg in
  let num_threads := threads_arg in
  if negb (valid_mode mode) then mret EXIT_FAILURE else
  if N =? 0 then mret EXIT_FAILURE else
  if num_threads <=? 0 then mret EXIT_FAILURE else
  let total_elements := wrap (N * N) in
  A ← malloc malloc_ok junk (wrap (total_elements * sizeof_unsigned_long))
         sizeof_unsigned_long;
  B ← malloc malloc_ok junk (wrap (total_elements * sizeof_unsigned_long))
         sizeof_unsigned_long;
  match A, B with
  | Some A, Some B =>
      '(A, B) ← lift (initialize_matrices fuel A B total_elements);
      shuffled_indices ←
        (if String.eqb mode "bad-ma" then
           p ← malloc malloc_ok junk
                 (wrap (total_elements * sizeof_unsigned_long))
                 sizeof_unsigned_long;
           match p with
           | None => exit EXIT_FAILURE (* [return EXIT_FAILURE] from main *)
           | Some indices =>
               indices ← lift (fill_identity indices total_elements);
               indices ← lift (shuffle_array rand indices total_elements);
               mret (Some indices)
           end
         else mret None);
      _ ← (if String.eqb mode "good" then
             _ ← compare_good A B total_elements num_threads; mret tt
           else if String.eqb mode "bad-fs" then
             _ ← compare_bad_fs A B total_elements num_threads; mret tt
           else if String.eqb mode "bad-ma" then
             _ ← compare_bad_ma A B total_elements num_threads
                   (block_of shuffled_indices);
             mret tt
           else mret tt);
      mret EXIT_SUCCESS
  | _, _ => mret EXIT_FAILURE
  end.

End Kernels.

End MatrixCompare.

(** ** C_code/array_sum_false_sharing_sim_14.c *)

Module FalseSharingSim.

Import ArraySum.

Section Program.

Variable malloc_ok : Z → bool.
Variable junk : Z.
(** The schedule of the work-sharing loops, left to the implementation:
    [schedule n team i] is the worker of the team that runs iteration
    [i] of [n]. *)
Variable schedule : Z → Z → Z → Z.
(** The size of the team the runtime grants the region; the program
    asks for [threads] with [omp_set_num_threads]. *)
Variable team : Z.

(** [#pragma omp parallel for reduction(+:sum)] over
    [sum += array[i]]: every worker of the team adds into a private
    copy that starts at 0, and the copies are added to [sum] at the
    end.  The loop does not mention [threads]. *)
Definition reduction_linear (array : list Z) (size threads sum : Z)
  : outcome report :=
  st ← parallel_for (schedule size team) team 0 size
          (fun tid i st => add_packed array tid i st)
          {| slots := replicate (Z.to_nat team) 0; reads := [] |};
  sum ← for_range 0 team
           (fun t sum => p ← load (slots st) t; Done (wrap (sum + p)))
           sum;
  Done {| total := sum; visited := reads st |}.

(** The [good] branch, lines 56-62. *)
Definition good_branch (array : list Z) (size threads sum : Z)
  : M report :=
  lift (reduction_linear array size threads sum).

(** The [bad-fs] branch, lines 63-86; the result of [malloc] is not
    checked. *)
Definition bad_fs_branch (array : list Z) (size threads sum : Z)
  : M report :=
  let num_threads := threads in
  p ← malloc malloc_ok junk (wrap (num_threads * sizeof_unsigned_long))
        sizeof_unsigned_long;
  let partial_sums := block_of p in
  lift (
    partial_sums ←
      for_range 0 num_threads (fun i ps => store ps i 0) partial_sums;
    st ← parallel_for (schedule size team) team 0 size
            (fun tid i st => add_packed array tid i st)
            {| slots := partial_sums; reads := [] |};
    sum ← for_range 0 num_threads
             (fun i sum => p ← load (slots st) i; Done (wrap (sum + p)))
             sum;
    Done {| total := sum; visited := reads st |}).

(** The [bad-ma] branch, lines 87-95: [stride] is declared and never
    used, the loop reads [array[i]]. *)
Definition bad_ma_branch (array : list Z) (size threads sum : Z)
  : M report :=
  let stride := 64 in
  lift (reduction_linear array size threads sum).

Definition valid_mode (mode : string) : bool :=
  String.eqb mode "good" || String.eqb mode "bad-fs" || String.eqb mode "bad-ma".

Definition main (argc : Z) (mode : string) (size_arg threads_arg : Z)
  : M Z :=
  if argc <? 4 then mret 1 else
  let size := wrap size_arg in
  let threads := threads_arg in
  if negb (valid_mode mode) then mret 1 else
  array ← malloc malloc_ok junk (wrap (size * sizeof_unsigned_long))
             sizeof_unsigned_long;
  match array with
  | None => mret 1
  | Some array =>
      array ← lift (load_array array size);
      let sum := 0 in
      r ← (if String.eqb mode "good" then good_branch array size threads sum
           else if String.eqb mode "bad-fs" then
             bad_fs_branch array size threads sum
           else if String.eqb mode "bad-ma" then
             bad_ma_branch array size threads sum
           else mret {| total := sum; visited := [] |});
      _ ← print (total r);
      mret 0
  end.

End Program.

End FalseSharingSim.

(** ** matrix_init_access_modes_23.c *)

Module MatrixInit.

(** The matrix: [rows] holds, for each [a[i]], the offset of the row in
    the block [a_block]; [writes] logs the offsets of the cells written. *)
Record matrix : Type :=
  { rows : list Z; a_block : list Z; writes : list Z }.

(** [a[i][j] = v] *)
Definition write_cell (i j v : Z) (m : matrix) : outcome matrix :=
  row ← load (rows m) i;
  blk ← store (a_block m) (row + j) v;
  Done {| rows := rows m; a_block := blk; writes := writes m ++ [row + j] |}.

(** [a[i][j]] as an rvalue *)
Definition read_cell (i j : Z) (m : matrix) : outcome Z :=
  row ← load (rows m) i;
  load (a_block m) (row + j).

Section Program.

Variable malloc_ok : Z → bool.
Variable junk : Z.
Variable schedule : Z → Z → Z → Z.
(** The size of the team the runtime grants the region; the clause
    [num_threads(threads)] is the request. *)
Variable team : Z.

Definition good_mode (a : matrix) (N threads : Z) : outcome matrix :=
  parallel_for (schedule N team) team 0 N
    (fun tid i a => for_range 0 N (fun j a => write_cell i j 17 a) a)
    a.

(** The inner loop starts at the number of the running thread and
    steps by [threads], the number asked for. *)
Definition bad_fs_mode (fuel : nat) (a : matrix) (N threads : Z)
  : outcome matrix :=
  parallel_for (schedule N team) team 0 N
    (fun tid i a =>
       for_int_stride fuel N threads
         (fun j a => v ← int_add 17 tid; write_cell j i v a)
         tid a)
    a.

Definition bad_ma_mode (a : matrix) (N threads : Z) : outcome matrix :=
  parallel_for (schedule N team) team 0 N
    (fun tid j a => for_range 0 N (fun i a => write_cell i j 17 a) a)
    a.

Definition valid_mode (mode : string) : bool :=
  String.eqb mode "good" || String.eqb mode "bad-fs" || String.eqb mode "bad-ma".

(** [for (int i = 0; i < N; i++) a[i] = a_block + i * N;] *)
Definition assign_rows (rows : list Z) (N : Z) : outcome (list Z) :=
  for_range 0 N
    (fun i rows => off ← int_mul i N; store rows i off)
    rows.

(** [main]; [N_arg] and [threads_arg] are what [atoi] returns. *)
Definition main (fuel : nat) (argc : Z) (mode : string)
    (N_arg threads_arg : Z) : M Z :=
  if argc <? 4 then mret 1 else
  let N := N_arg in
  let threads := threads_arg in
  if negb (valid_mode mode) then mret 1 else
  a ← malloc malloc_ok junk (wrap (sizeof_pointer * N)) sizeof_pointer;
  match a with
  | None => mret 1
  | Some a =>
      blk ← malloc malloc_ok junk (wrap (sizeof_int * N * N)) sizeof_int;
      match blk with
      | None => mret 1
      | Some blk =>
          a ← lift (assign_rows a N);
          let m := {| rows := a; a_block := blk; writes := [] |} in
          m ← lift (if String.eqb mode "good" then good_mode m N threads
                    else if String.eqb mode "bad-fs" then
                      bad_fs_mode fuel m N threads
                    else if String.eqb mode "bad-ma" then
                      bad_ma_mode m N threads
                    else Done m);
          _ ← (if 17 <? N then
                 v ← lift (read_cell 17 17 m); print v
               else mret tt);
          mret 0
      end
  end.

End Program.

End MatrixInit.

(** ** array_sum_performance_variation_10.c *)

Module PerformanceVariation.

(** [sum_linear]: the sum printed. *)
Definition sum_linear (array : list Z) (size : Z) : outcome Z :=
  for_range 0 size (fun i sum => x ← load array i; Done (wrap (sum + x))) 0.

(** [sum_random] *)
Definition sum_random (array indices : list Z) (size : Z) : outcome Z :=
  for_range 0 size
    (fun i sum => idx ← load indices i;
                  x ← load array idx;
                  Done (wrap (sum + x)))
    0.

(** [sum_strided] *)
Definition sum_strided (fuel : nat) (array : list Z) (size stride : Z)
  : outcome Z :=
  for_stride fuel size stride
    (fun i sum => x ← load array i; Done (wrap (sum + x)))
    0 0.

(** [modify_and_sum]: the array as it leaves the function and the sum
    printed. *)
Definition modify_and_sum (array : list Z) (size : Z)
  : outcome (list Z * Z) :=
  for_range 0 size
    (fun i '(array, sum) =>
       x ← load array i;
       array ← store array i (wrap (x + 1));
       y ← load array i;
       Done (array, wrap (sum + y)))
    (array, 0).

Section Program.

Variable malloc_ok : Z → bool.
Variable junk : Z.

(** [main]; there is no thread count, and the modes are [good] and
    [bad]. *)
Definition main (fuel : nat) (rand : nat → Z) (argc : Z) (mode : string)
    (size_arg : Z) : M Z :=
  if argc <? 3 then mret 1 else
  let size := wrap size_arg in
  if size =? 0 then mret 1 else
  array ← malloc malloc_ok junk (wrap (size * sizeof_unsigned_long))
             sizeof_unsigned_long;
  match array with
  | None => mret 1
  | Some array =>
      array ← lift (load_array array size);
      indices ←
        (if String.eqb mode "bad" then
           p ← malloc malloc_ok junk (wrap (size * sizeof_unsigned_long))
                 sizeof_unsigned_long;
           match p with
           | None => exit 1 (* [return 1] from main *)
           | Some indices =>
               indices ← lift (fill_identity indices size);
               indices ← lift (shuffle_array rand indices size);
               mret (Some indices)
           end
         else mret None);
      if String.eqb mode "good" then
        s ← lift (sum_linear array size);
        _ ← print s;
        '(array, s) ← lift (modify_and_sum array size);
        _ ← print s;
        mret 0
      else if String.eqb mode "bad" then
        s ← lift (sum_random array (block_of indices) size);
        _ ← print s;
        s ← lift (sum_strided fuel array size 5);
        _ ← print s;
        mret 0
      else mret 1
  end.

End Program.

End PerformanceVariation.

(** The exit status of the process: what [main] returned, or the
    argument of [exit]. *)
Definition exit_status (r : outcome Z) : option Z :=
  match r with
  | Done status => Some status
  | Fault (Exit status) => Some status
  | Fault _ => None
  end.

(** * Specification-level notions *)

Definition Zsum (l : list Z) : Z := foldr Z.add 0 l.

(** The accumulator slots seen as residues modulo 2^64. *)
Definition residues {Slot} (value : Slot → Z) (st : region Slot) : list Z :=
  (fun p => wrap (value p)) <$> slots st.

(** The rule in the words of the specification: base chunk [N / T];
    worker [t < T-1] gets [[t*chunk, (t+1)*chunk)], worker [T-1] gets
    [[(T-1)*chunk, N)]. *)
Definition partition_rule (N T t : Z) : Z * Z :=
  let chunk := N / T in
  (t * chunk, if t =? T - 1 then N else (t + 1) * chunk).

Definition in_range (r : Z * Z) (i : Z) : Prop := r.1 ≤ i < r.2.

(** [adds value tid x idxs st st']: from [st] to [st'] the slot of
    worker [tid] grew by [x] (modulo 2^64), the other slots kept their
    value and the indices [idxs] were read. *)
Definition adds {Slot} (value : Slot → Z) (tid x : Z) (idxs : list Z)
    (st st' : region Slot) : Prop :=
  residues value st'
  = alter (fun a => wrap (a + x)) (Z.to_nat tid) (residues value st)
  ∧ reads st' = reads st ++ idxs.

(** The skeleton that [sum_good], [sum_bad_fs], the shuffled
    [sum_bad_ma] and the three [compare_*] functions instantiate. *)
Definition partitioned_kernel {Slot} (value : Slot → Z)
    (zero : Z → list Slot → outcome (list Slot))
    (body : Z → Z → region Slot → outcome (region Slot))
    (size num_threads team : Z) (ps : list Slot) : outcome report :=
  ps ← zero num_threads ps;
  st ← parallel team
          (fun tid st =>
             '(start, end_) ← chunk_bounds size num_threads tid;
             for_range start end_ (body tid) st)
          {| slots := ps; reads := [] |};
  total ← for_range 0 num_threads
             (fun i total => p ← load (slots st) i;
                             Done (wrap (total + value p)))
             0;
  Done {| total := total; visited := reads st |}.

(** The number of leading elements that the chunks of a team of [team]
    threads cover, when the [N] elements are partitioned for [T]: all
    of them when the team is the [T] threads asked for, otherwise the
    [team] chunks of [N / T] elements of the threads that exist. *)
Definition covered (N T team : Z) : Z :=
  if team =? T then N else team * (N / T).

(** [array[idx]], read as a total function. *)
Definition elem (array : list Z) (idx : Z) : Z := array !!! Z.to_nat idx.

(** The values taken by [for (i = lo; i < hi; i += step)] when no
    increment wraps. *)
Definition strided (lo hi step : Z) : list Z :=
  (fun k => lo + k * step) <$> seqZ 0 ((hi - lo + step - 1) / step).

(** The index that iteration [i] of the strided loop reads. *)
Definition strided_index (size stride i : Z) : Z := wrap (i * stride) mod size.

(** What index [idx] contributes to the count. *)
Definition mismatch (A B : list Z) (idx : Z) : Z :=
  if elem A idx =? elem B idx then 0 else 1.

(** The two buffers as [initialize_matrices] leaves them. *)
Definition matrix_A (size : Z) : list Z := (fun i => i mod 100) <$> seqZ 0 size.

Definition matrix_B (size : Z) : list Z :=
  (fun i => if i mod 1000 =? 0 then i mod 100 + 1 else i mod 100) <$> seqZ 0 size.

(** A block of [n] objects of [elem_size] bytes can be asked of
    [malloc]: the byte count does not wrap.  Every array a program holds
    satisfies it. *)
Definition allocatable (n elem_size : Z) : Prop :=
  n * elem_size < ULONG_MODULUS.

(** A schedule deals every iteration to a worker of the team. *)
Definition valid_schedule (owner : Z → Z) (n T : Z) : Prop :=
  ∀ i, 0 ≤ i < n → 0 ≤ owner i < T.

(** [wrote offs v m m']: from [m] to [m'] the cells at the offsets
    [offs] were written, in that order, each with [v]; nothing else
    changed. *)
Definition wrote (offs : list Z) (v : Z) (m m' : MatrixInit.matrix) : Prop :=
  MatrixInit.rows m' = MatrixInit.rows m
  ∧ MatrixInit.writes m' = MatrixInit.writes m ++ offs
  ∧ length (MatrixInit.a_block m') = length (MatrixInit.a_block m)
  ∧ ∀ o : nat, MatrixInit.a_block m' !! o
               = if bool_decide (Z.of_nat o ∈ offs) then Some v
                 else MatrixInit.a_block m !! o.

(** The row pointers as [main] sets them: row [i] starts at [i * N]. *)
Definition row_offsets (N : Z) : list Z := (fun i => i * N) <$> seqZ 0 N.

(** The run ended normally and read every index of [0, n) exactly once. *)
Definition processed_once (n : Z) (r : outcome report) : Prop :=
  ∃ rep, r = Done rep ∧ visited rep ≡ₚ seqZ 0 n.

(** Two runs ended normally with the same scalar. *)
Definition same_total (x y : outcome report) : Prop :=
  ∃ r r', x = Done r ∧ y = Done r' ∧ total r = total r'.

(** The report of the strided kernel, without the warning flag. *)
Definition strided_report (x : outcome (bool * report)) : outcome report :=
  match x with
  | Done (_, r) => Done r
  | Fault f => Fault f
  end.

(** The number of positions at which two buffers differ. *)
Definition mismatches (A B : list Z) : nat :=
  length (filter (fun p => p.1 ≠ p.2) (zip A B)).

(** [wrote_with f offs m m']: from [m] to [m'] the cells at the offsets
    [offs] were written, in that order, the cell at offset [o] with
    [f o]; nothing else changed. *)
Definition wrote_with (f : Z → Z) (offs : list Z) (m m' : MatrixInit.matrix)
  : Prop :=
  MatrixInit.rows m' = MatrixInit.rows m
  ∧ MatrixInit.writes m' = MatrixInit.writes m ++ offs
  ∧ length (MatrixInit.a_block m') = length (MatrixInit.a_block m)
  ∧ ∀ o : nat, MatrixInit.a_block m' !! o
               = if bool_decide (Z.of_nat o ∈ offs) then Some (f (Z.of_nat o))
                 else MatrixInit.a_block m !! o.

(** The cells [bad_fs_mode] writes, in the order of the run: worker
    [tid] of the team takes its columns [i] in increasing order and
    writes the rows [tid, tid + T, ..] of each. *)
Definition bad_fs_offsets (owner : Z → Z) (N T team : Z) : list Z :=
  seqZ 0 team ≫= (fun tid =>
    filter (fun i => owner i = tid) (seqZ 0 N) ≫= (fun i =>
      strided tid N T ≫= (fun j => [j * N + i]))).

Global Arguments partition_rule : simpl never.

(** * Properties *)

Section WrapFacts.

Lemma wrap_range z : 0 ≤ wrap z < ULONG_MODULUS.
Proof. unfold wrap, ULONG_MODULUS. apply Z.mod_pos_bound. lia. Qed.

Lemma wrap_small z : 0 ≤ z < ULONG_MODULUS → wrap z = z.
Proof. unfold wrap. intros. by apply Z.mod_small. Qed.

Lemma wrap_wrap z : wrap (wrap z) = wrap z.
Proof. apply wrap_small, wrap_range. Qed.

Lemma wrap_add_l a b : wrap (wrap a + b) = wrap (a + b).
Proof. unfold wrap, ULONG_MODULUS. by rewrite Zplus_mod_idemp_l. Qed.

Lemma wrap_add_r a b : wrap (a + wrap b) = wrap (a + b).
Proof. unfold wrap, ULONG_MODULUS. by rewrite Zplus_mod_idemp_r. Qed.

Lemma wrap_0 : wrap 0 = 0.
Proof. done. Qed.

End WrapFacts.

Section ZsumFacts.

Lemma Zsum_app l1 l2 : Zsum (l1 ++ l2) = Zsum l1 + Zsum l2.
Proof. induction l1 as [|x l1 IH]; simpl; lia. Qed.

Global Instance Zsum_perm : Proper ((≡ₚ) ==> (=)) Zsum.
Proof. induction 1; simpl; lia. Qed.

Lemma Zsum_bind {A} (f : A → list Z) (l : list A) :
  Zsum (l ≫= f) = Zsum ((fun x => Zsum (f x)) <$> l).
Proof.
  induction l as [|x l IH]; [done|].
  cbn. rewrite Zsum_app. simpl in IH. by rewrite IH.
Qed.

Lemma wrap_Zsum_wrap {A} (g : A → Z) (l : list A) :
  wrap (Zsum ((fun x => wrap (g x)) <$> l)) = wrap (Zsum (g <$> l)).
Proof.
  induction l as [|x l IH]; [done|].
  cbn. rewrite wrap_add_l.
  rewrite <- (wrap_add_r (g x) (Zsum _)), IH, wrap_add_r. done.
Qed.

Lemma Zsum_fmap_wrap (l : list Z) : wrap (Zsum (wrap <$> l)) = wrap (Zsum l).
Proof.
  rewrite <- (list_fmap_id l) at 2. apply (wrap_Zsum_wrap id).
Qed.

End ZsumFacts.

Section OutcomeFacts.

Context {A : Type}.

Lemma load_Done (a : list A) (i : Z) (x : A) :
  0 ≤ i → a !! Z.to_nat i = Some x → load a i = Done x.
Proof.
  intros Hi Hx. unfold load.
  destruct (Z.ltb_spec i 0); [lia|]. by rewrite Hx.
Qed.

Lemma load_lt (a : list A) (i : Z) :
  0 ≤ i < Z.of_nat (length a) → ∃ x, a !! Z.to_nat i = Some x ∧ load a i = Done x.
Proof.
  intros Hi. destruct (lookup_lt_is_Some_2 a (Z.to_nat i)) as [x Hx]; [lia|].
  exists x. split; [done|]. apply load_Done; [lia|done].
Qed.

Lemma store_Done (a : list A) (i : Z) (x : A) :
  0 ≤ i < Z.of_nat (length a) → store a i x = Done (<[Z.to_nat i := x]> a).
Proof.
  intros Hi. unfold store.
  destruct (Z.leb_spec 0 i); [|lia].
  destruct (Z.ltb_spec i (Z.of_nat (length a))); [done|lia].
Qed.

Lemma store_out (a : list A) (i : Z) (x : A) :
  ¬ (0 ≤ i < Z.of_nat (length a)) → store a i x = Fault OutOfBounds.
Proof.
  intros Hi. unfold store.
  destruct (Z.leb_spec 0 i); [|done].
  destruct (Z.ltb_spec i (Z.of_nat (length a))); [lia|done].
Qed.

Lemma load_out (a : list A) (i : Z) :
  ¬ (0 ≤ i < Z.of_nat (length a)) → load a i = Fault OutOfBounds.
Proof.
  intros Hi. unfold load.
  destruct (Z.ltb_spec i 0); [done|].
  rewrite lookup_ge_None_2; [done|lia].
Qed.

End OutcomeFacts.

Section LoopFacts.

Context {S : Type}.
Implicit Types (body : Z → S → outcome S) (l : list Z) (s : S).

Lemma iterate_app body l1 l2 s :
  iterate body (l1 ++ l2) s = s' ← iterate body l1 s; iterate body l2 s'.
Proof.
  revert s. induction l1 as [|i l1 IH]; intros s; [done|].
  cbn. destruct (body i s) as [s1|f]; cbn; [apply IH|done].
Qed.

Lemma iterate_ext body1 body2 l s :
  (∀ i s, i ∈ l → body1 i s = body2 i s) →
  iterate body1 l s = iterate body2 l s.
Proof.
  revert s. induction l as [|i l IH]; intros s Hb; [done|].
  cbn. rewrite Hb by left. destruct (body2 i s); cbn; [|done].
  apply IH. intros. apply Hb. by right.
Qed.

(** The loop rule: an invariant indexed by the values already taken. *)
Lemma iterate_inv (I : list Z → S → Prop) body l s0 :
  I [] s0 →
  (∀ l1 i l2 s, l = l1 ++ i :: l2 → I l1 s →
                ∃ s', body i s = Done s' ∧ I (l1 ++ [i]) s') →
  ∃ s', iterate body l s0 = Done s' ∧ I l s'.
Proof.
  intros H0. induction l as [|x l IH] using rev_ind; intros Hstep.
  - exists s0. done.
  - destruct IH as (s1 & Hrun & HI).
    { intros l1 i l2 s -> Hs. apply (Hstep l1 i (l2 ++ [x])); [|done].
      by rewrite <- app_assoc. }
    destruct (Hstep l x [] s1 eq_refl HI) as (s2 & Hb & HI2).
    exists s2. split; [|done].
    rewrite iterate_app, Hrun. cbn. by rewrite Hb.
Qed.

Lemma seqZ_split lo n l1 i l2 :
  seqZ lo n = l1 ++ i :: l2 →
  i = lo + Z.of_nat (length l1) ∧ Z.of_nat (length l1) < n ∧
  l1 = seqZ lo (Z.of_nat (length l1)).
Proof.
  intros Heq.
  assert ((l1 ++ i :: l2) !! length l1 = Some i) as Hi
    by (rewrite lookup_app_r, Nat.sub_diag by lia; done).
  rewrite <- Heq in Hi. apply lookup_seqZ in Hi as [-> Hlt].
  split_and!; [done..|].
  assert (n = Z.of_nat (length l1) + (n - Z.of_nat (length l1))) as Hn by lia.
  rewrite Hn, seqZ_app in Heq by lia.
  apply app_inj_1 in Heq as [? _]; [done|].
  rewrite length_seqZ. lia.
Qed.

(** The loop rule for [for (i = lo; i < hi; i++)]. *)
Lemma for_range_inv (I : Z → S → Prop) lo hi body s0 :
  lo ≤ hi →
  I lo s0 →
  (∀ i s, lo ≤ i < hi → I i s → ∃ s', body i s = Done s' ∧ I (i + 1) s') →
  ∃ s', for_range lo hi body s0 = Done s' ∧ I hi s'.
Proof.
  intros Hle H0 Hstep. unfold for_range.
  destruct (iterate_inv (fun l1 s => I (lo + Z.of_nat (length l1)) s)
              body (seqZ lo (hi - lo)) s0) as (s' & Hrun & HI).
  - simpl. by rewrite Z.add_0_r.
  - intros l1 i l2 s Heq Hs.
    apply seqZ_split in Heq as (-> & Hlt & _).
    destruct (Hstep (lo + Z.of_nat (length l1)) s ltac:(lia) Hs)
      as (s' & Hb & HI).
    exists s'. split; [done|].
    rewrite length_app. simpl.
    replace (lo + Z.of_nat (length l1 + 1)) with (lo + Z.of_nat (length l1) + 1) by lia.
    done.
  - exists s'. split; [done|].
    rewrite length_seqZ in HI. by replace (lo + Z.of_nat (Z.to_nat (hi - lo))) with hi in HI by lia.
Qed.

Lemma for_range_empty lo hi body s : hi ≤ lo → for_range lo hi body s = Done s.
Proof. intros. unfold for_range. by rewrite seqZ_nil by lia. Qed.

End LoopFacts.

(** ** The partitioning rule *)

Section Partition.

Variables N T : Z.
Hypothesis HN : 0 ≤ N < ULONG_MODULUS.
Hypothesis HT : 1 ≤ T ≤ INT_MAX.

Lemma chunk_le t : 0 ≤ t < T → t * (N / T) ≤ N.
Proof.
  intros Ht.
  assert (T * (N / T) ≤ N) by (apply Z.mul_div_le; lia).
  assert (0 ≤ N / T) by (apply Z.div_pos; lia).
  nia.
Qed.

Lemma partition_rule_bounds t :
  0 ≤ t < T →
  0 ≤ (partition_rule N T t).1 ≤ (partition_rule N T t).2 ∧
  (partition_rule N T t).2 ≤ N.
Proof.
  intros Ht. unfold partition_rule. simpl.
  assert (0 ≤ N / T) by (apply Z.div_pos; lia).
  pose proof (chunk_le t Ht).
  destruct (Z.eqb_spec t (T - 1)).
  - nia.
  - pose proof (chunk_le (t + 1) ltac:(lia)). nia.
Qed.

(** The code computes the rule: no product or sum wraps. *)
Lemma chunk_bounds_rule t :
  0 ≤ t < T → chunk_bounds N T t = Done (partition_rule N T t).
Proof.
  intros Ht. unfold chunk_bounds, partition_rule, udiv.
  assert (INT_MAX < ULONG_MODULUS) by done.
  rewrite (wrap_small T), (wrap_small t) by lia.
  destruct (Z.eqb_spec T 0); [lia|]. cbn.
  assert (0 ≤ N / T) by (apply Z.div_pos; lia).
  pose proof (chunk_le t Ht).
  rewrite (wrap_small (t * (N / T))) by nia.
  destruct (Z.eqb_spec t (T - 1)); [done|].
  pose proof (chunk_le (t + 1) ltac:(lia)).
  rewrite wrap_small by nia. do 2 f_equal. lia.
Qed.

Lemma partition_rule_ordered t1 t2 :
  0 ≤ t1 < t2 → t2 < T →
  (partition_rule N T t1).2 ≤ (partition_rule N T t2).1.
Proof.
  intros H1 H2. unfold partition_rule. simpl.
  assert (0 ≤ N / T) by (apply Z.div_pos; lia).
  destruct (Z.eqb_spec t1 (T - 1)); [lia|]. nia.
Qed.

Lemma partition_rule_disjoint t1 t2 i :
  0 ≤ t1 < T → 0 ≤ t2 < T →
  in_range (partition_rule N T t1) i → in_range (partition_rule N T t2) i →
  t1 = t2.
Proof.
  intros H1 H2 [? ?] [? ?].
  destruct (Z.lt_trichotomy t1 t2) as [Hlt|[?|Hlt]]; [|done|].
  - pose proof (partition_rule_ordered t1 t2 ltac:(lia) ltac:(lia)). lia.
  - pose proof (partition_rule_ordered t2 t1 ltac:(lia) ltac:(lia)). lia.
Qed.

Lemma partition_rule_cover i :
  0 ≤ i < N → ∃ t, 0 ≤ t < T ∧ in_range (partition_rule N T t) i.
Proof.
  intros Hi. unfold in_range, partition_rule. simpl.
  assert (0 ≤ N / T) as Hc by (apply Z.div_pos; lia).
  destruct (Z.eq_dec (N / T) 0) as [H0|H0].
  - exists (T - 1). rewrite Z.eqb_refl, H0. lia.
  - destruct (Z_lt_le_dec (i / (N / T)) (T - 1)) as [Hlt|Hge].
    + exists (i / (N / T)).
      assert (0 ≤ i / (N / T)) by (apply Z.div_pos; lia).
      destruct (Z.eqb_spec (i / (N / T)) (T - 1)); [lia|].
      pose proof (Z.mul_div_le i (N / T) ltac:(lia)).
      pose proof (Z.mul_succ_div_gt i (N / T) ltac:(lia)).
      split; [lia|]. nia.
    + exists (T - 1). rewrite Z.eqb_refl.
      split; [lia|]. split; [|lia].
      pose proof (Z.mul_div_le i (N / T) ltac:(lia)). nia.
Qed.

Lemma Zsum_const (c : Z) (k : nat) :
  Zsum ((fun _ => c) <$> seqZ 0 (Z.of_nat k)) = Z.of_nat k * c.
Proof.
  induction k as [|k IH]; [done|].
  rewrite seqZ_S, fmap_app, Zsum_app, IH. simpl. lia.
Qed.

Lemma fmap_ext_in {A B} (f g : A → B) (l : list A) :
  (∀ x, x ∈ l → f x = g x) → f <$> l = g <$> l.
Proof.
  intros H. apply list_eq. intros i. rewrite !list_lookup_fmap.
  destruct (l !! i) as [x|] eqn:Hx; [|done]. simpl. f_equal.
  apply H. by eapply list_elem_of_lookup_2.
Qed.

Lemma bind_ext_in {A B} (f g : A → list B) (l : list A) :
  (∀ x, x ∈ l → f x = g x) → l ≫= f = l ≫= g.
Proof.
  induction l as [|x l IH]; intros H; [done|].
  cbn. rewrite (H x) by left. f_equal. apply IH. intros. apply H. by right.
Qed.

Lemma seqZ_snoc (n : Z) : 0 < n → seqZ 0 n = seqZ 0 (n - 1) ++ [n - 1].
Proof.
  intros Hn. replace n with ((n - 1) + 1) at 1 by lia.
  rewrite seqZ_app by lia. done.
Qed.

Lemma partition_rule_lengths :
  Zsum ((fun t => (partition_rule N T t).2 - (partition_rule N T t).1)
          <$> seqZ 0 T) = N.
Proof.
  rewrite (seqZ_snoc T), fmap_app, Zsum_app by lia.
  rewrite (fmap_ext_in _ (fun _ => N / T)).
  - replace (T - 1) with (Z.of_nat (Z.to_nat (T - 1))) at 1 by lia.
    rewrite Zsum_const, Z2Nat.id by lia. unfold partition_rule. simpl.
    rewrite Z.eqb_refl. lia.
  - intros t [? ?]%elem_of_seqZ. unfold partition_rule. simpl.
    destruct (Z.eqb_spec t (T - 1)); lia.
Qed.

Lemma seqZ_chunks (c : Z) (k : nat) :
  0 ≤ c →
  seqZ 0 (Z.of_nat k) ≫= (fun t => seqZ (t * c) c) = seqZ 0 (Z.of_nat k * c).
Proof.
  intros Hc. induction k as [|k IH]; [done|].
  rewrite seqZ_S, bind_app, IH. cbn. rewrite app_nil_r.
  replace (Z.of_nat (Datatypes.S k) * c) with (Z.of_nat k * c + c) by lia.
  rewrite (seqZ_app 0) by nia. done.
Qed.

(** Worker after worker, the ranges list [0, N) in order. *)
Lemma partition_rule_concat :
  seqZ 0 T ≫= (fun t => seqZ (partition_rule N T t).1
                          ((partition_rule N T t).2 - (partition_rule N T t).1))
  = seqZ 0 N.
Proof.
  assert (0 ≤ N / T) as Hc by (apply Z.div_pos; lia).
  pose proof (chunk_le (T - 1) ltac:(lia)).
  rewrite (seqZ_snoc T), bind_app by lia.
  rewrite (bind_ext_in _ (fun t => seqZ (t * (N / T)) (N / T))).
  - replace (T - 1) with (Z.of_nat (Z.to_nat (T - 1))) at 1 by lia.
    rewrite seqZ_chunks by done. unfold partition_rule. cbn.
    rewrite app_nil_r, Z.eqb_refl, Z2Nat.id by lia.
    assert (0 ≤ (T - 1) * (N / T)) by nia.
    set (a := (T - 1) * (N / T)) in *.
    transitivity (seqZ 0 (a + (N - a))); [|f_equal; lia].
    rewrite (seqZ_app 0) by lia. done.
  - intros t [? ?]%elem_of_seqZ. unfold partition_rule. simpl.
    destruct (Z.eqb_spec t (T - 1)); [lia|]. f_equal. lia.
Qed.

Lemma covered_full : covered N T T = N.
Proof. unfold covered. by rewrite Z.eqb_refl. Qed.

Lemma covered_bounds K : 0 ≤ K ≤ T → 0 ≤ covered N T K ≤ N.
Proof.
  intros HK. unfold covered. destruct (Z.eqb_spec K T); [lia|].
  assert (0 ≤ N / T) by (apply Z.div_pos; lia).
  pose proof (chunk_le K ltac:(lia)). nia.
Qed.

(** The ranges of the first [K] workers list the first
    [covered N T K] indices in order. *)
Lemma partition_rule_prefix K :
  0 ≤ K ≤ T →
  seqZ 0 K ≫= (fun t => seqZ (partition_rule N T t).1
                          ((partition_rule N T t).2 - (partition_rule N T t).1))
  = seqZ 0 (covered N T K).
Proof.
  intros HK. unfold covered. destruct (Z.eqb_spec K T) as [->|Hne].
  - apply partition_rule_concat.
  - assert (0 ≤ N / T) as Hc by (apply Z.div_pos; lia).
    rewrite (bind_ext_in _ (fun t => seqZ (t * (N / T)) (N / T))).
    + replace K with (Z.of_nat (Z.to_nat K)) at 1 by lia.
      rewrite seqZ_chunks by done. by rewrite Z2Nat.id by lia.
    + intros t [? ?]%elem_of_seqZ. unfold partition_rule. simpl.
      destruct (Z.eqb_spec t (T - 1)); [lia|]. f_equal. lia.
Qed.

End Partition.

(** ** Accumulation into the slots *)

Section Accumulation.

Context {Slot : Type} (value : Slot → Z).

Lemma alter_wrap_0 (st : region Slot) (i : nat) :
  alter (fun a => wrap (a + 0)) i (residues value st) = residues value st.
Proof.
  apply list_eq. intros j. rewrite list_lookup_alter.
  case_decide; [|done]. subst j. unfold residues.
  rewrite list_lookup_fmap. destruct (slots st !! i); [|done]. simpl.
  by rewrite Z.add_0_r, wrap_wrap.
Qed.

Lemma alter_wrap_add (l : list Z) (i : nat) x y :
  alter (fun a => wrap (a + y)) i (alter (fun a => wrap (a + x)) i l)
  = alter (fun a => wrap (a + (x + y))) i l.
Proof.
  rewrite list_alter_alter_eq. apply list_alter_ext; [|done].
  intros a _. simpl. rewrite wrap_add_l. f_equal. lia.
Qed.

Lemma adds_refl tid st : adds value tid 0 [] st st.
Proof. split; [by rewrite alter_wrap_0|by rewrite app_nil_r]. Qed.

Lemma adds_trans tid x y l1 l2 st st1 st2 :
  adds value tid x l1 st st1 → adds value tid y l2 st1 st2 →
  adds value tid (x + y) (l1 ++ l2) st st2.
Proof.
  intros [Hr1 Hl1] [Hr2 Hl2]. split.
  - by rewrite Hr2, Hr1, alter_wrap_add.
  - by rewrite Hl2, Hl1, app_assoc.
Qed.

Lemma adds_length tid x l st st' :
  adds value tid x l st st' → length (slots st') = length (slots st).
Proof.
  intros [Hr _]. apply (f_equal length) in Hr.
  unfold residues in Hr. by rewrite length_alter, !length_fmap in Hr.
Qed.

(** A loop whose every step adds into the slot of [tid]. *)
Lemma iterate_adds (n : nat) tid (c h : Z → Z)
    (body : Z → region Slot → outcome (region Slot)) l st :
  (∀ i st, i ∈ l → length (slots st) = n →
           ∃ st', body i st = Done st' ∧ adds value tid (c i) [h i] st st') →
  length (slots st) = n →
  ∃ st', iterate body l st = Done st'
         ∧ adds value tid (Zsum (c <$> l)) (h <$> l) st st'.
Proof.
  revert st. induction l as [|i l IH]; intros st Hbody Hlen.
  - exists st. split; [done|]. apply adds_refl.
  - destruct (Hbody i st ltac:(left) Hlen) as (st1 & Hb & Hadd).
    destruct (IH st1) as (st2 & Hrun & Hadd2).
    { intros. apply Hbody; [by right|done]. }
    { by rewrite (adds_length _ _ _ _ _ Hadd). }
    exists st2. split.
    + cbn. rewrite Hb. done.
    + apply (adds_trans tid (c i) _ [h i] _ _ _ _ Hadd Hadd2).
Qed.

(** The fork-join region: worker after worker.  The team has [K]
    threads, the slots are [n >= K]; the slots of the threads that do
    not exist stay at zero. *)
Lemma parallel_adds_team (n : nat) K (X : Z → Z) (vis : Z → list Z)
    (worker : Z → region Slot → outcome (region Slot)) st0 :
  0 ≤ K → (Z.to_nat K ≤ n)%nat →
  (∀ tid st, 0 ≤ tid < K → length (slots st) = n →
             ∃ st', worker tid st = Done st'
                    ∧ adds value tid (X tid) (vis tid) st st') →
  length (slots st0) = n →
  residues value st0 = replicate n 0 →
  reads st0 = [] →
  ∃ st', parallel K worker st0 = Done st'
         ∧ residues value st'
           = ((fun t => wrap (X t)) <$> seqZ 0 K)
               ++ replicate (n - Z.to_nat K) 0
         ∧ reads st' = seqZ 0 K ≫= vis.
Proof.
  intros HK HKn Hw Hlen Hres Hlog. unfold parallel.
  destruct (iterate_inv
    (fun l1 st =>
       length (slots st) = n
       ∧ residues value st
         = ((fun t => wrap (X t)) <$> l1)
             ++ replicate (n - length l1) 0
       ∧ reads st = l1 ≫= vis)
    worker (seqZ 0 K) st0) as (st' & Hrun & Hl & Hr & Hv).
  - by rewrite Nat.sub_0_r.
  - intros l1 i l2 st Heq (Hl & Hr & Hv).
    apply seqZ_split in Heq as (-> & Hlt & Hl1).
    destruct (Hw (0 + Z.of_nat (length l1)) st ltac:(lia) Hl)
      as (st1 & Hb & [Hr1 Hv1]).
    exists st1. split; [done|]. split_and!.
    + by rewrite (adds_length _ _ _ _ _ (conj Hr1 Hv1)).
    + rewrite Hr1, Hr.
      replace (Z.to_nat (0 + Z.of_nat (length l1))) with (length l1) by lia.
      rewrite alter_app_r_alt by (rewrite length_fmap; lia).
      rewrite length_fmap, Nat.sub_diag, fmap_app, <- app_assoc. f_equal.
      destruct (n - length l1)%nat as [|k] eqn:Hk; [lia|].
      rewrite length_app. simpl.
      replace (n - (length l1 + 1))%nat with k by lia. done.
    + rewrite Hv1, Hv, bind_app. cbn. by rewrite app_nil_r.
  - exists st'. split; [done|]. split; [|done].
    by rewrite Hr, length_seqZ.
Qed.

(** The same when the team is the [T] threads the slots were made
    for. *)
Lemma parallel_adds T (X : Z → Z) (vis : Z → list Z)
    (worker : Z → region Slot → outcome (region Slot)) st0 :
  0 ≤ T →
  (∀ tid st, 0 ≤ tid < T → length (slots st) = Z.to_nat T →
             ∃ st', worker tid st = Done st'
                    ∧ adds value tid (X tid) (vis tid) st st') →
  length (slots st0) = Z.to_nat T →
  residues value st0 = replicate (Z.to_nat T) 0 →
  reads st0 = [] →
  ∃ st', parallel T worker st0 = Done st'
         ∧ residues value st' = (fun t => wrap (X t)) <$> seqZ 0 T
         ∧ reads st' = seqZ 0 T ≫= vis.
Proof.
  intros HT Hw Hlen Hres Hlog.
  destruct (parallel_adds_team (Z.to_nat T) T X vis worker st0)
    as (st' & Hrun & Hr & Hv); [lia|lia|done..|].
  exists st'. split; [done|]. split; [|done].
  rewrite Hr, Nat.sub_diag. simpl. by rewrite app_nil_r.
Qed.

Lemma Zsum_replicate_0 (k : nat) : Zsum (replicate k 0) = 0.
Proof. induction k as [|k IH]; [done|]. simpl. by rewrite IH. Qed.

(** The reduction loop over the slots. *)
Lemma reduce_residues T (ps : list Slot) :
  0 ≤ T → length ps = Z.to_nat T →
  for_range 0 T
    (fun i total => p ← load ps i; Done (wrap (total + value p))) 0
  = Done (wrap (Zsum ((fun p => wrap (value p)) <$> ps))).
Proof.
  intros HT Hlen.
  destruct (for_range_inv
    (fun i total =>
       total = wrap (Zsum (take (Z.to_nat i) ((fun p => wrap (value p)) <$> ps))))
    0 T (fun i total => p ← load ps i; Done (wrap (total + value p))) 0)
    as (total & Hrun & ->); [done|done| |].
  - intros i total Hi ->.
    destruct (load_lt ps i ltac:(lia)) as (p & Hp & ->).
    eexists. split; [done|]. cbn.
    replace (Z.to_nat (i + 1)) with (Datatypes.S (Z.to_nat i)) by lia.
    rewrite (take_S_r _ _ (wrap (value p)))
      by (by rewrite list_lookup_fmap, Hp).
    rewrite Zsum_app. simpl.
    rewrite wrap_add_l, Z.add_0_r, wrap_add_r. done.
  - rewrite Hrun. do 2 f_equal.
    rewrite take_ge; [done|]. rewrite length_fmap. lia.
Qed.

(** The loop that sets the slots to zero. *)
Lemma zero_slots T (body : Z → list Slot → outcome (list Slot)) ps :
  0 ≤ T →
  (∀ i ps, 0 ≤ i < Z.of_nat (length ps) →
           ∃ q, value q = 0 ∧ body i ps = Done (<[Z.to_nat i := q]> ps)) →
  length ps = Z.to_nat T →
  ∃ ps', for_range 0 T body ps = Done ps'
         ∧ length ps' = Z.to_nat T
         ∧ (fun p => wrap (value p)) <$> ps' = replicate (Z.to_nat T) 0.
Proof.
  intros HT Hbody Hlen.
  destruct (for_range_inv
    (fun i ps =>
       length ps = Z.to_nat T
       ∧ ∀ j p, (j < Z.to_nat i)%nat → ps !! j = Some p → value p = 0)
    0 T body ps) as (ps' & Hrun & Hl & Hz); [done| | |].
  - split; [done|]. intros; lia.
  - intros i qs Hi [Hl Hz].
    destruct (Hbody i qs ltac:(lia)) as (q & Hq & ->).
    eexists. split; [done|]. split; [by rewrite length_insert|].
    intros j p Hj Hp.
    destruct (decide (j = Z.to_nat i)) as [->|Hne].
    + rewrite list_lookup_insert_eq in Hp by lia. congruence.
    + rewrite list_lookup_insert_ne in Hp by done. apply (Hz j); [lia|done].
  - exists ps'. split_and!; [done..|].
    apply list_eq. intros j. rewrite list_lookup_fmap.
    destruct (ps' !! j) as [p|] eqn:Hp; simpl.
    + apply lookup_lt_Some in Hp as Hj.
      rewrite lookup_replicate_2 by lia.
      by rewrite (Hz j p) by (done || lia).
    + apply lookup_ge_None in Hp. symmetry. apply lookup_replicate_None. lia.
Qed.

End Accumulation.

(** ** The partitioned kernels *)

Section PartitionedKernel.

Context {Slot : Type} (value : Slot → Z).
Variables N T : Z.
Hypothesis HN : 0 ≤ N < ULONG_MODULUS.
Hypothesis HT : 1 ≤ T ≤ INT_MAX.

Lemma adds_store tid x idx (st : region Slot) p q :
  0 ≤ tid → slots st !! Z.to_nat tid = Some p →
  wrap (value q) = wrap (value p + x) →
  adds value tid x [idx] st
    {| slots := <[Z.to_nat tid := q]> (slots st);
       reads := reads st ++ [idx] |}.
Proof.
  intros Htid Hp Hq. split; [|done]. unfold residues. simpl.
  rewrite list_fmap_insert, Hq. apply list_eq. intros j.
  assert (Z.to_nat tid < length ((fun p => wrap (value p)) <$> slots st))%nat
    by (rewrite length_fmap; by eapply lookup_lt_Some).
  destruct (decide (Z.to_nat tid = j)) as [<-|Hne].
  - rewrite list_lookup_insert_eq, list_lookup_alter_eq by done.
    rewrite list_lookup_fmap, Hp. simpl. by rewrite wrap_add_l.
  - by rewrite list_lookup_insert_ne, list_lookup_alter_ne by done.
Qed.

Lemma adds_skip tid idx (st : region Slot) :
  adds value tid 0 [idx] st
    {| slots := slots st; reads := reads st ++ [idx] |}.
Proof. split; [|done]. symmetry. apply (alter_wrap_0 value st). Qed.

Lemma fmap_bind_comm {A B C} (f : A → list B) (g : B → C) (l : list A) :
  g <$> (l ≫= f) = l ≫= (fun x => g <$> f x).
Proof.
  induction l as [|x l IH]; [done|]. cbn. rewrite fmap_app. f_equal. apply IH.
Qed.

Theorem partitioned_kernel_spec K zero body (c h : Z → Z) ps :
  0 ≤ K ≤ T →
  (∀ ps, length ps = Z.to_nat T →
         ∃ ps', zero T ps = Done ps' ∧ length ps' = Z.to_nat T
                ∧ (fun p => wrap (value p)) <$> ps' = replicate (Z.to_nat T) 0) →
  (∀ tid i st, 0 ≤ tid < T → 0 ≤ i < N → length (slots st) = Z.to_nat T →
               ∃ st', body tid i st = Done st'
                      ∧ adds value tid (c (h i)) [h i] st st') →
  length ps = Z.to_nat T →
  partitioned_kernel value zero body N T K ps
  = Done {| total := wrap (Zsum ((fun i => c (h i))
                                  <$> seqZ 0 (covered N T K)));
            visited := h <$> seqZ 0 (covered N T K) |}.
Proof.
  intros HK Hzero Hbody Hlen. unfold partitioned_kernel.
  destruct (Hzero ps Hlen) as (ps0 & -> & Hlen0 & Hres0). cbn.
  set (vis := fun t => seqZ (partition_rule N T t).1
                 ((partition_rule N T t).2 - (partition_rule N T t).1)).
  destruct (parallel_adds_team value (Z.to_nat T) K
              (fun t => Zsum ((fun i => c (h i)) <$> vis t))
              (fun t => h <$> vis t)
              (fun tid st =>
                 '(start, end_) ← chunk_bounds N T tid;
                 for_range start end_ (body tid) st)
              {| slots := ps0; reads := [] |})
    as (st & -> & Hres & Hvis); [lia|lia| |done|done|done|].
  - intros tid st Htid Hl.
    rewrite (chunk_bounds_rule N T HN HT tid) by lia. cbn. unfold vis.
    pose proof (partition_rule_bounds N T HN HT tid ltac:(lia)) as [? ?].
    destruct (partition_rule N T tid) as [start end_].
    unfold for_range. simpl in *.
    apply (iterate_adds value (Z.to_nat T)); [|done].
    intros i st1 [? ?]%elem_of_seqZ Hl1. apply Hbody; [lia|lia|done].
  - cbn.
    assert (length (slots st) = Z.to_nat T) as Hl.
    { apply (f_equal length) in Hres. unfold residues in Hres.
      rewrite length_app, !length_fmap, length_seqZ, length_replicate in Hres.
      lia. }
    rewrite (reduce_residues value T (slots st)) by (lia || done). cbn.
    do 2 f_equal.
    + fold (residues value st). rewrite Hres, Zsum_app, Zsum_replicate_0.
      rewrite Z.add_0_r.
      rewrite (wrap_Zsum_wrap (fun t => Zsum ((fun i => c (h i)) <$> vis t))).
      rewrite <- (Zsum_bind (fun t => (fun i => c (h i)) <$> vis t)).
      rewrite <- fmap_bind_comm.
      unfold vis. by rewrite (partition_rule_prefix N T HN HT K HK).
    + rewrite Hvis, <- fmap_bind_comm.
      unfold vis. by rewrite (partition_rule_prefix N T HN HT K HK).
Qed.

End PartitionedKernel.

(** ** The kernels of the sum programs (files 28 and 29) *)

Section SumKernels.

Import ArraySum.

Variables (malloc_ok : Z → bool) (junk : Z).
Variables N T : Z.
Hypothesis HN : 0 ≤ N < ULONG_MODULUS.
Hypothesis HT : 1 ≤ T ≤ INT_MAX.

Lemma fmap_elem_seqZ (l : list Z) :
  elem l <$> seqZ 0 (Z.of_nat (length l)) = l.
Proof.
  apply list_eq. intros i. rewrite list_lookup_fmap.
  destruct (l !! i) as [x|] eqn:Hx.
  - apply lookup_lt_Some in Hx as Hi.
    rewrite lookup_seqZ_lt by lia. simpl. f_equal. unfold elem.
    replace (Z.to_nat (0 + Z.of_nat i)) with i by lia.
    by apply list_lookup_total_correct.
  - apply lookup_ge_None in Hx. by rewrite lookup_seqZ_ge by lia.
Qed.

Lemma load_elem (array : list Z) idx :
  0 ≤ idx < Z.of_nat (length array) → load array idx = Done (elem array idx).
Proof.
  intros Hi. destruct (load_lt array idx Hi) as (x & Hx & ->).
  unfold elem. by rewrite (list_lookup_total_correct _ _ _ Hx).
Qed.

Lemma zero_padded_spec (ps : list PaddedSum) :
  length ps = Z.to_nat T →
  ∃ ps', zero_padded T ps = Done ps' ∧ length ps' = Z.to_nat T
         ∧ (fun p => wrap (sum p)) <$> ps' = replicate (Z.to_nat T) 0.
Proof.
  intros Hlen. apply (zero_slots sum); [lia| |done].
  intros i qs Hi. destruct (load_lt qs i Hi) as (p & Hp & ->).
  exists {| sum := 0; padding := padding p |}. split; [done|].
  cbn. by rewrite store_Done.
Qed.

Lemma zero_packed_spec (ps : list Z) :
  length ps = Z.to_nat T →
  ∃ ps', for_range 0 T (fun i ps => store ps i 0) ps = Done ps'
         ∧ length ps' = Z.to_nat T
         ∧ (fun p => wrap (id p)) <$> ps' = replicate (Z.to_nat T) 0.
Proof.
  intros Hlen. apply (zero_slots id); [lia| |done].
  intros i qs Hi. exists 0. split; [done|]. by rewrite store_Done.
Qed.

Lemma add_padded_adds array tid idx (st : region PaddedSum) :
  0 ≤ tid < T → length (slots st) = Z.to_nat T →
  0 ≤ idx < Z.of_nat (length array) →
  ∃ st', add_padded array tid idx st = Done st'
         ∧ adds sum tid (elem array idx) [idx] st st'.
Proof.
  intros Htid Hlen Hidx. unfold add_padded.
  rewrite (load_elem array idx) by done. cbn.
  destruct (load_lt (slots st) tid ltac:(lia)) as (p & Hp & ->). cbn.
  rewrite store_Done by lia. cbn.
  eexists. split; [done|]. eapply adds_store; [lia|done|].
  simpl. by rewrite wrap_wrap.
Qed.

Lemma add_packed_adds array tid idx (st : region Z) :
  0 ≤ tid < T → length (slots st) = Z.to_nat T →
  0 ≤ idx < Z.of_nat (length array) →
  ∃ st', add_packed array tid idx st = Done st'
         ∧ adds id tid (elem array idx) [idx] st st'.
Proof.
  intros Htid Hlen Hidx. unfold add_packed.
  rewrite (load_elem array idx) by done. cbn.
  destruct (load_lt (slots st) tid ltac:(lia)) as (p & Hp & ->). cbn.
  rewrite store_Done by lia. cbn.
  eexists. split; [done|]. eapply adds_store; [lia|done|].
  unfold id. by rewrite wrap_wrap.
Qed.

(** The first [c] elements of an array, read by index. *)
Lemma fmap_elem_seqZ_take (l : list Z) c :
  0 ≤ c ≤ Z.of_nat (length l) →
  elem l <$> seqZ 0 c = take (Z.to_nat c) l.
Proof.
  intros Hc.
  rewrite <- (fmap_elem_seqZ (take (Z.to_nat c) l)), length_take.
  replace (Z.of_nat (Z.to_nat c `min` length l)) with c by lia.
  apply fmap_ext_in. intros i [? ?]%elem_of_seqZ. unfold elem.
  symmetry. apply lookup_total_take_lt. lia.
Qed.

Lemma take_covered_full {A} (l : list A) :
  Z.of_nat (length l) = N → take (Z.to_nat (covered N T T)) l = l.
Proof. intros Hl. rewrite covered_full. apply take_ge. lia. Qed.

(** *** With a team of [K] threads out of the [T] asked for *)

Lemma sum_good_run_team K array ps :
  0 ≤ K ≤ T →
  Z.of_nat (length array) = N → length ps = Z.to_nat T →
  sum_good_run K array N T ps
  = Done {| total := wrap (Zsum (take (Z.to_nat (covered N T K)) array));
            visited := seqZ 0 (covered N T K) |}.
Proof.
  intros HK Ha Hps.
  pose proof (covered_bounds N T HN HT K HK) as Hc.
  change (sum_good_run K array N T ps)
    with (partitioned_kernel sum zero_padded (add_padded array) N T K ps).
  rewrite (partitioned_kernel_spec sum N T HN HT K _ _ (elem array) id);
    [|done|apply zero_padded_spec| |done].
  - rewrite list_fmap_id.
    change (fun i => elem array (id i)) with (elem array).
    by rewrite fmap_elem_seqZ_take by lia.
  - intros tid i st ? ? ?. apply add_padded_adds; [done..|unfold id; lia].
Qed.

Lemma sum_bad_fs_run_team K array ps :
  0 ≤ K ≤ T →
  Z.of_nat (length array) = N → length ps = Z.to_nat T →
  sum_bad_fs_run K array N T ps
  = Done {| total := wrap (Zsum (take (Z.to_nat (covered N T K)) array));
            visited := seqZ 0 (covered N T K) |}.
Proof.
  intros HK Ha Hps.
  pose proof (covered_bounds N T HN HT K HK) as Hc.
  change (sum_bad_fs_run K array N T ps)
    with (partitioned_kernel id
            (fun T ps => for_range 0 T (fun i ps => store ps i 0) ps)
            (add_packed array) N T K ps).
  rewrite (partitioned_kernel_spec id N T HN HT K _ _ (elem array) id);
    [|done|apply zero_packed_spec| |done].
  - rewrite list_fmap_id.
    change (fun i => elem array (id i)) with (elem array).
    by rewrite fmap_elem_seqZ_take by lia.
  - intros tid i st ? ? ?. apply add_packed_adds; [done..|unfold id; lia].
Qed.

Lemma sum_bad_ma_shuffled_run_team K array shuffled ps :
  0 ≤ K ≤ T →
  Z.of_nat (length array) = N → length ps = Z.to_nat T →
  shuffled ≡ₚ seqZ 0 N →
  sum_bad_ma_shuffled_run K array N T shuffled ps
  = Done {| total := wrap (Zsum (elem array
                                  <$> take (Z.to_nat (covered N T K)) shuffled));
            visited := take (Z.to_nat (covered N T K)) shuffled |}.
Proof.
  intros HK Ha Hps Hperm.
  pose proof (covered_bounds N T HN HT K HK) as Hc.
  assert (Z.of_nat (length shuffled) = N) as Hls.
  { rewrite Hperm, length_seqZ. lia. }
  change (sum_bad_ma_shuffled_run K array N T shuffled ps)
    with (partitioned_kernel sum zero_padded
            (fun tid i st => idx ← load shuffled i; add_padded array tid idx st)
            N T K ps).
  rewrite (partitioned_kernel_spec sum N T HN HT K _ _
             (elem array) (elem shuffled));
    [|done|apply zero_padded_spec| |done].
  - change (fun i => elem array (elem shuffled i))
      with (elem array ∘ elem shuffled).
    by rewrite list_fmap_compose, fmap_elem_seqZ_take by lia.
  - intros tid i st ? ? ?. rewrite load_elem by lia. cbn.
    apply add_padded_adds; [done..|].
    assert (∀ x, x ∈ shuffled → 0 ≤ x < N) as Hrange.
    { intros x Hx. rewrite Hperm in Hx. apply elem_of_seqZ in Hx. lia. }
    rewrite Ha. apply Hrange.
    unfold elem. apply list_elem_of_lookup_total_2. lia.
Qed.

(** *** With the team asked for *)

Lemma sum_good_run_spec array ps :
  Z.of_nat (length array) = N → length ps = Z.to_nat T →
  sum_good_run T array N T ps
  = Done {| total := wrap (Zsum array); visited := seqZ 0 N |}.
Proof.
  intros Ha Hps. rewrite sum_good_run_team by (done || lia).
  by rewrite take_covered_full, covered_full.
Qed.

Lemma sum_bad_fs_run_spec array ps :
  Z.of_nat (length array) = N → length ps = Z.to_nat T →
  sum_bad_fs_run T array N T ps
  = Done {| total := wrap (Zsum array); visited := seqZ 0 N |}.
Proof.
  intros Ha Hps. rewrite sum_bad_fs_run_team by (done || lia).
  by rewrite take_covered_full, covered_full.
Qed.

Lemma sum_bad_ma_shuffled_run_spec array shuffled ps :
  Z.of_nat (length array) = N → length ps = Z.to_nat T →
  shuffled ≡ₚ seqZ 0 N →
  sum_bad_ma_shuffled_run T array N T shuffled ps
  = Done {| total := wrap (Zsum array); visited := shuffled |}.
Proof.
  intros Ha Hps Hperm.
  assert (Z.of_nat (length shuffled) = N) as Hls.
  { rewrite Hperm, length_seqZ. lia. }
  rewrite sum_bad_ma_shuffled_run_team by (done || lia).
  rewrite take_covered_full by done. do 2 f_equal.
  by rewrite Hperm, <- Ha, (fmap_elem_seqZ array).
Qed.

End SumKernels.

(** ** Strided loops *)

Section Strided.

Lemma strided_nil lo hi step : 0 < step → hi ≤ lo → strided lo hi step = [].
Proof.
  intros Hs Hle. unfold strided. rewrite seqZ_nil; [done|].
  assert ((hi - lo + step - 1) / step < 1); [|lia].
  apply Z.div_lt_upper_bound; lia.
Qed.

Lemma strided_cons lo hi step :
  0 < step → lo < hi →
  strided lo hi step = lo :: strided (lo + step) hi step.
Proof.
  intros Hs Hlt. unfold strided.
  assert (1 ≤ (hi - lo + step - 1) / step)
    by (apply Z.div_le_lower_bound; lia).
  rewrite seqZ_cons by lia. cbn. f_equal; [lia|].
  replace ((hi - (lo + step) + step - 1) / step)
    with (Z.pred ((hi - lo + step - 1) / step)).
  - rewrite <- (fmap_add_seqZ 1 0), <- list_fmap_compose.
    apply list_fmap_ext. intros _ k _. simpl. lia.
  - replace (hi - (lo + step) + step - 1) with (hi - lo + step - 1 + (-1) * step) by lia.
    rewrite Z.div_add by lia. lia.
Qed.

Lemma elem_of_strided lo hi step x :
  0 < step →
  x ∈ strided lo hi step ↔ ∃ k, 0 ≤ k ∧ x = lo + k * step ∧ x < hi.
Proof.
  intros Hs. unfold strided. rewrite list_elem_of_fmap.
  setoid_rewrite elem_of_seqZ.
  pose proof (Z.div_mod (hi - lo + step - 1) step ltac:(lia)).
  pose proof (Z.mod_pos_bound (hi - lo + step - 1) step ltac:(lia)).
  split.
  - intros (k & -> & Hk). exists k. split; [lia|]. split; [done|]. nia.
  - intros (k & Hk & -> & Hlt). exists k. split; [done|]. nia.
Qed.

Lemma NoDup_strided lo hi step : 0 < step → NoDup (strided lo hi step).
Proof.
  intros Hs. unfold strided.
  apply NoDup_fmap_2_strong; [|apply NoDup_seqZ].
  intros k1 k2 _ _ Heq. nia.
Qed.

(** With fuel for every value below [hi] and no wrap, the loop takes
    the values [strided lo hi step]. *)
Lemma for_stride_iterate {S} (body : Z → S → outcome S) hi step :
  0 < step → hi + step ≤ ULONG_MODULUS →
  ∀ (fuel : nat) lo s,
    0 ≤ lo → hi - lo ≤ Z.of_nat fuel →
    for_stride fuel hi step body lo s = iterate body (strided lo hi step) s.
Proof.
  intros Hs Hw. induction fuel as [|fuel IH]; intros lo s Hlo Hf.
  - rewrite strided_nil by lia. simpl.
    destruct (Z.ltb_spec lo hi); [lia|done].
  - simpl. destruct (Z.ltb_spec lo hi).
    + rewrite strided_cons by done. cbn.
      destruct (body lo s) as [s'|f]; cbn; [|done].
      rewrite wrap_small by lia. apply IH; lia.
    + by rewrite strided_nil by lia.
Qed.

(** The workers of an interleaved loop [i = tid, tid + T, ..] share
    out [0, N). *)
Lemma interleaved_cover N T :
  0 ≤ N → 0 < T →
  seqZ 0 T ≫= (fun t => strided t N T) ≡ₚ seqZ 0 N.
Proof.
  intros HN HT. apply NoDup_Permutation.
  - apply NoDup_bind; [| |apply NoDup_seqZ].
    + intros t1 t2 y [? ?]%elem_of_seqZ [? ?]%elem_of_seqZ
        (k1 & ? & -> & ?)%elem_of_strided (k2 & ? & Heq & ?)%elem_of_strided;
        [|done..].
      destruct (Z.lt_trichotomy k1 k2) as [?|[?|?]]; nia.
    + intros t _. by apply NoDup_strided.
  - apply NoDup_seqZ.
  - intros x. rewrite list_elem_of_bind, elem_of_seqZ. split.
    + intros (t & (k & ? & -> & ?)%elem_of_strided & [? ?]%elem_of_seqZ);
        [|done]. nia.
    + intros Hx. exists (x mod T).
      pose proof (Z.mod_pos_bound x T HT).
      split; [|apply elem_of_seqZ; lia].
      apply elem_of_strided; [done|]. exists (x / T).
      pose proof (Z.div_mod x T ltac:(lia)).
      assert (0 ≤ x / T) by (apply Z.div_pos; lia).
      split; [done|]. split; lia.
Qed.

(** Multiplication by a unit modulo [N] permutes the residues. *)
Lemma coprime_stride_permutes N stride :
  0 < N → Z.gcd stride N = 1 →
  (fun i => (i * stride) mod N) <$> seqZ 0 N ≡ₚ seqZ 0 N.
Proof.
  intros HN Hg. apply submseteq_length_Permutation.
  - apply NoDup_submseteq.
    + apply NoDup_fmap_2_strong; [|apply NoDup_seqZ].
      intros i j [? ?]%elem_of_seqZ [? ?]%elem_of_seqZ Heq.
      assert ((N | (i - j) * stride)) as Hdiv.
      { apply Z.mod_divide; [lia|].
        rewrite Z.mul_sub_distr_r, Zminus_mod, Heq, Z.sub_diag. done. }
      rewrite Z.mul_comm in Hdiv.
      apply Z.gauss in Hdiv as [c Hc]; [|by rewrite Z.gcd_comm].
      destruct (Z.lt_trichotomy c 0) as [?|[?|?]]; nia.
    + intros x (i & -> & _)%list_elem_of_fmap. apply elem_of_seqZ.
      pose proof (Z.mod_pos_bound (i * stride) N HN). lia.
  - by rewrite length_fmap.
Qed.

End Strided.

(** ** The strided kernel of file 28 *)

Section StridedKernel.

Import ArraySum.

Variables N T : Z.
Hypothesis HN : 1 ≤ N < ULONG_MODULUS.
Hypothesis HT : 1 ≤ T ≤ INT_MAX.
Hypothesis Hwrap : N + T ≤ ULONG_MODULUS.

Lemma sum_bad_ma_strided_run_spec (fuel : nat) array stride ps :
  N ≤ Z.of_nat fuel →
  Z.of_nat (length array) = N → length ps = Z.to_nat T →
  sum_bad_ma_strided_run T fuel array N T stride ps
  = Done {| total := wrap (Zsum ((fun i => elem array (strided_index N stride i))
                                   <$> seqZ 0 N));
            visited := seqZ 0 T ≫= (fun t => strided_index N stride
                                               <$> strided t N T) |}.
Proof.
  intros Hfuel Ha Hps. unfold sum_bad_ma_strided_run.
  destruct (zero_padded_spec T HT ps Hps) as (ps0 & -> & Hlen0 & Hres0). cbn.
  set (h := strided_index N stride).
  destruct (parallel_adds sum T
              (fun t => Zsum ((fun i => elem array (h i)) <$> strided t N T))
              (fun t => h <$> strided t N T)
              (fun tid st =>
                 for_stride fuel N T
                   (fun i st => idx ← umod (wrap (i * stride)) N;
                                add_padded array tid idx st)
                   (wrap tid) st)
              {| slots := ps0; reads := [] |})
    as (st & -> & Hres & Hvis); [lia| |done|done|done|].
  - intros tid st Htid Hl.
    assert (INT_MAX < ULONG_MODULUS) by done.
    rewrite (wrap_small tid) by lia.
    rewrite for_stride_iterate by lia.
    apply (iterate_adds sum (Z.to_nat T)); [|done].
    intros i st1 _ Hl1. unfold umod.
    destruct (Z.eqb_spec N 0); [lia|]. cbn.
    apply (add_padded_adds T); [done..|].
    rewrite Ha. apply Z.mod_pos_bound. lia.
  - cbn.
    assert (length (slots st) = Z.to_nat T) as Hl.
    { apply (f_equal length) in Hres. unfold residues in Hres.
      by rewrite !length_fmap, length_seqZ in Hres. }
    unfold reduce_padded.
    rewrite (reduce_residues sum T (slots st)) by (lia || done). cbn.
    do 2 f_equal; [|done].
    fold (residues sum st). rewrite Hres.
    rewrite (wrap_Zsum_wrap
               (fun t => Zsum ((fun i => elem array (h i)) <$> strided t N T))).
    rewrite <- (Zsum_bind (fun t => (fun i => elem array (h i)) <$> strided t N T)).
    rewrite <- (fmap_bind_comm (fun t => strided t N T)).
    by rewrite (interleaved_cover N T) by lia.
Qed.

Lemma strided_visits_perm stride :
  seqZ 0 T ≫= (fun t => strided_index N stride <$> strided t N T)
  ≡ₚ strided_index N stride <$> seqZ 0 N.
Proof.
  rewrite <- (fmap_bind_comm (fun t => strided t N T)).
  by rewrite (interleaved_cover N T) by lia.
Qed.

(** A stride coprime with [N] whose products do not wrap visits every
    index once. *)
Lemma strided_index_perm stride :
  0 ≤ stride → (N - 1) * stride < ULONG_MODULUS → Z.gcd stride N = 1 →
  strided_index N stride <$> seqZ 0 N ≡ₚ seqZ 0 N.
Proof.
  clear HT Hwrap. intros Hs Hp Hg.
  rewrite (fmap_ext_in _ (fun i => (i * stride) mod N)).
  - apply coprime_stride_permutes; [lia|done].
  - intros i [? ?]%elem_of_seqZ. unfold strided_index.
    rewrite wrap_small; [done|]. nia.
Qed.

Lemma gcd_loop_spec (fuel : nat) :
  ∀ a b, 0 ≤ a → 0 ≤ b → b ≤ Z.of_nat fuel →
         gcd_loop fuel a b = Done (Z.gcd a b).
Proof.
  induction fuel as [|fuel IH]; intros a b Ha Hb Hf.
  - assert (b = 0) as -> by lia. simpl.
    rewrite Z.gcd_0_r. f_equal. lia.
  - simpl. destruct (Z.eqb_spec b 0) as [->|Hne].
    + rewrite Z.gcd_0_r. f_equal. lia.
    + unfold umod. destruct (Z.eqb_spec b 0); [done|]. cbn.
      pose proof (Z.mod_pos_bound a b ltac:(lia)).
      rewrite IH by lia.
      f_equal. rewrite Z.gcd_comm, Z.gcd_mod by lia. apply Z.gcd_comm.
Qed.

End StridedKernel.

(** ** The input of the sum programs *)

Section LoadArray.

Lemma load_array_spec (array : list Z) N :
  0 ≤ N < ULONG_MODULUS → Z.of_nat (length array) = N →
  load_array array N = Done ((fun i => i + 1) <$> seqZ 0 N).
Proof.
  intros HN Hlen. unfold load_array.
  destruct (for_range_inv
    (fun i a => length a = length array
                ∧ take (Z.to_nat i) a = (fun i => i + 1) <$> seqZ 0 i)
    0 N (fun i array => store array i (wrap (i + 1))) array)
    as (a & -> & Hl & Ht); [lia|done| |].
  - intros i a Hi [Hl Ht]. rewrite store_Done by lia.
    eexists. split; [done|]. split; [by rewrite length_insert|].
    replace (Z.to_nat (i + 1)) with (Datatypes.S (Z.to_nat i)) by lia.
    rewrite (take_S_r _ _ (wrap (i + 1)))
      by (apply list_lookup_insert_eq; lia).
    rewrite take_insert_ge, Ht by lia.
    rewrite (seqZ_app 0 i 1), fmap_app by lia. cbn.
    rewrite wrap_small by lia. done.
  - f_equal. rewrite <- Ht. rewrite take_ge; [done|]. lia.
Qed.

Lemma Zsum_triangle (n : nat) :
  2 * Zsum ((fun i => i + 1) <$> seqZ 0 (Z.of_nat n))
  = Z.of_nat n * (Z.of_nat n + 1).
Proof.
  induction n as [|n IH]; [done|].
  rewrite seqZ_S, fmap_app, Zsum_app. simpl. lia.
Qed.

Lemma Zsum_sequential N :
  0 ≤ N → Zsum ((fun i => i + 1) <$> seqZ 0 N) = N * (N + 1) / 2.
Proof.
  intros HN. pose proof (Zsum_triangle (Z.to_nat N)) as H.
  rewrite Z2Nat.id in H by lia.
  rewrite <- H, Z.mul_comm, Z.div_mul by lia. done.
Qed.

End LoadArray.

(** ** The kernels of the comparison program (file 31) *)

Section CompareKernels.

Import MatrixCompare.

Variables N T : Z.
Hypothesis HN : 0 ≤ N < ULONG_MODULUS.
Hypothesis HT : 1 ≤ T ≤ INT_MAX.

Lemma zero_padded_diff_spec (ps : list PaddedDiff) :
  length ps = Z.to_nat T →
  ∃ ps', zero_padded T ps = Done ps' ∧ length ps' = Z.to_nat T
         ∧ (fun p => wrap (diff_count p)) <$> ps' = replicate (Z.to_nat T) 0.
Proof.
  intros Hlen. apply (zero_slots diff_count); [lia| |done].
  intros i qs Hi. destruct (load_lt qs i Hi) as (p & Hp & ->).
  exists {| diff_count := 0; padding := padding p |}. split; [done|].
  cbn. by rewrite store_Done.
Qed.

Lemma count_padded_adds A B tid idx (st : region PaddedDiff) :
  0 ≤ tid < T → length (slots st) = Z.to_nat T →
  0 ≤ idx < Z.of_nat (length A) → 0 ≤ idx < Z.of_nat (length B) →
  ∃ st', count_padded A B tid idx st = Done st'
         ∧ adds diff_count tid (mismatch A B idx) [idx] st st'.
Proof.
  intros Htid Hlen HA HB. unfold count_padded, mismatch.
  rewrite (load_elem A idx), (load_elem B idx) by done. cbn.
  destruct (elem A idx =? elem B idx).
  - eexists. split; [done|]. apply adds_skip.
  - destruct (load_lt (slots st) tid ltac:(lia)) as (p & Hp & ->). cbn.
    rewrite store_Done by lia. cbn.
    eexists. split; [done|]. eapply adds_store; [lia|done|].
    simpl. by rewrite wrap_wrap.
Qed.

Lemma count_packed_adds A B tid idx (st : region Z) :
  0 ≤ tid < T → length (slots st) = Z.to_nat T →
  0 ≤ idx < Z.of_nat (length A) → 0 ≤ idx < Z.of_nat (length B) →
  ∃ st', count_packed A B tid idx st = Done st'
         ∧ adds id tid (mismatch A B idx) [idx] st st'.
Proof.
  intros Htid Hlen HA HB. unfold count_packed, mismatch.
  rewrite (load_elem A idx), (load_elem B idx) by done. cbn.
  destruct (elem A idx =? elem B idx).
  - eexists. split; [done|]. apply adds_skip.
  - destruct (load_lt (slots st) tid ltac:(lia)) as (p & Hp & ->). cbn.
    rewrite store_Done by lia. cbn.
    eexists. split; [done|]. eapply adds_store; [lia|done|].
    unfold id. by rewrite wrap_wrap.
Qed.

(** *** With a team of [K] threads out of the [T] asked for *)

Lemma compare_good_run_team K A B ps :
  0 ≤ K ≤ T →
  Z.of_nat (length A) = N → Z.of_nat (length B) = N →
  length ps = Z.to_nat T →
  compare_good_run K A B N T ps
  = Done {| total := wrap (Zsum (mismatch A B <$> seqZ 0 (covered N T K)));
            visited := seqZ 0 (covered N T K) |}.
Proof.
  intros HK HA HB Hps.
  change (compare_good_run K A B N T ps)
    with (partitioned_kernel diff_count zero_padded (count_padded A B) N T K ps).
  rewrite (partitioned_kernel_spec diff_count N T HN HT K _ _ (mismatch A B) id);
    [|done|apply zero_padded_diff_spec| |done].
  - by rewrite list_fmap_id.
  - intros tid i st ? ? ?. apply count_padded_adds; [done..| |]; unfold id; lia.
Qed.

Lemma compare_bad_fs_run_team K A B ps :
  0 ≤ K ≤ T →
  Z.of_nat (length A) = N → Z.of_nat (length B) = N →
  length ps = Z.to_nat T →
  compare_bad_fs_run K A B N T ps
  = Done {| total := wrap (Zsum (mismatch A B <$> seqZ 0 (covered N T K)));
            visited := seqZ 0 (covered N T K) |}.
Proof.
  intros HK HA HB Hps.
  change (compare_bad_fs_run K A B N T ps)
    with (partitioned_kernel id
            (fun T ps => for_range 0 T (fun i ps => store ps i 0) ps)
            (count_packed A B) N T K ps).
  rewrite (partitioned_kernel_spec id N T HN HT K _ _ (mismatch A B) id);
    [|done|apply (zero_packed_spec T HT)| |done].
  - by rewrite list_fmap_id.
  - intros tid i st ? ? ?. apply count_packed_adds; [done..| |]; unfold id; lia.
Qed.

Lemma compare_bad_ma_run_team K A B shuffled ps :
  0 ≤ K ≤ T →
  Z.of_nat (length A) = N → Z.of_nat (length B) = N →
  length ps = Z.to_nat T →
  shuffled ≡ₚ seqZ 0 N →
  compare_bad_ma_run K A B N T shuffled ps
  = Done {| total := wrap (Zsum (mismatch A B
                                  <$> take (Z.to_nat (covered N T K)) shuffled));
            visited := take (Z.to_nat (covered N T K)) shuffled |}.
Proof.
  intros HK HA HB Hps Hperm.
  pose proof (covered_bounds N T HN HT K HK) as Hc.
  assert (Z.of_nat (length shuffled) = N) as Hls.
  { rewrite Hperm, length_seqZ. lia. }
  change (compare_bad_ma_run K A B N T shuffled ps)
    with (partitioned_kernel diff_count zero_padded
            (fun tid i st => idx ← load shuffled i; count_padded A B tid idx st)
            N T K ps).
  rewrite (partitioned_kernel_spec diff_count N T HN HT K _ _
             (mismatch A B) (elem shuffled));
    [|done|apply zero_padded_diff_spec| |done].
  - change (fun i => mismatch A B (elem shuffled i))
      with (mismatch A B ∘ elem shuffled).
    by rewrite list_fmap_compose, fmap_elem_seqZ_take by lia.
  - intros tid i st ? ? ?. rewrite load_elem by lia. cbn.
    assert (∀ x, x ∈ shuffled → 0 ≤ x < N) as Hrange.
    { intros x Hx. rewrite Hperm in Hx. apply elem_of_seqZ in Hx. lia. }
    assert (0 ≤ elem shuffled i < N).
    { apply Hrange. unfold elem. apply list_elem_of_lookup_total_2. lia. }
    apply count_padded_adds; [done..| |]; lia.
Qed.

(** *** With the team asked for *)

Lemma compare_good_run_spec A B ps :
  Z.of_nat (length A) = N → Z.of_nat (length B) = N →
  length ps = Z.to_nat T →
  compare_good_run T A B N T ps
  = Done {| total := wrap (Zsum (mismatch A B <$> seqZ 0 N));
            visited := seqZ 0 N |}.
Proof.
  intros HA HB Hps. rewrite compare_good_run_team by (done || lia).
  by rewrite (covered_full N T).
Qed.

Lemma compare_bad_fs_run_spec A B ps :
  Z.of_nat (length A) = N → Z.of_nat (length B) = N →
  length ps = Z.to_nat T →
  compare_bad_fs_run T A B N T ps
  = Done {| total := wrap (Zsum (mismatch A B <$> seqZ 0 N));
            visited := seqZ 0 N |}.
Proof.
  intros HA HB Hps. rewrite compare_bad_fs_run_team by (done || lia).
  by rewrite (covered_full N T).
Qed.

Lemma compare_bad_ma_run_spec A B shuffled ps :
  Z.of_nat (length A) = N → Z.of_nat (length B) = N →
  length ps = Z.to_nat T →
  shuffled ≡ₚ seqZ 0 N →
  compare_bad_ma_run T A B N T shuffled ps
  = Done {| total := wrap (Zsum (mismatch A B <$> seqZ 0 N));
            visited := shuffled |}.
Proof.
  intros HA HB Hps Hperm.
  assert (Z.of_nat (length shuffled) = N) as Hls.
  { rewrite Hperm, length_seqZ. lia. }
  rewrite compare_bad_ma_run_team by (done || lia).
  rewrite (take_covered_full N T) by done. do 2 f_equal.
  by rewrite Hperm.
Qed.

End CompareKernels.

(** ** The input of the comparison program *)

Section InitializeMatrices.

Import MatrixCompare.

Variable N : Z.
Hypothesis HN : 0 ≤ N.
Hypothesis Hwrap : N + 1000 ≤ ULONG_MODULUS.

Lemma initialize_first_loop (A B : list Z) :
  Z.of_nat (length A) = N → Z.of_nat (length B) = N →
  for_range 0 N
    (fun i '(A, B) =>
       A ← store A i (i mod 100);
       a ← load A i;
       B ← store B i a;
       Done (A, B))
    (A, B)
  = Done (matrix_A N, matrix_A N).
Proof.
  intros HA HB.
  destruct (for_range_inv
    (fun i (AB : list Z * list Z) =>
       length AB.1 = length A ∧ length AB.2 = length B
       ∧ take (Z.to_nat i) AB.1 = matrix_A i
       ∧ take (Z.to_nat i) AB.2 = matrix_A i)
    0 N (fun i '(A, B) =>
           A ← store A i (i mod 100);
           a ← load A i;
           B ← store B i a;
           Done (A, B))
    (A, B))
    as ([A' B'] & -> & HlA & HlB & HtA & HtB); [lia|done| |].
  - intros i [A1 B1] Hi (HlA & HlB & HtA & HtB). simpl in *.
    rewrite store_Done by lia. cbn.
    rewrite (load_Done _ i (i mod 100))
      by (lia || apply list_lookup_insert_eq; lia). cbn.
    rewrite store_Done by lia. cbn.
    eexists. split; [done|]. simpl.
    rewrite !length_insert.
    replace (Z.to_nat (i + 1)) with (Datatypes.S (Z.to_nat i)) by lia.
    rewrite !(take_S_r _ _ (i mod 100))
      by (apply list_lookup_insert_eq; lia).
    rewrite !take_insert_ge, HtA, HtB by lia.
    unfold matrix_A. rewrite (seqZ_app 0 i 1), fmap_app by lia.
    done.
  - simpl in *. rewrite take_ge in HtA by lia. rewrite take_ge in HtB by lia.
    by subst.
Qed.

Lemma elem_matrix_A i : 0 ≤ i < N → matrix_A N !! Z.to_nat i = Some (i mod 100).
Proof.
  intros Hi. unfold matrix_A.
  rewrite list_lookup_fmap, lookup_seqZ_lt by lia. simpl.
  by rewrite Z2Nat.id by lia.
Qed.

Lemma initialize_second_loop (fuel : nat) :
  N ≤ Z.of_nat fuel →
  for_stride fuel N 1000
    (fun i B => a ← load (matrix_A N) i; store B i (wrap (a + 1)))
    0 (matrix_A N)
  = Done (matrix_B N).
Proof.
  intros Hfuel. rewrite for_stride_iterate by lia.
  destruct (iterate_inv
    (fun l1 (B : list Z) =>
       Z.of_nat (length B) = N
       ∧ ∀ j, 0 ≤ j < N →
              B !! Z.to_nat j
              = Some (if bool_decide (j ∈ l1) then j mod 100 + 1 else j mod 100))
    (fun i B => a ← load (matrix_A N) i; store B i (wrap (a + 1)))
    (strided 0 N 1000) (matrix_A N))
    as (B' & -> & Hl & HB).
  - split; [unfold matrix_A; rewrite length_fmap, length_seqZ; lia|].
    intros j Hj. rewrite bool_decide_eq_false_2 by apply not_elem_of_nil.
    by apply elem_matrix_A.
  - intros l1 i l2 B Heq [Hl HB].
    assert (i ∈ strided 0 N 1000) as Hin
      by (rewrite Heq, elem_of_app, elem_of_cons; auto).
    apply elem_of_strided in Hin as (k & ? & -> & ?); [|done].
    rewrite (load_Done (matrix_A N) (0 + k * 1000) ((0 + k * 1000) mod 100))
      by (lia || (apply elem_matrix_A; lia)). cbn.
    rewrite store_Done by lia.
    eexists. split; [done|]. split; [by rewrite length_insert|].
    intros j Hj.
    pose proof (Z.mod_pos_bound (0 + k * 1000) 100 ltac:(lia)).
    destruct (decide (j = 0 + k * 1000)) as [->|Hne].
    + rewrite list_lookup_insert_eq by lia.
      rewrite bool_decide_eq_true_2
        by (rewrite elem_of_app, list_elem_of_singleton; auto).
      f_equal. apply wrap_small. unfold ULONG_MODULUS. lia.
    + rewrite list_lookup_insert_ne by lia. rewrite HB by done.
      rewrite (bool_decide_ext (j ∈ l1 ++ [0 + k * 1000]) (j ∈ l1)); [done|].
      rewrite elem_of_app, list_elem_of_singleton.
      split; [intros [?|?]; [done|lia]|auto].
  - f_equal. apply list_eq. intros j.
    destruct (decide (Z.of_nat j < N)) as [Hj|Hj].
    + specialize (HB (Z.of_nat j) ltac:(lia)). rewrite Nat2Z.id in HB.
      rewrite HB. unfold matrix_B.
      rewrite list_lookup_fmap, lookup_seqZ_lt by lia. simpl. f_equal.
      rewrite Z.add_0_l.
      destruct (Z.eqb_spec (Z.of_nat j mod 1000) 0) as [Hm|Hm].
      * rewrite bool_decide_eq_true_2; [done|].
        apply elem_of_strided; [done|]. exists (Z.of_nat j / 1000).
        pose proof (Z.div_mod (Z.of_nat j) 1000 ltac:(lia)).
        assert (0 ≤ Z.of_nat j / 1000) by (apply Z.div_pos; lia).
        split; [done|]. split; lia.
      * rewrite bool_decide_eq_false_2; [done|].
        intros (k & ? & Hk & ?)%elem_of_strided; [|done].
        apply Hm. rewrite Hk, Z.add_0_l. by apply Z.mod_mul.
    + rewrite !lookup_ge_None_2; [done| |lia].
      unfold matrix_B. rewrite length_fmap, length_seqZ. lia.
Qed.

Lemma initialize_matrices_spec (fuel : nat) (A B : list Z) :
  N ≤ Z.of_nat fuel →
  Z.of_nat (length A) = N → Z.of_nat (length B) = N →
  initialize_matrices fuel A B N = Done (matrix_A N, matrix_B N).
Proof.
  intros Hfuel HA HB. unfold initialize_matrices.
  rewrite initialize_first_loop by done. cbn.
  by rewrite initialize_second_loop by done.
Qed.

Lemma length_matrix_A : Z.of_nat (length (matrix_A N)) = N.
Proof. unfold matrix_A. rewrite length_fmap, length_seqZ. lia. Qed.

Lemma length_matrix_B : Z.of_nat (length (matrix_B N)) = N.
Proof. unfold matrix_B. rewrite length_fmap, length_seqZ. lia. Qed.

Lemma elem_fmap_seqZ (f : Z → Z) i :
  0 ≤ i < N → elem (f <$> seqZ 0 N) i = f i.
Proof.
  intros Hi. unfold elem. apply list_lookup_total_correct.
  rewrite list_lookup_fmap, lookup_seqZ_lt by lia. simpl.
  do 2 f_equal. lia.
Qed.

Lemma mismatch_matrices i :
  0 ≤ i < N →
  mismatch (matrix_A N) (matrix_B N) i = if i mod 1000 =? 0 then 1 else 0.
Proof.
  intros Hi. unfold mismatch, matrix_A, matrix_B.
  rewrite !elem_fmap_seqZ by done.
  destruct (Z.eqb_spec (i mod 1000) 0).
  - destruct (Z.eqb_spec (i mod 100) (i mod 100 + 1)); [lia|done].
  - by rewrite Z.eqb_refl.
Qed.

Lemma count_multiples (n : nat) :
  Zsum ((fun i => if i mod 1000 =? 0 then 1 else 0) <$> seqZ 0 (Z.of_nat n))
  = (Z.of_nat n + 999) / 1000.
Proof.
  induction n as [|n IH]; [done|].
  rewrite seqZ_S, fmap_app, Zsum_app, IH. cbn [fmap list_fmap Zsum foldr].
  rewrite Z.add_0_l, Nat2Z.inj_succ.
  destruct (Z.eqb_spec (Z.of_nat n mod 1000) 0);
    Z.div_mod_to_equations; lia.
Qed.

Lemma mismatch_count :
  1 ≤ N →
  Zsum (mismatch (matrix_A N) (matrix_B N) <$> seqZ 0 N) = (N - 1) / 1000 + 1.
Proof.
  intros H1.
  rewrite (fmap_ext_in _ (fun i => if i mod 1000 =? 0 then 1 else 0)).
  - replace N with (Z.of_nat (Z.to_nat N)) at 1 by lia.
    rewrite count_multiples, Z2Nat.id by lia.
    Z.div_mod_to_equations; lia.
  - intros i [? ?]%elem_of_seqZ. apply mismatch_matrices. lia.
Qed.

End InitializeMatrices.

(** ** The kernels as the programs call them *)

Section KernelRuns.

Import ArraySum MatrixCompare.

Variables (malloc_ok : Z → bool) (junk : Z).
Variables N T : Z.
Hypothesis HN : 0 ≤ N < ULONG_MODULUS.
Hypothesis HT : 1 ≤ T ≤ INT_MAX.

Lemma padded_request :
  wrap (T * sizeof_PaddedSum) = T * 64
  ∧ Z.to_nat (T * 64 / sizeof_PaddedSum) = Z.to_nat T.
Proof.
  change sizeof_PaddedSum with 64. split.
  - apply wrap_small. unfold ULONG_MODULUS, INT_MAX in *. lia.
  - by rewrite Z.div_mul.
Qed.

Lemma packed_request :
  wrap (T * sizeof_unsigned_long) = T * 8
  ∧ Z.to_nat (T * 8 / sizeof_unsigned_long) = Z.to_nat T.
Proof.
  change sizeof_unsigned_long with 8. split.
  - apply wrap_small. unfold ULONG_MODULUS, INT_MAX in *. lia.
  - by rewrite Z.div_mul.
Qed.

Lemma sum_good_team K array w :
  0 ≤ K ≤ T →
  Z.of_nat (length array) = N → malloc_ok (T * 64) = true →
  sum_good malloc_ok junk K array N T w
  = (Done {| total := wrap (Zsum (take (Z.to_nat (covered N T K)) array));
             visited := seqZ 0 (covered N T K) |},
     {| mallocs := mallocs w ++ [T * 64];
        printed := printed w ++
                   [wrap (Zsum (take (Z.to_nat (covered N T K)) array))] |}).
Proof.
  intros HK Ha Hok. destruct padded_request as [Hreq Hlen].
  unfold sum_good, mbind, M_bind, bindM, malloc. rewrite Hreq, Hok.
  unfold lift. rewrite (sum_good_run_team N T HN HT K)
    by (done || by rewrite length_replicate).
  done.
Qed.

Lemma sum_good_spec array w :
  Z.of_nat (length array) = N → malloc_ok (T * 64) = true →
  sum_good malloc_ok junk T array N T w
  = (Done {| total := wrap (Zsum array);
             visited := seqZ 0 N |},
     {| mallocs := mallocs w ++ [T * 64];
        printed := printed w ++ [wrap (Zsum array)] |}).
Proof.
  intros Ha Hok. destruct padded_request as [Hreq Hlen].
  unfold sum_good, mbind, M_bind, bindM, malloc. rewrite Hreq, Hok.
  unfold lift. rewrite (sum_good_run_spec N T HN HT)
    by (done || by rewrite length_replicate).
  done.
Qed.

Lemma sum_bad_fs_team K array w :
  0 ≤ K ≤ T →
  Z.of_nat (length array) = N → malloc_ok (T * 8) = true →
  sum_bad_fs malloc_ok junk K array N T w
  = (Done {| total := wrap (Zsum (take (Z.to_nat (covered N T K)) array));
             visited := seqZ 0 (covered N T K) |},
     {| mallocs := mallocs w ++ [T * 8];
        printed := printed w ++
                   [wrap (Zsum (take (Z.to_nat (covered N T K)) array))] |}).
Proof.
  intros HK Ha Hok. destruct packed_request as [Hreq Hlen].
  unfold sum_bad_fs, mbind, M_bind, bindM, malloc. rewrite Hreq, Hok.
  unfold lift. rewrite (sum_bad_fs_run_team N T HN HT K)
    by (done || by rewrite length_replicate).
  done.
Qed.

Lemma sum_bad_fs_spec array w :
  Z.of_nat (length array) = N → malloc_ok (T * 8) = true →
  sum_bad_fs malloc_ok junk T array N T w
  = (Done {| total := wrap (Zsum array);
             visited := seqZ 0 N |},
     {| mallocs := mallocs w ++ [T * 8];
        printed := printed w ++ [wrap (Zsum array)] |}).
Proof.
  intros Ha Hok. destruct packed_request as [Hreq Hlen].
  unfold sum_bad_fs, mbind, M_bind, bindM, malloc. rewrite Hreq, Hok.
  unfold lift. rewrite (sum_bad_fs_run_spec N T HN HT)
    by (done || by rewrite length_replicate).
  done.
Qed.

Lemma sum_bad_ma_shuffled_team K array shuffled w :
  0 ≤ K ≤ T →
  Z.of_nat (length array) = N → malloc_ok (T * 64) = true →
  shuffled ≡ₚ seqZ 0 N →
  sum_bad_ma_shuffled malloc_ok junk K array N T shuffled w
  = (Done {| total := wrap (Zsum (elem array
                           <$> take (Z.to_nat (covered N T K)) shuffled));
             visited := take (Z.to_nat (covered N T K)) shuffled |},
     {| mallocs := mallocs w ++ [T * 64];
        printed := printed w ++
                   [wrap (Zsum (elem array
                         <$> take (Z.to_nat (covered N T K)) shuffled))] |}).
Proof.
  intros HK Ha Hok Hperm. destruct padded_request as [Hreq Hlen].
  unfold sum_bad_ma_shuffled, mbind, M_bind, bindM, malloc. rewrite Hreq, Hok.
  unfold lift. rewrite (sum_bad_ma_shuffled_run_team N T HN HT K)
    by (done || by rewrite length_replicate).
  done.
Qed.

Lemma sum_bad_ma_shuffled_spec array shuffled w :
  Z.of_nat (length array) = N → malloc_ok (T * 64) = true →
  shuffled ≡ₚ seqZ 0 N →
  sum_bad_ma_shuffled malloc_ok junk T array N T shuffled w
  = (Done {| total := wrap (Zsum array);
             visited := shuffled |},
     {| mallocs := mallocs w ++ [T * 64];
        printed := printed w ++ [wrap (Zsum array)] |}).
Proof.
  intros Ha Hok Hperm. destruct padded_request as [Hreq Hlen].
  unfold sum_bad_ma_shuffled, mbind, M_bind, bindM, malloc. rewrite Hreq, Hok.
  unfold lift. rewrite (sum_bad_ma_shuffled_run_spec N T HN HT)
    by (done || by rewrite length_replicate).
  done.
Qed.

Lemma sum_bad_ma_strided_spec (fuel : nat) array stride w :
  1 ≤ N → N + T ≤ ULONG_MODULUS → N ≤ Z.of_nat fuel →
  0 ≤ stride →
  Z.of_nat (length array) = N → malloc_ok (T * 64) = true →
  sum_bad_ma_strided malloc_ok junk T fuel array N T stride w
  = (Done (negb (Z.gcd stride N =? 1),
           {| total := wrap (Zsum ((fun i => elem array (strided_index N stride i))
                                     <$> seqZ 0 N));
              visited := seqZ 0 T ≫= (fun t => strided_index N stride
                                                 <$> strided t N T) |}),
     {| mallocs := mallocs w ++ [T * 64];
        printed := printed w
                   ++ [wrap (Zsum ((fun i => elem array (strided_index N stride i))
                                     <$> seqZ 0 N))] |}).
Proof.
  intros H1 Hw Hfuel Hs Ha Hok. destruct padded_request as [Hreq Hlen].
  unfold sum_bad_ma_strided, mbind, M_bind, bindM, malloc, lift.
  rewrite gcd_loop_spec by lia. rewrite Hreq, Hok.
  rewrite (sum_bad_ma_strided_run_spec N T ltac:(lia) HT Hw)
    by (done || by rewrite length_replicate).
  done.
Qed.

Lemma compare_good_team K A B w :
  0 ≤ K ≤ T →
  Z.of_nat (length A) = N → Z.of_nat (length B) = N →
  malloc_ok (T * 64) = true →
  compare_good malloc_ok junk K A B N T w
  = (Done {| total := wrap (Zsum (mismatch A B <$> seqZ 0 (covered N T K)));
             visited := seqZ 0 (covered N T K) |},
     {| mallocs := mallocs w ++ [T * 64];
        printed := printed w ++
                   [wrap (Zsum (mismatch A B <$> seqZ 0 (covered N T K)))] |}).
Proof.
  intros HK HA HB Hok. destruct padded_request as [Hreq Hlen].
  unfold compare_good, mbind, M_bind, bindM, malloc.
  change sizeof_PaddedDiff with sizeof_PaddedSum. rewrite Hreq, Hok.
  unfold lift. rewrite (compare_good_run_team N T HN HT K)
    by (done || by rewrite length_replicate).
  done.
Qed.

Lemma compare_good_spec A B w :
  Z.of_nat (length A) = N → Z.of_nat (length B) = N →
  malloc_ok (T * 64) = true →
  compare_good malloc_ok junk T A B N T w
  = (Done {| total := wrap (Zsum (mismatch A B <$> seqZ 0 N));
             visited := seqZ 0 N |},
     {| mallocs := mallocs w ++ [T * 64];
        printed := printed w ++ [wrap (Zsum (mismatch A B <$> seqZ 0 N))] |}).
Proof.
  intros HA HB Hok. destruct padded_request as [Hreq Hlen].
  unfold compare_good, mbind, M_bind, bindM, malloc.
  change sizeof_PaddedDiff with sizeof_PaddedSum. rewrite Hreq, Hok.
  unfold lift. rewrite (compare_good_run_spec N T HN HT)
    by (done || by rewrite length_replicate).
  done.
Qed.

Lemma compare_bad_fs_team K A B w :
  0 ≤ K ≤ T →
  Z.of_nat (length A) = N → Z.of_nat (length B) = N → malloc_ok (T * 8) = true →
  compare_bad_fs malloc_ok junk K A B N T w
  = (Done {| total := wrap (Zsum (mismatch A B <$> seqZ 0 (covered N T K)));
             visited := seqZ 0 (covered N T K) |},
     {| mallocs := mallocs w ++ [T * 8];
        printed := printed w ++
                   [wrap (Zsum (mismatch A B <$> seqZ 0 (covered N T K)))] |}).
Proof.
  intros HK HA HB Hok. destruct packed_request as [Hreq Hlen].
  unfold compare_bad_fs, mbind, M_bind, bindM, malloc. rewrite Hreq, Hok.
  unfold lift. rewrite (compare_bad_fs_run_team N T HN HT K)
    by (done || by rewrite length_replicate).
  done.
Qed.

Lemma compare_bad_fs_spec A B w :
  Z.of_nat (length A) = N → Z.of_nat (length B) = N → malloc_ok (T * 8) = true →
  compare_bad_fs malloc_ok junk T A B N T w
  = (Done {| total := wrap (Zsum (mismatch A B <$> seqZ 0 N));
             visited := seqZ 0 N |},
     {| mallocs := mallocs w ++ [T * 8];
        printed := printed w ++ [wrap (Zsum (mismatch A B <$> seqZ 0 N))] |}).
Proof.
  intros HA HB Hok. destruct packed_request as [Hreq Hlen].
  unfold compare_bad_fs, mbind, M_bind, bindM, malloc. rewrite Hreq, Hok.
  unfold lift. rewrite (compare_bad_fs_run_spec N T HN HT)
    by (done || by rewrite length_replicate).
  done.
Qed.

Lemma compare_bad_ma_team K A B shuffled w :
  0 ≤ K ≤ T →
  Z.of_nat (length A) = N → Z.of_nat (length B) = N →
  malloc_ok (T * 64) = true → shuffled ≡ₚ seqZ 0 N →
  compare_bad_ma malloc_ok junk K A B N T shuffled w
  = (Done {| total := wrap (Zsum (mismatch A B
                           <$> take (Z.to_nat (covered N T K)) shuffled));
             visited := take (Z.to_nat (covered N T K)) shuffled |},
     {| mallocs := mallocs w ++ [T * 64];
        printed := printed w ++
                   [wrap (Zsum (mismatch A B
                         <$> take (Z.to_nat (covered N T K)) shuffled))] |}).
Proof.
  intros HK HA HB Hok Hperm. destruct padded_request as [Hreq Hlen].
  unfold compare_bad_ma, mbind, M_bind, bindM, malloc.
  change sizeof_PaddedDiff with sizeof_PaddedSum. rewrite Hreq, Hok.
  unfold lift. rewrite (compare_bad_ma_run_team N T HN HT K)
    by (done || by rewrite length_replicate).
  done.
Qed.

Lemma compare_bad_ma_spec A B shuffled w :
  Z.of_nat (length A) = N → Z.of_nat (length B) = N →
  malloc_ok (T * 64) = true → shuffled ≡ₚ seqZ 0 N →
  compare_bad_ma malloc_ok junk T A B N T shuffled w
  = (Done {| total := wrap (Zsum (mismatch A B <$> seqZ 0 N));
             visited := shuffled |},
     {| mallocs := mallocs w ++ [T * 64];
        printed := printed w ++ [wrap (Zsum (mismatch A B <$> seqZ 0 N))] |}).
Proof.
  intros HA HB Hok Hperm. destruct padded_request as [Hreq Hlen].
  unfold compare_bad_ma, mbind, M_bind, bindM, malloc.
  change sizeof_PaddedDiff with sizeof_PaddedSum. rewrite Hreq, Hok.
  unfold lift. rewrite (compare_bad_ma_run_spec N T HN HT)
    by (done || by rewrite length_replicate).
  done.
Qed.

End KernelRuns.

(** * The properties of the specification *)

Section SumClaims.

Import ArraySum MatrixCompare.

(** C3 (partition coverage).  For [N >= 1] elements and [T >= 1]
    workers, the ranges that lines 57-59 compute are those of the
    partitioning rule (chunk [N / T], the last worker absorbs the
    remainder); they are pairwise disjoint, their union is exactly
    [0, N), and their lengths add up to [N]. *)
Theorem partition_coverage (N T : Z) :
  1 ≤ N < ULONG_MODULUS → 1 ≤ T ≤ INT_MAX →
  (∀ t, 0 ≤ t < T → chunk_bounds N T t = Done (partition_rule N T t))
  ∧ (∀ t1 t2 i, 0 ≤ t1 < T → 0 ≤ t2 < T →
                in_range (partition_rule N T t1) i →
                in_range (partition_rule N T t2) i → t1 = t2)
  ∧ (∀ i, 0 ≤ i < N ↔ ∃ t, 0 ≤ t < T ∧ in_range (partition_rule N T t) i)
  ∧ Zsum ((fun t => (partition_rule N T t).2 - (partition_rule N T t).1)
            <$> seqZ 0 T) = N.
Proof.
  intros HN HT. split_and!.
  - intros t Ht. apply chunk_bounds_rule; (lia || done).
  - intros t1 t2 i ? ? ? ?.
    apply (partition_rule_disjoint N T) with (i := i); (lia || done).
  - intros i. split.
    + intros Hi. apply partition_rule_cover; (lia || done).
    + intros (t & Ht & [? ?]).
      assert (0 ≤ (partition_rule N T t).1 ≤ (partition_rule N T t).2
              ∧ (partition_rule N T t).2 ≤ N)
        by (apply partition_rule_bounds; (lia || done)).
      lia.
  - apply partition_rule_lengths; (lia || done).
Qed.

Lemma partition_coverage_witness :
  (∀ t, 0 ≤ t < 3 → chunk_bounds 10 3 t = Done (partition_rule 10 3 t))
  ∧ (∀ t1 t2 i, 0 ≤ t1 < 3 → 0 ≤ t2 < 3 →
                in_range (partition_rule 10 3 t1) i →
                in_range (partition_rule 10 3 t2) i → t1 = t2)
  ∧ (∀ i, 0 ≤ i < 10 ↔ ∃ t, 0 ≤ t < 3 ∧ in_range (partition_rule 10 3 t) i)
  ∧ Zsum ((fun t => (partition_rule 10 3 t).2 - (partition_rule 10 3 t).1)
            <$> seqZ 0 3) = 10.
Proof. apply (partition_coverage 10 3); [split; [lia|reflexivity]|split; [lia|by vm_compute]]. Defined.

(** C1 (sum correctness), with its side conditions.
    The array is what [load_array]
    leaves in a buffer of [N >= 1] cells, [value[i] = i + 1].  For
    every thread count [T >= 1], when the region is run by the team
    asked for ([team = T]), the sum returned and printed is
    [N(N+1)/2] modulo 2^64 in the good mode, in the false-sharing mode
    and in the shuffled mode for every permutation of [0, N); in the
    strided mode it is so when the stride is coprime with [N] and no
    product [i * stride] with [i < N] wraps (as with the stride 7 of
    [main], see [strided_sum_seven]; the array is allocatable, so
    that [i += num_threads] does not wrap). *)
Theorem sum_of_sequential_array (malloc_ok : Z → bool) (junk team : Z)
    (fuel : nat) (N T stride : Z) (buffer shuffled : list Z) :
  1 ≤ N < ULONG_MODULUS → 1 ≤ T ≤ INT_MAX →
  team = T →
  Z.of_nat (length buffer) = N →
  malloc_ok (T * 64) = true → malloc_ok (T * 8) = true →
  shuffled ≡ₚ seqZ 0 N →
  let s := wrap (N * (N + 1) / 2) in
  ∃ array,
    load_array buffer N = Done array
    ∧ (∀ i, 0 ≤ i < N → array !! Z.to_nat i = Some (i + 1))
    ∧ sum_good malloc_ok junk team array N T fresh_world
      = (Done {| total := s; visited := seqZ 0 N |},
         {| mallocs := [T * 64]; printed := [s] |})
    ∧ sum_bad_fs malloc_ok junk team array N T fresh_world
      = (Done {| total := s; visited := seqZ 0 N |},
         {| mallocs := [T * 8]; printed := [s] |})
    ∧ sum_bad_ma_shuffled malloc_ok junk team array N T shuffled fresh_world
      = (Done {| total := s; visited := shuffled |},
         {| mallocs := [T * 64]; printed := [s] |})
    ∧ (allocatable N sizeof_unsigned_long → N ≤ Z.of_nat fuel →
       0 ≤ stride → (N - 1) * stride < ULONG_MODULUS →
       Z.gcd stride N = 1 →
       ∃ v, sum_bad_ma_strided malloc_ok junk team fuel array N T stride
              fresh_world
            = (Done (false, {| total := s; visited := v |}),
               {| mallocs := [T * 64]; printed := [s] |})
            ∧ v ≡ₚ seqZ 0 N).
Proof.
  intros HN HT -> Hbuf Hok64 Hok8 Hperm s.
  exists ((fun i => i + 1) <$> seqZ 0 N).
  assert (Z.of_nat (length ((fun i => i + 1) <$> seqZ 0 N)) = N) as Hlen
    by (rewrite length_fmap, length_seqZ; lia).
  assert (wrap (Zsum ((fun i => i + 1) <$> seqZ 0 N)) = s) as Hsum
    by (by rewrite Zsum_sequential by lia).
  split_and!.
  - apply load_array_spec; (lia || done).
  - intros i Hi. rewrite list_lookup_fmap, lookup_seqZ_lt by lia.
    simpl. do 2 f_equal. lia.
  - by rewrite (sum_good_spec malloc_ok junk N T ltac:(lia) HT), Hsum.
  - by rewrite (sum_bad_fs_spec malloc_ok junk N T ltac:(lia) HT), Hsum.
  - by rewrite (sum_bad_ma_shuffled_spec malloc_ok junk N T ltac:(lia) HT), Hsum.
  - intros Halloc Hfuel Hs Hprod Hg.
    assert (N + T ≤ ULONG_MODULUS).
    { unfold allocatable, sizeof_unsigned_long, ULONG_MODULUS, INT_MAX in *. lia. }
    set (array := (fun i => i + 1) <$> seqZ 0 N) in *.
    assert (strided_index N stride <$> seqZ 0 N ≡ₚ seqZ 0 N) as Hp
      by (apply (strided_index_perm N); (lia || done)).
    assert (wrap (Zsum ((fun i => elem array (strided_index N stride i))
                          <$> seqZ 0 N)) = s) as Hs2.
    { change (fun i => elem array (strided_index N stride i))
        with (elem array ∘ strided_index N stride).
      rewrite list_fmap_compose, Hp, <- Hsum. do 2 f_equal.
      rewrite <- Hlen. apply fmap_elem_seqZ. }
    exists (seqZ 0 T ≫= (fun t => strided_index N stride <$> strided t N T)).
    split.
    + rewrite (sum_bad_ma_strided_spec malloc_ok junk N T) by (lia || done).
      by rewrite Hg, Hs2.
    + rewrite (strided_visits_perm N T) by (lia || done). exact Hp.
Qed.

Lemma sum_of_sequential_array_witness :
  ∃ array,
    load_array (replicate 10 0) 10 = Done array
    ∧ (∀ i, 0 ≤ i < 10 → array !! Z.to_nat i = Some (i + 1))
    ∧ sum_good (fun _ => true) 0 3 array 10 3 fresh_world
      = (Done {| total := 55; visited := seqZ 0 10 |},
         {| mallocs := [192]; printed := [55] |})
    ∧ sum_bad_fs (fun _ => true) 0 3 array 10 3 fresh_world
      = (Done {| total := 55; visited := seqZ 0 10 |},
         {| mallocs := [24]; printed := [55] |})
    ∧ sum_bad_ma_shuffled (fun _ => true) 0 3 array 10 3
        [4; 9; 0; 3; 7; 1; 8; 2; 6; 5] fresh_world
      = (Done {| total := 55; visited := [4; 9; 0; 3; 7; 1; 8; 2; 6; 5] |},
         {| mallocs := [192]; printed := [55] |})
    ∧ ∃ v, sum_bad_ma_strided (fun _ => true) 0 3 10 array 10 3 7 fresh_world
           = (Done (false, {| total := 55; visited := v |}),
              {| mallocs := [192]; printed := [55] |})
           ∧ v ≡ₚ seqZ 0 10.
Proof.
  destruct (sum_of_sequential_array (fun _ => true) 0 3 10 10 3 7
              (replicate 10 0) [4; 9; 0; 3; 7; 1; 8; 2; 6; 5])
    as (array & Hload & Hcells & Hgood & Hfs & Hshuffled & Hstrided).
  - split; [lia|reflexivity].
  - split; [lia|by vm_compute].
  - reflexivity.
  - reflexivity.
  - reflexivity.
  - reflexivity.
  - by apply (bool_decide_unpack _); vm_compute.
  - exists array.
    split; [exact Hload|]. split; [exact Hcells|]. split; [exact Hgood|].
    split; [exact Hfs|]. split; [exact Hshuffled|].
    apply Hstrided; [by vm_compute|lia|lia|by vm_compute|reflexivity].
Defined.

(** C1, a failing instance of the statement for every run: the
    program run as [good 10 4] asks for four threads and gives each a
    chunk of [10 / 4 = 2] elements, the last one the rest.  When the
    runtime grants the region two threads, only the workers 0 and 1
    exist: the elements 1, 2, 3 and 4 are added and the program prints
    10, not 55.  The kernels never read the size of the team. *)
Lemma sum_with_smaller_team :
  load_array (replicate 10 0) 10 = Done (seqZ 1 10)
  ∧ sum_good (fun _ => true) 0 2 (seqZ 1 10) 10 4 fresh_world
    = (Done {| total := 10; visited := [0; 1; 2; 3] |},
       {| mallocs := [256]; printed := [10] |})
  ∧ sum_good (fun _ => true) 0 4 (seqZ 1 10) 10 4 fresh_world
    = (Done {| total := 55; visited := seqZ 0 10 |},
       {| mallocs := [256]; printed := [55] |})
  ∧ main_28 (fun _ => true) 0 2 10 4 "good" 10 4 fresh_world
    = (Done EXIT_SUCCESS, {| mallocs := [80; 256]; printed := [10] |})
  ∧ 10 ≠ wrap (10 * (10 + 1) / 2).
Proof. split_and!; [reflexivity..|by vm_compute]. Qed.

(** The side condition of the strided kernel on the products: with
    three elements, one thread and the stride 2^63, which is coprime
    with 3, the product [2 * stride] wraps to 0; index 0 is read twice,
    index 1 never, and the sum is 5, not 6.  ([main] passes the stride
    7, whose products do not wrap.) *)
Lemma strided_sum_wraps :
  load_array [0; 0; 0] 3 = Done [1; 2; 3]
  ∧ Z.gcd (2 ^ 63) 3 = 1
  ∧ (sum_bad_ma_strided (fun _ => true) 0 1 3 [1; 2; 3] 3 1 (2 ^ 63)
       fresh_world).1
    = Done (false, {| total := 5; visited := [0; 2; 0] |})
  ∧ 5 ≠ wrap (3 * (3 + 1) / 2).
Proof. split_and!; [reflexivity..|by vm_compute]. Qed.

(** C2 (accumulator equivalence).  For every dataset of [N] elements,
    every thread count [T >= 1] and every team of [1 <= team <= T]
    threads, the padded kernel and the packed kernel, which traverse
    in the same order, return the same report when both are run by
    that team: [sum_good] and [sum_bad_fs] the sum of the elements the
    team covers, which is the sum of the array modulo 2^64 when the
    team is the one asked for; [compare_good] and [compare_bad_fs] the
    same count. *)
Theorem accumulator_layout_equivalence (malloc_ok : Z → bool) (junk team : Z)
    (N T : Z) (array A B : list Z) :
  0 ≤ N < ULONG_MODULUS → 1 ≤ T ≤ INT_MAX →
  1 ≤ team ≤ T →
  Z.of_nat (length array) = N →
  Z.of_nat (length A) = N → Z.of_nat (length B) = N →
  malloc_ok (T * 64) = true → malloc_ok (T * 8) = true →
  (∃ r, (sum_good malloc_ok junk team array N T fresh_world).1 = Done r
        ∧ (sum_bad_fs malloc_ok junk team array N T fresh_world).1 = Done r
        ∧ (team = T → total r = wrap (Zsum array)))
  ∧ (∃ r, (compare_good malloc_ok junk team A B N T fresh_world).1 = Done r
          ∧ (compare_bad_fs malloc_ok junk team A B N T fresh_world).1
            = Done r).
Proof.
  intros HN HT Hteam Ha HA HB Hok64 Hok8. split.
  - exists {| total := wrap (Zsum (take (Z.to_nat (covered N T team)) array));
              visited := seqZ 0 (covered N T team) |}.
    rewrite (sum_good_team malloc_ok junk N T),
            (sum_bad_fs_team malloc_ok junk N T) by (lia || done).
    split_and!; [done..|].
    intros ->. simpl. by rewrite (take_covered_full N T).
  - exists {| total := wrap (Zsum (mismatch A B
                                    <$> seqZ 0 (covered N T team)));
              visited := seqZ 0 (covered N T team) |}.
    by rewrite (compare_good_team malloc_ok junk N T),
               (compare_bad_fs_team malloc_ok junk N T) by (lia || done).
Qed.

Lemma accumulator_layout_equivalence_witness :
  (∃ r, (sum_good (fun _ => true) 0 4 (seqZ 1 1000) 1000 4 fresh_world).1
        = Done r
        ∧ (sum_bad_fs (fun _ => true) 0 4 (seqZ 1 1000) 1000 4 fresh_world).1
          = Done r
        ∧ total r = 500500)
  ∧ (∃ r, (compare_good (fun _ => true) 0 4 (matrix_A 1000) (matrix_B 1000)
             1000 4 fresh_world).1 = Done r
          ∧ (compare_bad_fs (fun _ => true) 0 4 (matrix_A 1000) (matrix_B 1000)
               1000 4 fresh_world).1 = Done r).
Proof.
  destruct (accumulator_layout_equivalence (fun _ => true) 0 4 1000 4
              (seqZ 1 1000) (matrix_A 1000) (matrix_B 1000))
    as [(r & Hgood & Hbad & Htotal) Hcompare].
  - split; [lia|reflexivity].
  - split; [lia|by vm_compute].
  - lia.
  - reflexivity.
  - reflexivity.
  - reflexivity.
  - reflexivity.
  - reflexivity.
  - split; [|exact Hcompare].
    exists r. split; [exact Hgood|]. split; [exact Hbad|].
    rewrite (Htotal eq_refl). reflexivity.
Defined.

(** C2, a failing instance of the statement for every pair of runs:
    the dataset {1, .., 1000} and four threads asked for.  The padded
    kernel run by the four threads returns 500500; the packed kernel
    run by a team of two returns the sum of the first 500 elements,
    125250. *)
Lemma layouts_differ_across_teams :
  (sum_good (fun _ => true) 0 4 (seqZ 1 1000) 1000 4 fresh_world).1
  = Done {| total := 500500; visited := seqZ 0 1000 |}
  ∧ (sum_bad_fs (fun _ => true) 0 2 (seqZ 1 1000) 1000 4 fresh_world).1
    = Done {| total := 125250; visited := seqZ 0 500 |}
  ∧ 500500 ≠ 125250.
Proof. split_and!; [by vm_compute..|lia]. Qed.

End SumClaims.

Section CompareClaims.

Import MatrixCompare.

(** C5 (mismatch counting).  Two buffers of [N >= 1] elements are
    initialised by [initialize_matrices]: [A[i] = B[i] = i % 100],
    then [B[i] = A[i] + 1] at [i = 0, 1000, 2000, ..].  In every mode
    and for every thread count [T >= 1], when the region is run by the
    team asked for ([team = T]), the count returned and printed
    is [(N-1)/1000 + 1].  ([N] is the length of a buffer the program
    holds, hence allocatable.) *)
Theorem mismatch_count_every_1000th (malloc_ok : Z → bool) (junk team : Z)
    (fuel : nat) (N T : Z) (bufA bufB shuffled : list Z) :
  1 ≤ N → allocatable N sizeof_unsigned_long → 1 ≤ T ≤ INT_MAX →
  team = T →
  Z.of_nat (length bufA) = N → Z.of_nat (length bufB) = N →
  N ≤ Z.of_nat fuel →
  malloc_ok (T * 64) = true → malloc_ok (T * 8) = true →
  shuffled ≡ₚ seqZ 0 N →
  let count := (N - 1) / 1000 + 1 in
  ∃ A B,
    initialize_matrices fuel bufA bufB N = Done (A, B)
    ∧ (∀ i, 0 ≤ i < N →
            A !! Z.to_nat i = Some (i mod 100)
            ∧ B !! Z.to_nat i
              = Some (if i mod 1000 =? 0 then i mod 100 + 1 else i mod 100))
    ∧ compare_good malloc_ok junk team A B N T fresh_world
      = (Done {| total := count; visited := seqZ 0 N |},
         {| mallocs := [T * 64]; printed := [count] |})
    ∧ compare_bad_fs malloc_ok junk team A B N T fresh_world
      = (Done {| total := count; visited := seqZ 0 N |},
         {| mallocs := [T * 8]; printed := [count] |})
    ∧ compare_bad_ma malloc_ok junk team A B N T shuffled fresh_world
      = (Done {| total := count; visited := shuffled |},
         {| mallocs := [T * 64]; printed := [count] |}).
Proof.
  intros H1 Halloc HT -> HA HB Hfuel Hok64 Hok8 Hperm count.
  assert (N + 1000 ≤ ULONG_MODULUS ∧ 0 ≤ N < ULONG_MODULUS) as [Hw HN].
  { unfold allocatable, sizeof_unsigned_long, ULONG_MODULUS in *. lia. }
  exists (matrix_A N), (matrix_B N).
  assert (wrap (Zsum (mismatch (matrix_A N) (matrix_B N) <$> seqZ 0 N))
          = count) as Hcount.
  { rewrite mismatch_count by lia. apply wrap_small. subst count.
    unfold ULONG_MODULUS in *. Z.div_mod_to_equations. lia. }
  pose proof (length_matrix_A N ltac:(lia)) as HlA.
  pose proof (length_matrix_B N ltac:(lia)) as HlB.
  split_and!.
  - apply initialize_matrices_spec; (lia || done).
  - intros i Hi. unfold matrix_A, matrix_B.
    rewrite !list_lookup_fmap, !lookup_seqZ_lt by lia. simpl.
    by rewrite Z2Nat.id by lia.
  - by rewrite (compare_good_spec malloc_ok junk N T), Hcount.
  - by rewrite (compare_bad_fs_spec malloc_ok junk N T), Hcount.
  - by rewrite (compare_bad_ma_spec malloc_ok junk N T), Hcount.
Qed.

Lemma mismatch_count_every_1000th_witness :
  ∃ A B,
    initialize_matrices 2500 (replicate 2500 0) (replicate 2500 0) 2500
    = Done (A, B)
    ∧ (∀ i, 0 ≤ i < 2500 →
            A !! Z.to_nat i = Some (i mod 100)
            ∧ B !! Z.to_nat i
              = Some (if i mod 1000 =? 0 then i mod 100 + 1 else i mod 100))
    ∧ compare_good (fun _ => true) 0 4 A B 2500 4 fresh_world
      = (Done {| total := 3; visited := seqZ 0 2500 |},
         {| mallocs := [256]; printed := [3] |})
    ∧ compare_bad_fs (fun _ => true) 0 4 A B 2500 4 fresh_world
      = (Done {| total := 3; visited := seqZ 0 2500 |},
         {| mallocs := [32]; printed := [3] |})
    ∧ compare_bad_ma (fun _ => true) 0 4 A B 2500 4
        (reverse (seqZ 0 2500)) fresh_world
      = (Done {| total := 3; visited := reverse (seqZ 0 2500) |},
         {| mallocs := [256]; printed := [3] |}).
Proof.
  apply (mismatch_count_every_1000th (fun _ => true) 0 4 2500 2500 4
           (replicate 2500 0) (replicate 2500 0) (reverse (seqZ 0 2500))).
  - lia.
  - by vm_compute.
  - split; [lia|by vm_compute].
  - reflexivity.
  - reflexivity.
  - reflexivity.
  - lia.
  - reflexivity.
  - reflexivity.
  - apply reverse_Permutation.
Defined.

(** C5, a failing instance of the statement for every run: 1001
    elements, of which those at 0 and at 1000 differ, and two threads
    asked for, each with a chunk of 500 elements, the second one with
    the element left over.  When the runtime grants the region one
    thread, the elements from 500 on are not compared, and the count
    is 1, not 2. *)
Lemma mismatch_missed_by_smaller_team :
  initialize_matrices 1001 (replicate 1001 0) (replicate 1001 0) 1001
  = Done (matrix_A 1001, matrix_B 1001)
  ∧ (compare_good (fun _ => true) 0 1 (matrix_A 1001) (matrix_B 1001)
       1001 2 fresh_world).1
    = Done {| total := 1; visited := seqZ 0 500 |}
  ∧ (compare_good (fun _ => true) 0 2 (matrix_A 1001) (matrix_B 1001)
       1001 2 fresh_world).1
    = Done {| total := 2; visited := seqZ 0 1001 |}
  ∧ 1 ≠ (1001 - 1) / 1000 + 1.
Proof. split_and!; [by vm_compute..|by vm_compute]. Qed.

End CompareClaims.

(** ** array_sum_performance_variation_10.c *)

Section PerformanceVariationFacts.

Import PerformanceVariation.

Lemma sum_linear_spec (array : list Z) N :
  0 ≤ N ≤ Z.of_nat (length array) →
  sum_linear array N = Done (wrap (Zsum (take (Z.to_nat N) array))).
Proof.
  intros HN. unfold sum_linear.
  destruct (for_range_inv
    (fun i s => s = wrap (Zsum (take (Z.to_nat i) array)))
    0 N (fun i sum => x ← load array i; Done (wrap (sum + x))) 0)
    as (s & -> & ->); [lia|done| |done].
  intros i s Hi ->.
  destruct (load_lt array i ltac:(lia)) as (x & Hx & ->).
  eexists. split; [done|]. cbn.
  replace (Z.to_nat (i + 1)) with (Datatypes.S (Z.to_nat i)) by lia.
  rewrite (take_S_r _ _ x), Zsum_app by done. simpl.
  by rewrite wrap_add_l, Z.add_0_r.
Qed.

Lemma modify_and_sum_spec (array : list Z) N :
  0 ≤ N ≤ Z.of_nat (length array) →
  modify_and_sum array N
  = Done (((fun x => wrap (x + 1)) <$> take (Z.to_nat N) array)
            ++ drop (Z.to_nat N) array,
          wrap (Zsum (take (Z.to_nat N) array) + N)).
Proof.
  intros HN. unfold modify_and_sum.
  destruct (for_range_inv
    (fun i (st : list Z * Z) =>
       st.1 = ((fun x => wrap (x + 1)) <$> take (Z.to_nat i) array)
                ++ drop (Z.to_nat i) array
       ∧ st.2 = wrap (Zsum (take (Z.to_nat i) array) + i))
    0 N (fun i '(array, sum) =>
           x ← load array i;
           array ← store array i (wrap (x + 1));
           y ← load array i;
           Done (array, wrap (sum + y)))
    (array, 0))
    as ([a s] & -> & Ha & Hs); [lia|done| |by simpl in *; subst].
  intros i [a s] Hi [Ha Hs]. simpl in *. subst a s.
  destruct (lookup_lt_is_Some_2 array (Z.to_nat i)) as [x Hx]; [lia|].
  set (f := fun x => wrap (x + 1)).
  assert (length (f <$> take (Z.to_nat i) array) = Z.to_nat i) as Hlt
    by (rewrite length_fmap, length_take; lia).
  assert (length ((f <$> take (Z.to_nat i) array) ++ drop (Z.to_nat i) array)
          = length array) as Hla.
  { rewrite length_app, Hlt, length_drop. lia. }
  rewrite (load_Done _ i x); [|lia|].
  2:{ rewrite lookup_app_r by lia.
      rewrite Hlt, Nat.sub_diag, lookup_drop, Nat.add_0_r. done. }
  cbn. rewrite store_Done by lia. cbn.
  rewrite (load_Done _ i (f x)) by (lia || (apply list_lookup_insert_eq; lia)).
  cbn. eexists. split; [done|]. simpl.
  replace (Z.to_nat (i + 1)) with (Datatypes.S (Z.to_nat i)) by lia.
  rewrite (take_S_r _ _ x), fmap_app, Zsum_app by done. simpl. split.
  - rewrite <- Hlt at 1. rewrite insert_app_r_alt, Nat.sub_diag by lia.
    rewrite <- app_assoc. f_equal.
    rewrite (drop_S _ x) by done. done.
  - unfold f. rewrite wrap_add_l, wrap_add_r. f_equal. lia.
Qed.

End PerformanceVariationFacts.

Section PerformanceVariationClaims.

Import PerformanceVariation.

Lemma main_good_mode (malloc_ok : Z → bool) (junk : Z) (fuel : nat)
    (rand : nat → Z) (argc N : Z) :
  3 ≤ argc → 1 ≤ N → allocatable N sizeof_unsigned_long →
  malloc_ok (N * 8) = true →
  main malloc_ok junk fuel rand argc "good" N fresh_world
  = (Done 0,
     {| mallocs := [N * 8];
        printed := [wrap (N * (N + 1) / 2);
                    wrap (wrap (N * (N + 1) / 2) + N)] |}).
Proof.
  intros Hargc H1 Halloc Hok.
  assert (0 ≤ N < ULONG_MODULUS ∧ N * 8 < ULONG_MODULUS) as [HN H8].
  { unfold allocatable, sizeof_unsigned_long, ULONG_MODULUS in *. lia. }
  unfold main. destruct (Z.ltb_spec argc 3); [lia|].
  rewrite (wrap_small N) by done.
  destruct (Z.eqb_spec N 0); [lia|].
  unfold mbind, M_bind, bindM, malloc, lift, print, mret, M_ret, ret.
  change sizeof_unsigned_long with 8.
  rewrite (wrap_small (N * 8)) by lia. rewrite Hok, Z.div_mul by lia.
  rewrite load_array_spec by (done || rewrite length_replicate; lia).
  set (array := (fun i => i + 1) <$> seqZ 0 N).
  assert (Z.of_nat (length array) = N) as Hlen
    by (unfold array; rewrite length_fmap, length_seqZ; lia).
  cbn [String.eqb Ascii.eqb Bool.eqb fresh_world mallocs printed app].
  rewrite sum_linear_spec, modify_and_sum_spec by lia.
  rewrite take_ge by lia. unfold array.
  rewrite Zsum_sequential by lia.
  cbn. by rewrite wrap_add_l.
Qed.

(** C10 ([modify_and_sum]).  On an array of [N >= 1] elements the
    function replaces each element by its old value plus 1 (in
    unsigned long arithmetic: exactly plus 1 unless the old value is
    the largest one), leaves every cell beyond [N] as it was, and
    reports the sum of the new values: the old sum plus [N] modulo
    2^64, which is what [sum_linear] reports plus [N].  Run in its
    good mode, the program prints the Linear Sum and then the Linear
    Sum plus [N]. *)
Theorem modify_and_sum_adds_one (malloc_ok : Z → bool) (junk : Z)
    (fuel : nat) (rand : nat → Z) (argc N : Z) (array : list Z) :
  1 ≤ N ≤ Z.of_nat (length array) →
  ∃ array' s linear,
    modify_and_sum array N = Done (array', s)
    ∧ sum_linear array N = Done linear
    ∧ length array' = length array
    ∧ (∀ (i : nat) x, array !! i = Some x →
         array' !! i = Some (if decide (Z.of_nat i < N) then wrap (x + 1) else x))
    ∧ (∀ (i : nat) x, array !! i = Some x → Z.of_nat i < N →
         0 ≤ x < ULONG_MODULUS - 1 → array' !! i = Some (x + 1))
    ∧ s = wrap (Zsum (take (Z.to_nat N) array) + N)
    ∧ s = wrap (linear + N)
    ∧ (3 ≤ argc → allocatable N sizeof_unsigned_long →
       malloc_ok (N * 8) = true →
       main malloc_ok junk fuel rand argc "good" N fresh_world
       = (Done 0,
          {| mallocs := [N * 8];
             printed := [wrap (N * (N + 1) / 2);
                         wrap (wrap (N * (N + 1) / 2) + N)] |})).
Proof.
  intros HN.
  set (f := fun x => wrap (x + 1)).
  exists ((f <$> take (Z.to_nat N) array) ++ drop (Z.to_nat N) array),
         (wrap (Zsum (take (Z.to_nat N) array) + N)),
         (wrap (Zsum (take (Z.to_nat N) array))).
  assert (∀ (i : nat) x, array !! i = Some x →
            ((f <$> take (Z.to_nat N) array) ++ drop (Z.to_nat N) array) !! i
            = Some (if decide (Z.of_nat i < N) then wrap (x + 1) else x))
    as Hcells.
  { intros i x Hx.
    assert (length (f <$> take (Z.to_nat N) array) = Z.to_nat N) as Hlt
      by (rewrite length_fmap, length_take; lia).
    destruct (decide (Z.of_nat i < N)).
    - rewrite lookup_app_l by lia.
      by rewrite list_lookup_fmap, lookup_take_lt, Hx by lia.
    - rewrite lookup_app_r by lia.
      rewrite Hlt, lookup_drop, <- Hx. f_equal. lia. }
  split_and!.
  - apply modify_and_sum_spec. lia.
  - apply sum_linear_spec. lia.
  - rewrite length_app, length_fmap, length_take, length_drop. lia.
  - exact Hcells.
  - intros i x Hx Hi Hr. rewrite (Hcells i x Hx).
    rewrite decide_True by done. f_equal. apply wrap_small. lia.
  - done.
  - by rewrite wrap_add_l.
  - intros. apply main_good_mode; (lia || done).
Qed.

Lemma modify_and_sum_adds_one_witness :
  (∃ array' s linear,
     modify_and_sum [5; 7; 11; 13] 3 = Done (array', s)
     ∧ sum_linear [5; 7; 11; 13] 3 = Done linear
     ∧ array' = [6; 8; 12; 13] ∧ linear = 23 ∧ s = 26)
  ∧ main (fun _ => true) 0 0 (fun _ => 0) 3 "good" 3 fresh_world
    = (Done 0, {| mallocs := [24]; printed := [6; 9] |}).
Proof.
  destruct (modify_and_sum_adds_one (fun _ => true) 0 0 (fun _ => 0) 3 3
              [5; 7; 11; 13])
    as (array' & s & linear & Hm & Hl & _ & _ & _ & _ & _ & Hmain);
    [by vm_compute|].
  split.
  - exists array', s, linear. split; [exact Hm|]. split; [exact Hl|].
    vm_compute in Hm, Hl.
    injection Hm as <- <-. injection Hl as <-. done.
  - apply Hmain; [lia|by vm_compute|reflexivity].
Defined.

End PerformanceVariationClaims.

(** ** The permutation generator *)

Section Shuffle.

Lemma for_down_unfold {S} (body : Z → S → outcome S) hi s :
  0 < hi →
  for_down hi body s = s' ← body hi s; for_down (hi - 1) body s'.
Proof.
  intros Hhi. unfold for_down.
  replace hi with ((hi - 1) + 1) at 1 by lia.
  rewrite seqZ_app, reverse_app by lia. cbn.
  by replace (1 + (hi - 1)) with hi by lia.
Qed.

(** With no element the loop starts at [i = 2^64 - 1] and divides by
    [i + 1 = 0]. *)
Lemma shuffle_array_empty (rand : nat → Z) (indices : list Z) :
  shuffle_array rand indices 0 = Fault DivByZero.
Proof.
  unfold shuffle_array.
  change (wrap (0 - 1)) with (ULONG_MODULUS - 1).
  rewrite for_down_unfold by done.
  change (wrap (ULONG_MODULUS - 1 + 1)) with 0. reflexivity.
Qed.

Lemma shuffle_array_single (rand : nat → Z) (indices : list Z) :
  shuffle_array rand indices 1 = Done indices.
Proof. reflexivity. Qed.

Lemma shuffle_array_perm (rand : nat → Z) (indices : list Z) N :
  1 ≤ N < ULONG_MODULUS → Z.of_nat (length indices) = N →
  ∃ l, shuffle_array rand indices N = Done l ∧ l ≡ₚ indices.
Proof.
  intros HN Hlen. unfold shuffle_array, for_down.
  rewrite (wrap_small (N - 1)) by lia.
  destruct (iterate_inv
    (fun _ (st : list Z * nat) =>
       Z.of_nat (length st.1) = N ∧ st.1 ≡ₚ indices)
    (fun i '(indices, calls) =>
       j ← umod (wrap (rand calls)) (wrap (i + 1));
       temp ← load indices i;
       x ← load indices j;
       indices ← store indices i x;
       indices ← store indices j temp;
       Done (indices, Datatypes.S calls))
    (reverse (seqZ 1 (N - 1))) (indices, O))
    as ([l calls] & -> & Hl & Hp); [done| |by exists l].
  intros l1 i l2 [ind calls] Heq [Hl Hp]. simpl in *.
  assert (i ∈ reverse (seqZ 1 (N - 1))) as Hi
    by (rewrite Heq, elem_of_app, elem_of_cons; auto).
  apply elem_of_reverse, elem_of_seqZ in Hi.
  rewrite (wrap_small (i + 1)) by lia. unfold umod.
  destruct (Z.eqb_spec (i + 1) 0); [lia|]. cbn.
  pose proof (Z.mod_pos_bound (wrap (rand calls)) (i + 1) ltac:(lia)).
  set (j := wrap (rand calls) mod (i + 1)) in *.
  destruct (load_lt ind i ltac:(lia)) as (temp & Htemp & ->). cbn.
  destruct (load_lt ind j ltac:(lia)) as (x & Hx & ->). cbn.
  rewrite store_Done by lia. cbn.
  rewrite store_Done by (rewrite length_insert; lia). cbn.
  eexists. split; [done|]. simpl. split.
  - by rewrite !length_insert.
  - by rewrite (Permutation_insert_swap ind _ _ temp x).
Qed.

(** The generator on a sequence that has an element.  For every
    [N >= 1], the
    generator applied to the identity sequence of length [N] returns,
    with no access out of bounds and no division by zero, a sequence
    in which every integer of [0, N) occurs exactly once; for [N = 1]
    it returns the sequence as it was. *)
Theorem shuffle_is_bijection (rand : nat → Z) (N : Z) :
  1 ≤ N < ULONG_MODULUS →
  ∃ l, shuffle_array rand (seqZ 0 N) N = Done l
       ∧ l ≡ₚ seqZ 0 N
       ∧ NoDup l
       ∧ (∀ x, x ∈ l ↔ 0 ≤ x < N)
       ∧ (N = 1 → l = seqZ 0 N).
Proof.
  intros HN.
  destruct (shuffle_array_perm rand (seqZ 0 N) N HN) as (l & Hrun & Hp).
  { rewrite length_seqZ. lia. }
  exists l. split_and!; [done|done| | |].
  - rewrite Hp. apply NoDup_seqZ.
  - intros x. rewrite Hp, elem_of_seqZ. lia.
  - intros ->. rewrite shuffle_array_single in Hrun. congruence.
Qed.

Lemma shuffle_is_bijection_witness :
  ∃ l, shuffle_array (fun k => Z.of_nat k * 7 + 3) (seqZ 0 6) 6 = Done l
       ∧ l ≡ₚ seqZ 0 6
       ∧ NoDup l
       ∧ (∀ x, x ∈ l ↔ 0 ≤ x < 6)
       ∧ (6 = 1 → l = seqZ 0 6).
Proof.
  apply (shuffle_is_bijection (fun k => Z.of_nat k * 7 + 3) 6).
  split; [lia|reflexivity].
Defined.

End Shuffle.

Section CompareMainFacts.

Local Arguments shuffle_array : simpl never.

(** The comparison program guards [N == 0], not [N * N == 0]: for
    [N = 2^32] the element count wraps to 0, three empty blocks are
    requested and [shuffle_indices] is called with size 0. *)
Lemma compare_main_reaches_empty_shuffle (team : Z) (rand : nat → Z) :
  MatrixCompare.main (fun _ => true) 0 team 0 rand 4 "bad-ma" (2 ^ 32) 1
    fresh_world
  = (Fault DivByZero, {| mallocs := [0; 0; 0]; printed := [] |}).
Proof.
  unfold MatrixCompare.main.
  change (wrap (2 ^ 32)) with 4294967296.
  change (wrap (4294967296 * 4294967296)) with 0.
  change (wrap (0 * sizeof_unsigned_long)) with 0.
  unfold mbind, M_bind, bindM, lift. cbn.
  change (Z.to_nat (0 `div` sizeof_unsigned_long)) with 0%nat.
  change (MatrixCompare.initialize_matrices 0 (replicate 0 0) (replicate 0 0) 0)
    with (Done ([] : list Z, [] : list Z)).
  change (fill_identity (replicate 0 0) 0) with (Done ([] : list Z)).
  cbn. by rewrite shuffle_array_empty.
Qed.

(** C6 (permutation validity), where the programs break it.  On an
    empty sequence the generator is no no-op: [size - 1] wraps to
    2^64 - 1, the loop is entered and [rand() % (i + 1)] divides by
    zero, whatever [rand] returns.  The comparison program reaches
    this call: run as [bad-ma 4294967296 1] it passes the guard
    [N == 0], the element count [N * N] wraps to 0, three empty blocks
    are requested and [shuffle_indices] is called with size 0; in the
    mode [good] the same input ends normally with the count 0. *)
Theorem shuffle_of_empty_sequence (rand : nat → Z) :
  (∀ indices, shuffle_array rand indices 0 = Fault DivByZero)
  ∧ MatrixCompare.main (fun _ => true) 0 1 0 rand 4 "bad-ma" (2 ^ 32) 1
      fresh_world
    = (Fault DivByZero, {| mallocs := [0; 0; 0]; printed := [] |})
  ∧ MatrixCompare.main (fun _ => true) 0 1 0 rand 4 "good" (2 ^ 32) 1
      fresh_world
    = (Done EXIT_SUCCESS, {| mallocs := [0; 0; 64]; printed := [0] |}).
Proof.
  split_and!.
  - apply shuffle_array_empty.
  - apply compare_main_reaches_empty_shuffle.
  - reflexivity.
Qed.

End CompareMainFacts.

(** ** Work-sharing loops *)

Section WorkSharing.

Lemma schedule_cover (owner : Z → Z) n T :
  valid_schedule owner n T →
  seqZ 0 T ≫= (fun t => filter (fun i => owner i = t) (seqZ 0 n))
  ≡ₚ seqZ 0 n.
Proof.
  intros Hv. apply NoDup_Permutation.
  - apply NoDup_bind; [| |apply NoDup_seqZ].
    + intros t1 t2 i _ _ [<- _]%list_elem_of_filter [<- _]%list_elem_of_filter.
      done.
    + intros t _. apply NoDup_filter, NoDup_seqZ.
  - apply NoDup_seqZ.
  - intros i. rewrite list_elem_of_bind. split.
    + by intros (t & [_ ?]%list_elem_of_filter & _).
    + intros Hi. exists (owner i). split.
      * by apply list_elem_of_filter.
      * apply elem_of_seqZ in Hi. apply elem_of_seqZ.
        specialize (Hv i ltac:(lia)). lia.
Qed.

Lemma static_schedule_valid n T :
  0 ≤ n → 1 ≤ T → valid_schedule (static_schedule n T) n T.
Proof.
  intros Hn HT i Hi. unfold static_schedule.
  pose proof (Z.div_mod n T ltac:(lia)) as Hdm.
  pose proof (Z.mod_pos_bound n T ltac:(lia)) as Hr.
  assert (0 ≤ n / T) as Hq by (apply Z.div_pos; lia).
  set (q := n / T) in *. set (r := n mod T) in *.
  destruct (Z.ltb_spec i (r * (q + 1))) as [Hlt|Hge].
  - split; [apply Z.div_pos; lia|].
    apply Z.div_lt_upper_bound; [lia|]. nia.
  - assert (0 < q) by nia.
    assert (0 ≤ (i - r * (q + 1)) / q) by (apply Z.div_pos; lia).
    split; [lia|].
    assert ((i - r * (q + 1)) / q < T - r); [|lia].
    apply Z.div_lt_upper_bound; [lia|]. nia.
Qed.

End WorkSharing.

(** ** The program of file 14 *)

Section FalseSharingSimFacts.

Import ArraySum FalseSharingSim.

Variable schedule : Z → Z → Z → Z.
Variables N T team : Z.
Hypothesis HN : 0 ≤ N < ULONG_MODULUS.
Hypothesis HT : 1 ≤ T ≤ INT_MAX.
Hypothesis Hteam : 1 ≤ team ≤ T.
Hypothesis Hsched : valid_schedule (schedule N team) N team.

(** The work-shared loop over [partial[tid] += array[i]], with [S]
    slots for a team of at most [S] threads: every worker reads the
    iterations dealt to it, in increasing order. *)
Lemma shared_loop_spec S array (ps : list Z) :
  team ≤ S ≤ INT_MAX →
  Z.of_nat (length array) = N → length ps = Z.to_nat S →
  (fun p => wrap (id p)) <$> ps = replicate (Z.to_nat S) 0 →
  ∃ st,
    parallel_for (schedule N team) team 0 N
      (fun tid i st => add_packed array tid i st)
      {| slots := ps; reads := [] |} = Done st
    ∧ length (slots st) = Z.to_nat S
    ∧ wrap (Zsum ((fun p => wrap (id p)) <$> slots st)) = wrap (Zsum array)
    ∧ reads st
      = seqZ 0 team
          ≫= (fun t => filter (fun i => schedule N team i = t) (seqZ 0 N)).
Proof.
  intros HS Ha Hps Hzero. unfold parallel_for. rewrite Z.sub_0_r.
  set (own := fun t => filter (fun i => schedule N team i = t) (seqZ 0 N)).
  destruct (parallel_adds_team id (Z.to_nat S) team
              (fun t => Zsum (elem array <$> own t))
              (fun t => id <$> own t)
              (fun tid => iterate (fun i st => add_packed array tid i st) (own tid))
              {| slots := ps; reads := [] |})
    as (st & Hrun & Hres & Hvis); [lia|lia| |done|done|done|].
  - intros tid st Htid Hl.
    apply (iterate_adds id (Z.to_nat S)); [|done].
    intros i st1 [_ [? ?]%elem_of_seqZ]%list_elem_of_filter Hl1.
    apply (add_packed_adds S); [lia|lia|done|unfold id; lia].
  - exists st. split; [exact Hrun|].
    assert (length (slots st) = Z.to_nat S) as Hl.
    { apply (f_equal length) in Hres. unfold residues in Hres.
      rewrite length_app, !length_fmap, length_seqZ, length_replicate in Hres.
      lia. }
    split; [done|]. split.
    + fold (residues id st). rewrite Hres, Zsum_app, Zsum_replicate_0.
      rewrite Z.add_0_r.
      rewrite (wrap_Zsum_wrap (fun t => Zsum (elem array <$> own t))).
      rewrite <- (Zsum_bind (fun t => elem array <$> own t)).
      rewrite <- (fmap_bind_comm own).
      unfold own. rewrite (schedule_cover (schedule N team) N team Hsched).
      rewrite <- Ha. by rewrite fmap_elem_seqZ.
    + rewrite Hvis. apply bind_ext_in. intros t _. apply list_fmap_id.
Qed.

Lemma reduction_linear_spec array :
  Z.of_nat (length array) = N →
  reduction_linear schedule team array N T 0
  = Done {| total := wrap (Zsum array);
            visited := seqZ 0 team
                         ≫= (fun t => filter (fun i => schedule N team i = t)
                                        (seqZ 0 N)) |}.
Proof.
  intros Ha. unfold reduction_linear.
  destruct (shared_loop_spec team array (replicate (Z.to_nat team) 0))
    as (st & -> & Hl & Hsum & Hvis);
    [lia|done|by rewrite length_replicate|by rewrite fmap_replicate|].
  cbn.
  change (for_range 0 team _ 0)
    with (for_range 0 team
            (fun i total => p ← load (slots st) i; Done (wrap (total + id p))) 0).
  rewrite (reduce_residues id team (slots st)) by (lia || done).
  rewrite Hsum. cbn. by rewrite Hvis.
Qed.

Lemma bad_fs_branch_spec (malloc_ok : Z → bool) (junk : Z) array w :
  Z.of_nat (length array) = N → malloc_ok (T * 8) = true →
  bad_fs_branch malloc_ok junk schedule team array N T 0 w
  = (Done {| total := wrap (Zsum array);
             visited := seqZ 0 team
                          ≫= (fun t => filter (fun i => schedule N team i = t)
                                         (seqZ 0 N)) |},
     {| mallocs := mallocs w ++ [T * 8]; printed := printed w |}).
Proof.
  intros Ha Hok. destruct (packed_request T HT) as [Hreq Hlen].
  unfold bad_fs_branch, mbind, M_bind, bindM, malloc, lift.
  cbv zeta. rewrite Hreq, Hok.
  change (block_of (Some ?l)) with l.
  destruct (zero_packed_spec T HT (replicate (Z.to_nat (T * 8 / sizeof_unsigned_long)) junk))
    as (ps & Hz & Hl & Hzero); [by rewrite length_replicate|].
  rewrite Hz. cbn.
  destruct (shared_loop_spec T array ps) as (st & -> & Hl2 & Hsum & Hvis);
    [lia|done..|].
  cbn.
  change (for_range 0 T _ 0)
    with (for_range 0 T
            (fun i total => p ← load (slots st) i; Done (wrap (total + id p))) 0).
  rewrite (reduce_residues id T (slots st)) by (lia || done).
  rewrite Hsum. cbn. by rewrite Hvis.
Qed.

End FalseSharingSimFacts.

Section FalseSharingSimClaims.

Import ArraySum FalseSharingSim.

(** C9 (linear traversal in the simulation).  In the program of file 14 the
    [bad-ma] branch declares [stride = 64] and never uses it: for
    every input, every schedule and every team it is the computation
    of the [good] branch, and the whole run in mode [bad-ma] is the run in
    mode [good].  With one thread, for instance, eight elements are
    read in the order 0, 1, .., 7, where the strided kernel of file 28
    reads them in the order 0, 7, 6, .., 1. *)
Theorem sim_bad_ma_is_linear (malloc_ok : Z → bool) (junk : Z)
    (schedule : Z → Z → Z → Z) (team : Z) (array : list Z)
    (argc size threads sum : Z) (w : world) :
  bad_ma_branch schedule team array size threads sum w
  = good_branch schedule team array size threads sum w
  ∧ FalseSharingSim.main malloc_ok junk schedule team argc "bad-ma" size
      threads w
    = FalseSharingSim.main malloc_ok junk schedule team argc "good" size
        threads w
  ∧ (bad_ma_branch static_schedule 1 [1; 2; 3; 4; 5; 6; 7; 8] 8 1 0
       fresh_world).1
    = Done {| total := 36; visited := [0; 1; 2; 3; 4; 5; 6; 7] |}
  ∧ (sum_bad_ma_strided (fun _ => true) 0 1 8 [1; 2; 3; 4; 5; 6; 7; 8] 8 1 7
       fresh_world).1
    = Done (false, {| total := 36; visited := [0; 7; 6; 5; 4; 3; 2; 1] |}).
Proof. split_and!; reflexivity. Qed.

End FalseSharingSimClaims.

(** ** Argument validation *)

Section Validation.

Variables (malloc_ok : Z → bool) (junk team : Z).
Variable schedule : Z → Z → Z → Z.
Variables (fuel : nat) (rand : nat → Z).

(** C7 (rejection behaviour), with its side conditions.
    The programs of files 28,
    29 and 31 return [EXIT_FAILURE] with nothing allocated and nothing
    printed when the size is 0, the thread count is not positive or
    the mode is not one of [good], [bad-fs], [bad-ma] (or the argument
    count is not 4).  The programs of files 14 and 23 validate the
    mode only: an unknown mode makes them return 1 before any
    allocation.  The program of file 10 returns 1 before any
    allocation when the size is 0; its modes are [good] and [bad]. *)
Theorem rejection_before_allocation (argc : Z) (mode : string)
    (size_arg threads_arg : Z) :
  (wrap size_arg = 0 ∨ threads_arg ≤ 0
   ∨ ArraySum.valid_mode mode = false) →
  ArraySum.main_28 malloc_ok junk team fuel argc mode size_arg threads_arg
    fresh_world = (Done EXIT_FAILURE, fresh_world)
  ∧ ArraySum.main_29 malloc_ok junk team rand argc mode size_arg threads_arg
      fresh_world = (Done EXIT_FAILURE, fresh_world)
  ∧ MatrixCompare.main malloc_ok junk team fuel rand argc mode size_arg
      threads_arg fresh_world = (Done EXIT_FAILURE, fresh_world)
  ∧ (ArraySum.valid_mode mode = false →
     FalseSharingSim.main malloc_ok junk schedule team argc mode size_arg
       threads_arg fresh_world = (Done 1, fresh_world)
     ∧ MatrixInit.main malloc_ok junk schedule team fuel argc mode
         size_arg threads_arg fresh_world = (Done 1, fresh_world))
  ∧ (wrap size_arg = 0 →
     PerformanceVariation.main malloc_ok junk fuel rand argc mode size_arg
       fresh_world = (Done 1, fresh_world))
  ∧ EXIT_FAILURE ≠ EXIT_SUCCESS.
Proof.
  intros Hbad.
  unfold ArraySum.main_28, ArraySum.main_29, MatrixCompare.main,
    FalseSharingSim.main, MatrixInit.main, PerformanceVariation.main,
    MatrixCompare.valid_mode, FalseSharingSim.valid_mode,
    MatrixInit.valid_mode.
  split_and!.
  - destruct (argc =? 4); [|done]. simpl.
    destruct (ArraySum.valid_mode mode) eqn:Hm; [|done]. simpl.
    destruct (Z.eqb_spec (wrap size_arg) 0); [done|].
    destruct (Z.leb_spec threads_arg 0); [done|].
    destruct Hbad as [?|[?|?]]; (lia || done).
  - destruct (argc =? 4); [|done]. simpl.
    destruct (ArraySum.valid_mode mode) eqn:Hm; [|done]. simpl.
    destruct (Z.eqb_spec (wrap size_arg) 0); [done|].
    destruct (Z.leb_spec threads_arg 0); [done|].
    destruct Hbad as [?|[?|?]]; (lia || done).
  - destruct (argc =? 4); [|done]. simpl.
    fold (ArraySum.valid_mode mode).
    destruct (ArraySum.valid_mode mode) eqn:Hm; [|done]. simpl.
    destruct (Z.eqb_spec (wrap size_arg) 0); [done|].
    destruct (Z.leb_spec threads_arg 0); [done|].
    destruct Hbad as [?|[?|?]]; (lia || done).
  - intros Hm. fold (ArraySum.valid_mode mode). rewrite Hm.
    by destruct (argc <? 4).
  - intros ->. by destruct (argc <? 3).
  - done.
Qed.

End Validation.

Section ValidationExamples.

Lemma rejection_before_allocation_witness :
  ArraySum.main_28 (fun _ => true) 0 4 10 4 "fast" 0 4 fresh_world
  = (Done EXIT_FAILURE, fresh_world)
  ∧ ArraySum.main_29 (fun _ => true) 0 4 (fun _ => 0) 4 "fast" 0 4 fresh_world
    = (Done EXIT_FAILURE, fresh_world)
  ∧ MatrixCompare.main (fun _ => true) 0 4 10 (fun _ => 0) 4 "fast" 0 4
      fresh_world = (Done EXIT_FAILURE, fresh_world)
  ∧ FalseSharingSim.main (fun _ => true) 0 static_schedule 4 4 "fast" 0 4
      fresh_world = (Done 1, fresh_world)
  ∧ MatrixInit.main (fun _ => true) 0 static_schedule 4 10 4 "fast" 0 4
      fresh_world = (Done 1, fresh_world)
  ∧ PerformanceVariation.main (fun _ => true) 0 10 (fun _ => 0) 4 "fast" 0
      fresh_world = (Done 1, fresh_world).
Proof.
  destruct (rejection_before_allocation (fun _ => true) 0 4 static_schedule 10
              (fun _ => 0) 4 "fast" 0 4)
    as (H28 & H29 & H31 & Hmode & Hsize & _).
  - left. reflexivity.
  - destruct (Hmode eq_refl) as [H14 H23].
    exact (conj H28 (conj H29 (conj H31 (conj H14 (conj H23 (Hsize eq_refl)))))).
Defined.

(** C7, failing instances of the unrestricted statement.
    The program of
    file 14 run with size 0 requests a block and returns 0; so does
    the program of file 23; the program of file 10 given an unknown
    mode allocates the array before it returns 1. *)
Lemma unvalidated_runs_allocate :
  FalseSharingSim.main (fun _ => true) 0 static_schedule 4 4 "good" 0 4
    fresh_world
  = (Done 0, {| mallocs := [0]; printed := [0] |})
  ∧ MatrixInit.main (fun _ => true) 0 static_schedule 4 0 4 "good" 0 4
      fresh_world
    = (Done 0, {| mallocs := [0; 0]; printed := [] |})
  ∧ PerformanceVariation.main (fun _ => true) 0 0 (fun _ => 0) 3 "fast" 10
      fresh_world
    = (Done 1, {| mallocs := [80]; printed := [] |}).
Proof. split_and!; reflexivity. Qed.

End ValidationExamples.

(** ** The matrix program of file 23 *)

Section MatrixInitFacts.

Import MatrixInit.

Lemma bind_assoc {A B C} (f : A → list B) (g : B → list C) (l : list A) :
  (l ≫= f) ≫= g = l ≫= (fun x => f x ≫= g).
Proof.
  induction l as [|x l IH]; [done|]. cbn. rewrite bind_app. f_equal. apply IH.
Qed.

Lemma wrote_nil v m : wrote [] v m m.
Proof.
  split_and!; [done|by rewrite app_nil_r|done|].
  intros o. by rewrite bool_decide_eq_false_2 by apply not_elem_of_nil.
Qed.

Lemma wrote_app l1 l2 v m m1 m2 :
  wrote l1 v m m1 → wrote l2 v m1 m2 → wrote (l1 ++ l2) v m m2.
Proof.
  intros (Hr1 & Hw1 & Hl1 & Hb1) (Hr2 & Hw2 & Hl2 & Hb2). split_and!.
  - congruence.
  - by rewrite Hw2, Hw1, app_assoc.
  - congruence.
  - intros o. rewrite Hb2, Hb1.
    destruct (bool_decide_reflect (Z.of_nat o ∈ l2)) as [H2|H2].
    + by rewrite bool_decide_eq_true_2 by (apply elem_of_app; auto).
    + destruct (bool_decide_reflect (Z.of_nat o ∈ l1)) as [H1|H1].
      * by rewrite bool_decide_eq_true_2 by (apply elem_of_app; auto).
      * rewrite bool_decide_eq_false_2; [done|].
        rewrite elem_of_app. tauto.
Qed.

Lemma write_cell_wrote i j v row m :
  0 ≤ i → rows m !! Z.to_nat i = Some row →
  0 ≤ row + j < Z.of_nat (length (a_block m)) →
  ∃ m', write_cell i j v m = Done m' ∧ wrote [row + j] v m m'.
Proof.
  intros Hi Hrow Hoff. unfold write_cell.
  rewrite (load_Done _ i row) by done. cbn.
  rewrite store_Done by done. cbn.
  eexists. split; [done|]. split_and!; simpl; [done|done|by rewrite length_insert|].
  intros o. destruct (decide (o = Z.to_nat (row + j))) as [->|Hne].
  - rewrite list_lookup_insert_eq by lia.
    rewrite bool_decide_eq_true_2; [done|].
    apply list_elem_of_singleton. lia.
  - rewrite list_lookup_insert_ne by done.
    rewrite bool_decide_eq_false_2; [done|].
    rewrite list_elem_of_singleton. lia.
Qed.

(** A loop whose every step writes cells. *)
Lemma iterate_wrote (R : list Z) (L : nat) v (offs : Z → list Z)
    (body : Z → matrix → outcome matrix) l m :
  (∀ k m, k ∈ l → rows m = R → length (a_block m) = L →
          ∃ m', body k m = Done m' ∧ wrote (offs k) v m m') →
  rows m = R → length (a_block m) = L →
  ∃ m', iterate body l m = Done m' ∧ wrote (l ≫= offs) v m m'.
Proof.
  revert m. induction l as [|k l IH]; intros m Hbody HR HL.
  - exists m. split; [done|]. apply wrote_nil.
  - destruct (Hbody k m ltac:(left) HR HL) as (m1 & Hb & Hw1).
    destruct (IH m1) as (m2 & Hrun & Hw2).
    { intros. apply Hbody; [by right|done..]. }
    { destruct Hw1 as (? & _). congruence. }
    { destruct Hw1 as (_ & _ & ? & _). congruence. }
    exists m2. split.
    + cbn. by rewrite Hb.
    + cbn. by eapply wrote_app.
Qed.

Variable schedule : Z → Z → Z → Z.
Variables N T team : Z.
Hypothesis HN : 1 ≤ N.
Hypothesis Hsched : valid_schedule (schedule N team) N team.

Lemma lookup_row_offsets i :
  0 ≤ i < N → row_offsets N !! Z.to_nat i = Some (i * N).
Proof.
  intros Hi. unfold row_offsets.
  rewrite list_lookup_fmap, lookup_seqZ_lt by lia. simpl.
  do 2 f_equal. lia.
Qed.

Lemma assign_rows_spec (rows0 : list Z) :
  (N - 1) * N ≤ INT_MAX → Z.of_nat (length rows0) = N →
  assign_rows rows0 N = Done (row_offsets N).
Proof.
  intros Hmax Hlen. unfold assign_rows.
  destruct (for_range_inv
    (fun i a => length a = length rows0
                ∧ take (Z.to_nat i) a = (fun i => i * N) <$> seqZ 0 i)
    0 N (fun i rows => off ← int_mul i N; store rows i off) rows0)
    as (a & -> & Hl & Ht); [lia|done| |].
  - intros i a Hi [Hl Ht]. unfold int_mul.
    assert (- INT_MAX - 1 ≤ i * N ≤ INT_MAX) as [? ?].
    { unfold INT_MAX in *. nia. }
    destruct (Z.leb_spec (- INT_MAX - 1) (i * N)); [|lia].
    destruct (Z.leb_spec (i * N) INT_MAX); [|lia]. cbn.
    rewrite store_Done by lia.
    eexists. split; [done|]. split; [by rewrite length_insert|].
    replace (Z.to_nat (i + 1)) with (Datatypes.S (Z.to_nat i)) by lia.
    rewrite (take_S_r _ _ (i * N)) by (apply list_lookup_insert_eq; lia).
    rewrite take_insert_ge, Ht by lia.
    by rewrite (seqZ_app 0 i 1), fmap_app by lia.
  - f_equal. unfold row_offsets. rewrite <- Ht. rewrite take_ge; [done|]. lia.
Qed.

(** Row-major and column-major enumerations of the cells. *)
Lemma row_major_cells :
  seqZ 0 N ≫= (fun i => seqZ 0 N ≫= (fun j => [i * N + j])) = seqZ 0 (N * N).
Proof.
  rewrite (bind_ext_in _ (fun i => seqZ (i * N) N)).
  - replace (N) with (Z.of_nat (Z.to_nat N)) at 1 by lia.
    rewrite seqZ_chunks by lia. by rewrite Z2Nat.id by lia.
  - intros i _.
    transitivity (Z.add (i * N) <$> seqZ 0 N).
    + clear. induction (seqZ 0 N) as [|j l IH]; [done|]. cbn. by rewrite <- IH.
    + by rewrite fmap_add_seqZ, Z.add_0_r.
Qed.

Lemma column_major_cells :
  seqZ 0 N ≫= (fun j => seqZ 0 N ≫= (fun i => [i * N + j]))
  ≡ₚ seqZ 0 (N * N).
Proof.
  apply NoDup_Permutation.
  - apply NoDup_bind; [| |apply NoDup_seqZ].
    + intros j1 j2 x [? ?]%elem_of_seqZ [? ?]%elem_of_seqZ
        (i1 & ->%list_elem_of_singleton & [? ?]%elem_of_seqZ)%list_elem_of_bind
        (i2 & Heq%list_elem_of_singleton & [? ?]%elem_of_seqZ)%list_elem_of_bind.
      destruct (Z.lt_trichotomy i1 i2) as [?|[?|?]]; nia.
    + intros j _. apply NoDup_bind; [| |apply NoDup_seqZ].
      * intros i1 i2 x _ _ ->%list_elem_of_singleton Heq%list_elem_of_singleton.
        nia.
      * intros. apply NoDup_singleton.
  - apply NoDup_seqZ.
  - intros x. rewrite list_elem_of_bind, elem_of_seqZ. split.
    + intros (j & (i & ->%list_elem_of_singleton & [? ?]%elem_of_seqZ)%list_elem_of_bind
                & [? ?]%elem_of_seqZ). nia.
    + intros Hx. exists (x mod N).
      pose proof (Z.mod_pos_bound x N ltac:(lia)).
      pose proof (Z.div_mod x N ltac:(lia)).
      assert (0 ≤ x / N) by (apply Z.div_pos; lia).
      assert (x / N < N) by (apply Z.div_lt_upper_bound; lia).
      split; [|apply elem_of_seqZ; lia].
      apply list_elem_of_bind. exists (x / N).
      split; [apply list_elem_of_singleton; lia|apply elem_of_seqZ; lia].
Qed.

(** A block whose every cell was written holds the value everywhere. *)
Lemma wrote_everywhere offs v m m' :
  wrote offs v m m' → offs ≡ₚ seqZ 0 (N * N) →
  Z.of_nat (length (a_block m)) = N * N →
  a_block m' = replicate (Z.to_nat (N * N)) v.
Proof.
  intros (_ & _ & Hl & Hb) Hp Hlen. apply list_eq. intros o.
  rewrite Hb. destruct (decide (Z.of_nat o < N * N)) as [Ho|Ho].
  - rewrite bool_decide_eq_true_2
      by (rewrite Hp; apply elem_of_seqZ; lia).
    by rewrite lookup_replicate_2 by lia.
  - rewrite bool_decide_eq_false_2
      by (rewrite Hp, elem_of_seqZ; lia).
    rewrite lookup_ge_None_2 by lia. symmetry.
    apply lookup_replicate_None. lia.
Qed.

Lemma good_mode_spec blk :
  Z.of_nat (length blk) = N * N →
  ∃ m', good_mode schedule team
          {| rows := row_offsets N; a_block := blk; writes := [] |} N T
        = Done m'
        ∧ rows m' = row_offsets N
        ∧ a_block m' = replicate (Z.to_nat (N * N)) 17
        ∧ writes m' ≡ₚ seqZ 0 (N * N).
Proof.
  intros Hblk. unfold good_mode, parallel_for, parallel. rewrite Z.sub_0_r.
  set (own := fun t => filter (fun i => schedule N team i = t) (seqZ 0 N)).
  destruct (iterate_wrote (row_offsets N) (length blk) 17
              (fun t => own t ≫= (fun i => seqZ 0 N ≫= (fun j => [i * N + j])))
              (fun tid => iterate (fun i a => for_range 0 N (fun j a => write_cell i j 17 a) a)
                            (own tid))
              (seqZ 0 team)
              {| rows := row_offsets N; a_block := blk; writes := [] |})
    as (m' & Hrun & Hw); [|done|done|].
  - intros t m _ HR HL.
    apply (iterate_wrote (row_offsets N) (length blk)); [|done..].
    intros i m1 [_ [? ?]%elem_of_seqZ]%list_elem_of_filter HR1 HL1.
    unfold for_range. rewrite Z.sub_0_r.
    apply (iterate_wrote (row_offsets N) (length blk)); [|done..].
    intros j m2 [? ?]%elem_of_seqZ HR2 HL2.
    apply write_cell_wrote; [lia|rewrite HR2; apply lookup_row_offsets; lia|].
    rewrite HL2. nia.
  - exists m'. split; [exact Hrun|].
    assert (seqZ 0 team ≫= (fun t => own t ≫= (fun i => seqZ 0 N ≫= (fun j => [i * N + j])))
            ≡ₚ seqZ 0 (N * N)) as Hp.
    { rewrite <- bind_assoc. unfold own.
      rewrite (schedule_cover (schedule N team) N team Hsched).
      by rewrite row_major_cells. }
    split_and!.
    + by destruct Hw as (-> & _).
    + by eapply wrote_everywhere.
    + destruct Hw as (_ & -> & _). by rewrite Hp.
Qed.

Lemma bad_ma_mode_spec blk :
  Z.of_nat (length blk) = N * N →
  ∃ m', bad_ma_mode schedule team
          {| rows := row_offsets N; a_block := blk; writes := [] |} N T
        = Done m'
        ∧ rows m' = row_offsets N
        ∧ a_block m' = replicate (Z.to_nat (N * N)) 17
        ∧ writes m' ≡ₚ seqZ 0 (N * N).
Proof.
  intros Hblk. unfold bad_ma_mode, parallel_for, parallel. rewrite Z.sub_0_r.
  set (own := fun t => filter (fun i => schedule N team i = t) (seqZ 0 N)).
  destruct (iterate_wrote (row_offsets N) (length blk) 17
              (fun t => own t ≫= (fun j => seqZ 0 N ≫= (fun i => [i * N + j])))
              (fun tid => iterate (fun j a => for_range 0 N (fun i a => write_cell i j 17 a) a)
                            (own tid))
              (seqZ 0 team)
              {| rows := row_offsets N; a_block := blk; writes := [] |})
    as (m' & Hrun & Hw); [|done|done|].
  - intros t m _ HR HL.
    apply (iterate_wrote (row_offsets N) (length blk)); [|done..].
    intros j m1 [_ [? ?]%elem_of_seqZ]%list_elem_of_filter HR1 HL1.
    unfold for_range. rewrite Z.sub_0_r.
    apply (iterate_wrote (row_offsets N) (length blk)); [|done..].
    intros i m2 [? ?]%elem_of_seqZ HR2 HL2.
    apply write_cell_wrote; [lia|rewrite HR2; apply lookup_row_offsets; lia|].
    rewrite HL2. nia.
  - exists m'. split; [exact Hrun|].
    assert (seqZ 0 team ≫= (fun t => own t ≫= (fun j => seqZ 0 N ≫= (fun i => [i * N + j])))
            ≡ₚ seqZ 0 (N * N)) as Hp.
    { rewrite <- bind_assoc. unfold own.
      rewrite (schedule_cover (schedule N team) N team Hsched).
      by rewrite column_major_cells. }
    split_and!.
    + by destruct Hw as (-> & _).
    + by eapply wrote_everywhere.
    + destruct Hw as (_ & -> & _). by rewrite Hp.
Qed.

End MatrixInitFacts.

Section MatrixInitRuns.

Import MatrixInit.

Variables (malloc_ok : Z → bool) (junk : Z).
Variable schedule : Z → Z → Z → Z.
Variables N T team : Z.
Hypothesis HN : 1 ≤ N.
Hypothesis Hrows : (N - 1) * N ≤ INT_MAX.
Hypothesis Hsched : valid_schedule (schedule N team) N team.
Hypothesis Hok_rows : malloc_ok (8 * N) = true.
Hypothesis Hok_block : malloc_ok (4 * N * N) = true.

Lemma read_cell_17 m :
  rows m = row_offsets N → a_block m = replicate (Z.to_nat (N * N)) 17 →
  17 < N → read_cell 17 17 m = Done 17.
Proof.
  intros HR HB H17. unfold read_cell.
  rewrite (load_Done _ 17 (17 * N))
    by (lia || (rewrite HR; apply lookup_row_offsets; lia)).
  cbn. rewrite HB. apply load_Done; [lia|].
  apply lookup_replicate_2. nia.
Qed.

Lemma matrix_requests :
  wrap (sizeof_pointer * N) = 8 * N
  ∧ wrap (sizeof_int * N * N) = 4 * N * N
  ∧ 8 * N / sizeof_pointer = N
  ∧ 4 * N * N / sizeof_int = N * N.
Proof.
  change sizeof_pointer with 8. change sizeof_int with 4.
  assert (N * N ≤ INT_MAX + N) by lia.
  assert (N ≤ INT_MAX + 1) by nia.
  unfold INT_MAX in *. split_and!.
  - apply wrap_small. unfold ULONG_MODULUS. lia.
  - apply wrap_small. unfold ULONG_MODULUS. nia.
  - by rewrite Z.mul_comm, Z.div_mul.
  - replace (4 * N * N) with (N * N * 4) by lia. by rewrite Z.div_mul.
Qed.

(** The run of the program in a mode that writes 17 everywhere. *)
Lemma matrix_main_spec (fuel : nat) (argc : Z) (mode : string) :
  4 ≤ argc → mode = "good" ∨ mode = "bad-ma" →
  main malloc_ok junk schedule team fuel argc mode N T fresh_world
  = (Done 0, {| mallocs := [8 * N; 4 * N * N];
                printed := if 17 <? N then [17] else [] |}).
Proof.
  intros Hargc Hmode.
  destruct matrix_requests as (Hr1 & Hr2 & Hd1 & Hd2).
  unfold main. destruct (Z.ltb_spec argc 4); [lia|].
  assert (valid_mode mode = true) as -> by (by destruct Hmode as [->| ->]).
  unfold mbind, M_bind, bindM, malloc, lift, print, mret, M_ret, ret.
  cbn [negb fresh_world mallocs printed app].
  rewrite Hr1, Hok_rows, Hr2, Hok_block, Hd1, Hd2.
  rewrite assign_rows_spec by (done || (rewrite length_replicate; lia)).
  destruct (good_mode_spec schedule N T team HN Hsched
              (replicate (Z.to_nat (N * N)) junk))
    as (mg & Hg & HRg & Hbg & _); [rewrite length_replicate; nia|].
  destruct (bad_ma_mode_spec schedule N T team HN Hsched
              (replicate (Z.to_nat (N * N)) junk))
    as (mb & Hb & HRb & Hbb & _); [rewrite length_replicate; nia|].
  destruct Hmode as [-> | ->]; cbn [String.eqb Ascii.eqb Bool.eqb].
  - rewrite Hg. destruct (Z.ltb_spec 17 N); [|done].
    by rewrite read_cell_17.
  - rewrite Hb. destruct (Z.ltb_spec 17 N); [|done].
    by rewrite read_cell_17.
Qed.

End MatrixInitRuns.

(** ** Coverage and thread-count invariance *)

Section CoverageClaims.

Variables (malloc_ok : Z → bool) (junk : Z).
Variable schedule : Z → Z → Z → Z.
Variable fuel : nat.

(** C4 (every element exactly once), with its side conditions.
    For [N >= 1]
    elements, [T >= 1] threads asked for and a team of
    [1 <= team <= T] threads:
    - when the team is the one asked for ([team = T]), the partitioned
      kernels ([sum_good], [sum_bad_fs], the shuffled
      [sum_bad_ma] for every permutation, [compare_good],
      [compare_bad_fs], [compare_bad_ma]) read every index of [0, N)
      exactly once, and the strided [sum_bad_ma] does so when the
      stride is coprime with [N] and no product [i * stride] wraps;
    - with every team, the three branches of the
      program of file 14 (under every schedule that deals each
      iteration to a worker of the team) read every index of [0, N)
      exactly once;
    - with every team, [good_mode] and [bad_ma_mode] of the matrix
      program write each of the [N * N] cells exactly once. *)
Theorem every_element_processed_once (team N T stride : Z)
    (array A B shuffled blk : list Z) :
  1 ≤ N < ULONG_MODULUS → 1 ≤ T ≤ INT_MAX → 1 ≤ team ≤ T →
  Z.of_nat (length array) = N →
  Z.of_nat (length A) = N → Z.of_nat (length B) = N →
  Z.of_nat (length blk) = N * N →
  malloc_ok (T * 64) = true → malloc_ok (T * 8) = true →
  shuffled ≡ₚ seqZ 0 N →
  valid_schedule (schedule N team) N team →
  (team = T →
   processed_once N
     (ArraySum.sum_good malloc_ok junk team array N T fresh_world).1
   ∧ processed_once N
       (ArraySum.sum_bad_fs malloc_ok junk team array N T fresh_world).1
   ∧ processed_once N
       (ArraySum.sum_bad_ma_shuffled malloc_ok junk team array N T shuffled
          fresh_world).1
   ∧ processed_once N
       (MatrixCompare.compare_good malloc_ok junk team A B N T fresh_world).1
   ∧ processed_once N
       (MatrixCompare.compare_bad_fs malloc_ok junk team A B N T
          fresh_world).1
   ∧ processed_once N
       (MatrixCompare.compare_bad_ma malloc_ok junk team A B N T shuffled
          fresh_world).1
   ∧ (allocatable N sizeof_unsigned_long → N ≤ Z.of_nat fuel →
      0 ≤ stride → (N - 1) * stride < ULONG_MODULUS → Z.gcd stride N = 1 →
      ∃ rep, (ArraySum.sum_bad_ma_strided malloc_ok junk team fuel array N T
                stride fresh_world).1 = Done (false, rep)
             ∧ visited rep ≡ₚ seqZ 0 N))
  ∧ processed_once N
      (FalseSharingSim.good_branch schedule team array N T 0 fresh_world).1
  ∧ processed_once N
      (FalseSharingSim.bad_fs_branch malloc_ok junk schedule team array N T 0
         fresh_world).1
  ∧ processed_once N
      (FalseSharingSim.bad_ma_branch schedule team array N T 0 fresh_world).1
  ∧ (∃ m, MatrixInit.good_mode schedule team
            {| MatrixInit.rows := row_offsets N; MatrixInit.a_block := blk;
               MatrixInit.writes := [] |} N T = Done m
          ∧ MatrixInit.writes m ≡ₚ seqZ 0 (N * N))
  ∧ (∃ m, MatrixInit.bad_ma_mode schedule team
            {| MatrixInit.rows := row_offsets N; MatrixInit.a_block := blk;
               MatrixInit.writes := [] |} N T = Done m
          ∧ MatrixInit.writes m ≡ₚ seqZ 0 (N * N)).
Proof.
  intros HN HT Hteam Ha HA HB Hblk Hok64 Hok8 Hperm Hsched.
  assert (0 ≤ N < ULONG_MODULUS) as HN0 by lia.
  assert (seqZ 0 team
            ≫= (fun t => filter (fun i => schedule N team i = t) (seqZ 0 N))
          ≡ₚ seqZ 0 N) as Hcover by (by apply schedule_cover).
  split_and!.
  - intros ->. split_and!.
    + rewrite (sum_good_spec malloc_ok junk N T) by done. by eexists.
    + rewrite (sum_bad_fs_spec malloc_ok junk N T) by done. by eexists.
    + rewrite (sum_bad_ma_shuffled_spec malloc_ok junk N T) by done.
      by eexists.
    + rewrite (compare_good_spec malloc_ok junk N T) by done. by eexists.
    + rewrite (compare_bad_fs_spec malloc_ok junk N T) by done. by eexists.
    + rewrite (compare_bad_ma_spec malloc_ok junk N T) by done. by eexists.
    + intros Halloc Hfuel Hs Hprod Hg.
      assert (N + T ≤ ULONG_MODULUS).
      { unfold allocatable, sizeof_unsigned_long, ULONG_MODULUS, INT_MAX in *.
        lia. }
      rewrite (sum_bad_ma_strided_spec malloc_ok junk N T) by (lia || done).
      rewrite Hg. eexists. split; [done|]. simpl.
      rewrite (strided_visits_perm N T) by (lia || done).
      apply (strided_index_perm N); (lia || done).
  - unfold FalseSharingSim.good_branch, lift. simpl.
    rewrite (reduction_linear_spec schedule N T team) by (lia || done).
    by eexists.
  - rewrite (bad_fs_branch_spec schedule N T team) by (lia || done).
    by eexists.
  - unfold FalseSharingSim.bad_ma_branch, lift. simpl.
    rewrite (reduction_linear_spec schedule N T team) by (lia || done).
    by eexists.
  - destruct (good_mode_spec schedule N T team ltac:(lia) Hsched blk Hblk)
      as (m & Hrun & _ & _ & Hw).
    by exists m.
  - destruct (bad_ma_mode_spec schedule N T team ltac:(lia) Hsched blk Hblk)
      as (m & Hrun & _ & _ & Hw).
    by exists m.
Qed.

End CoverageClaims.

Section CoverageExamples.

Lemma every_element_processed_once_witness :
  processed_once 10
    (ArraySum.sum_good (fun _ => true) 0 3 (seqZ 1 10) 10 3 fresh_world).1
  ∧ (∃ rep, (ArraySum.sum_bad_ma_strided (fun _ => true) 0 3 10 (seqZ 1 10)
               10 3 7 fresh_world).1 = Done (false, rep)
            ∧ visited rep ≡ₚ seqZ 0 10)
  ∧ (∃ m, MatrixInit.bad_ma_mode static_schedule 3
            {| MatrixInit.rows := row_offsets 10;
               MatrixInit.a_block := replicate 100 0;
               MatrixInit.writes := [] |} 10 3 = Done m
          ∧ MatrixInit.writes m ≡ₚ seqZ 0 (10 * 10)).
Proof.
  destruct (every_element_processed_once (fun _ => true) 0 static_schedule 10
              3 10 3 7 (seqZ 1 10) (matrix_A 10) (matrix_B 10)
              (reverse (seqZ 0 10)) (replicate 100 0))
    as (Hkernels & _ & _ & _ & _ & Hcolumns).
  - split; [lia|reflexivity].
  - split; [lia|by vm_compute].
  - lia.
  - reflexivity.
  - reflexivity.
  - reflexivity.
  - reflexivity.
  - reflexivity.
  - reflexivity.
  - apply reverse_Permutation.
  - apply static_schedule_valid; lia.
  - destruct (Hkernels eq_refl) as (Hgood & _ & _ & _ & _ & _ & Hstrided).
    split; [exact Hgood|]. split; [|exact Hcolumns].
    apply Hstrided; [by vm_compute|lia|lia|by vm_compute|reflexivity].
Defined.

(** C4, failing instances of the statement for every mode and every
    run.  With seven elements the
    program's stride 7 is not coprime with the length: the warning is
    printed and index 0 is read seven times.  With ten elements and
    four threads asked for, a team of two reads the indices 0 to 3
    only.  In the matrix program,
    [bad_fs_mode] with two threads on a 2 x 2 matrix writes the cells
    at offsets 0 and 3 only. *)
Lemma some_elements_not_processed :
  (ArraySum.sum_bad_ma_strided (fun _ => true) 0 1 7 (seqZ 1 7) 7 1 7
     fresh_world).1
  = Done (true, {| total := 7; visited := [0; 0; 0; 0; 0; 0; 0] |})
  ∧ ¬ ([0; 0; 0; 0; 0; 0; 0] ≡ₚ seqZ 0 7)
  ∧ (ArraySum.sum_good (fun _ => true) 0 2 (seqZ 1 10) 10 4 fresh_world).1
    = Done {| total := 10; visited := [0; 1; 2; 3] |}
  ∧ ¬ ([0; 1; 2; 3] ≡ₚ seqZ 0 10)
  ∧ MatrixInit.bad_fs_mode static_schedule 2 2
      {| MatrixInit.rows := row_offsets 2;
         MatrixInit.a_block := [0; 0; 0; 0];
         MatrixInit.writes := [] |} 2 2
    = Done {| MatrixInit.rows := [0; 2];
              MatrixInit.a_block := [17; 0; 0; 18];
              MatrixInit.writes := [0; 3] |}
  ∧ ¬ ([0; 3] ≡ₚ seqZ 0 (2 * 2)).
Proof.
  split_and!; [reflexivity| |reflexivity| |reflexivity|].
  - intros Hp. assert (1 ∈ [0; 0; 0; 0; 0; 0; 0]) as Hin
      by (rewrite Hp; apply elem_of_seqZ; lia).
    repeat (apply elem_of_cons in Hin as [?|Hin]; [done|]).
    by apply elem_of_nil in Hin.
  - intros Hp. by apply Permutation_length in Hp.
  - intros Hp. by apply Permutation_length in Hp.
Qed.

End CoverageExamples.

Section InvarianceClaims.

Variables (malloc_ok : Z → bool) (junk : Z).
Variable schedule : Z → Z → Z → Z.
Variable fuel : nat.

(** C8 (thread-count invariance), with its side conditions.
    For a fixed input and a
    fixed mode, two runs with thread counts [T] and [T'], both at least
    1 (in particular 1, 2, 4 and 8), and teams of [1 <= team <= T] and
    [1 <= team' <= T'] threads end with the same scalar:
    - when each team is the one asked for ([team = T], [team' = T']),
      the sum in every mode of the sum programs of files 28 and 29 (for
      the strided kernel whatever the stride) and the mismatch count in
      every mode of the comparison program;
    - with every two teams, the sum in the three branches of the
      program of file 14, and in the modes [good] and [bad-ma] of the
      matrix program the same matrix, 17 in every cell, hence the same
      printed cell [17][17]. *)
Theorem thread_count_invariance (N T T' team team' stride argc : Z)
    (array A B shuffled blk : list Z) :
  1 ≤ N < ULONG_MODULUS → 1 ≤ T ≤ INT_MAX → 1 ≤ T' ≤ INT_MAX →
  1 ≤ team ≤ T → 1 ≤ team' ≤ T' →
  Z.of_nat (length array) = N →
  Z.of_nat (length A) = N → Z.of_nat (length B) = N →
  Z.of_nat (length blk) = N * N →
  malloc_ok (T * 64) = true → malloc_ok (T * 8) = true →
  malloc_ok (T' * 64) = true → malloc_ok (T' * 8) = true →
  shuffled ≡ₚ seqZ 0 N →
  valid_schedule (schedule N team) N team →
  valid_schedule (schedule N team') N team' →
  (team = T → team' = T' →
   same_total
     (ArraySum.sum_good malloc_ok junk team array N T fresh_world).1
     (ArraySum.sum_good malloc_ok junk team' array N T' fresh_world).1
   ∧ same_total
       (ArraySum.sum_bad_fs malloc_ok junk team array N T fresh_world).1
       (ArraySum.sum_bad_fs malloc_ok junk team' array N T' fresh_world).1
   ∧ same_total
       (ArraySum.sum_bad_ma_shuffled malloc_ok junk team array N T shuffled
          fresh_world).1
       (ArraySum.sum_bad_ma_shuffled malloc_ok junk team' array N T' shuffled
          fresh_world).1
   ∧ same_total
       (MatrixCompare.compare_good malloc_ok junk team A B N T fresh_world).1
       (MatrixCompare.compare_good malloc_ok junk team' A B N T'
          fresh_world).1
   ∧ same_total
       (MatrixCompare.compare_bad_fs malloc_ok junk team A B N T
          fresh_world).1
       (MatrixCompare.compare_bad_fs malloc_ok junk team' A B N T'
          fresh_world).1
   ∧ same_total
       (MatrixCompare.compare_bad_ma malloc_ok junk team A B N T shuffled
          fresh_world).1
       (MatrixCompare.compare_bad_ma malloc_ok junk team' A B N T' shuffled
          fresh_world).1
   ∧ (allocatable N sizeof_unsigned_long → N ≤ Z.of_nat fuel → 0 ≤ stride →
      same_total
        (strided_report
           (ArraySum.sum_bad_ma_strided malloc_ok junk team fuel array N T
              stride fresh_world).1)
        (strided_report
           (ArraySum.sum_bad_ma_strided malloc_ok junk team' fuel array N T'
              stride fresh_world).1)))
  ∧ same_total
      (FalseSharingSim.good_branch schedule team array N T 0 fresh_world).1
      (FalseSharingSim.good_branch schedule team' array N T' 0 fresh_world).1
  ∧ same_total
      (FalseSharingSim.bad_fs_branch malloc_ok junk schedule team array N T 0
         fresh_world).1
      (FalseSharingSim.bad_fs_branch malloc_ok junk schedule team' array N T' 0
         fresh_world).1
  ∧ same_total
      (FalseSharingSim.bad_ma_branch schedule team array N T 0 fresh_world).1
      (FalseSharingSim.bad_ma_branch schedule team' array N T' 0
         fresh_world).1
  ∧ (∃ m m', MatrixInit.good_mode schedule team
               {| MatrixInit.rows := row_offsets N; MatrixInit.a_block := blk;
                  MatrixInit.writes := [] |} N T = Done m
             ∧ MatrixInit.good_mode schedule team'
                 {| MatrixInit.rows := row_offsets N; MatrixInit.a_block := blk;
                    MatrixInit.writes := [] |} N T' = Done m'
             ∧ MatrixInit.a_block m = MatrixInit.a_block m'
             ∧ MatrixInit.a_block m = replicate (Z.to_nat (N * N)) 17)
  ∧ (∃ m m', MatrixInit.bad_ma_mode schedule team
               {| MatrixInit.rows := row_offsets N; MatrixInit.a_block := blk;
                  MatrixInit.writes := [] |} N T = Done m
             ∧ MatrixInit.bad_ma_mode schedule team'
                 {| MatrixInit.rows := row_offsets N; MatrixInit.a_block := blk;
                    MatrixInit.writes := [] |} N T' = Done m'
             ∧ MatrixInit.a_block m = MatrixInit.a_block m'
             ∧ MatrixInit.a_block m = replicate (Z.to_nat (N * N)) 17)
  ∧ (4 ≤ argc → (N - 1) * N ≤ INT_MAX →
     malloc_ok (8 * N) = true → malloc_ok (4 * N * N) = true →
     ∀ mode, mode = "good" ∨ mode = "bad-ma" →
       MatrixInit.main malloc_ok junk schedule team fuel argc mode N T
         fresh_world
       = MatrixInit.main malloc_ok junk schedule team' fuel argc mode N T'
           fresh_world
       ∧ printed (MatrixInit.main malloc_ok junk schedule team fuel argc mode
                    N T fresh_world).2
         = if 17 <? N then [17] else []).
Proof.
  intros HN HT HT' Hteam Hteam' Ha HA HB Hblk Hok64 Hok8 Hok64' Hok8' Hperm
    Hsched Hsched'.
  assert (0 ≤ N < ULONG_MODULUS) as HN0 by lia.
  split_and!.
  - intros -> ->. split_and!.
    + rewrite !(sum_good_spec malloc_ok junk N) by done.
      by eexists _, _.
    + rewrite !(sum_bad_fs_spec malloc_ok junk N) by done.
      by eexists _, _.
    + rewrite !(sum_bad_ma_shuffled_spec malloc_ok junk N) by done.
      by eexists _, _.
    + rewrite !(compare_good_spec malloc_ok junk N) by done.
      by eexists _, _.
    + rewrite !(compare_bad_fs_spec malloc_ok junk N) by done.
      by eexists _, _.
    + rewrite !(compare_bad_ma_spec malloc_ok junk N) by done.
      by eexists _, _.
    + intros Halloc Hfuel Hs.
      assert (N + T ≤ ULONG_MODULUS ∧ N + T' ≤ ULONG_MODULUS) as [? ?].
      { unfold allocatable, sizeof_unsigned_long, ULONG_MODULUS, INT_MAX in *.
        lia. }
      rewrite !(sum_bad_ma_strided_spec malloc_ok junk N) by (lia || done).
      by eexists _, _.
  - unfold FalseSharingSim.good_branch, lift. simpl.
    rewrite (reduction_linear_spec schedule N T team),
            (reduction_linear_spec schedule N T' team') by (lia || done).
    by eexists _, _.
  - rewrite (bad_fs_branch_spec schedule N T team),
            (bad_fs_branch_spec schedule N T' team') by (lia || done).
    by eexists _, _.
  - unfold FalseSharingSim.bad_ma_branch, lift. simpl.
    rewrite (reduction_linear_spec schedule N T team),
            (reduction_linear_spec schedule N T' team') by (lia || done).
    by eexists _, _.
  - destruct (good_mode_spec schedule N T team ltac:(lia) Hsched blk Hblk)
      as (m & Hrun & _ & Hb & _).
    destruct (good_mode_spec schedule N T' team' ltac:(lia) Hsched' blk Hblk)
      as (m' & Hrun' & _ & Hb' & _).
    exists m, m'. by rewrite Hb, Hb'.
  - destruct (bad_ma_mode_spec schedule N T team ltac:(lia) Hsched blk Hblk)
      as (m & Hrun & _ & Hb & _).
    destruct (bad_ma_mode_spec schedule N T' team' ltac:(lia) Hsched' blk Hblk)
      as (m' & Hrun' & _ & Hb' & _).
    exists m, m'. by rewrite Hb, Hb'.
  - intros Hargc Hrows Hokr Hokb mode Hmode.
    rewrite (matrix_main_spec malloc_ok junk schedule N T team),
            (matrix_main_spec malloc_ok junk schedule N T' team')
      by (lia || done).
    done.
Qed.

End InvarianceClaims.

Section InvarianceExamples.

Lemma thread_count_invariance_witness :
  same_total
    (ArraySum.sum_good (fun _ => true) 0 2 (seqZ 1 20) 20 2 fresh_world).1
    (ArraySum.sum_good (fun _ => true) 0 8 (seqZ 1 20) 20 8 fresh_world).1
  ∧ same_total
      (strided_report
         (ArraySum.sum_bad_ma_strided (fun _ => true) 0 2 20 (seqZ 1 20) 20 2 7
            fresh_world).1)
      (strided_report
         (ArraySum.sum_bad_ma_strided (fun _ => true) 0 8 20 (seqZ 1 20) 20 8 7
            fresh_world).1)
  ∧ MatrixInit.main (fun _ => true) 0 static_schedule 2 20 4 "bad-ma" 20 2
      fresh_world
    = MatrixInit.main (fun _ => true) 0 static_schedule 8 20 4 "bad-ma" 20 8
        fresh_world.
Proof.
  destruct (thread_count_invariance (fun _ => true) 0 static_schedule 20
              20 2 8 2 8 7 4 (seqZ 1 20) (matrix_A 20) (matrix_B 20)
              (reverse (seqZ 0 20)) (replicate 400 0))
    as (Hkernels & _ & _ & _ & _ & _ & Hmain).
  - split; [lia|reflexivity].
  - split; [lia|by vm_compute].
  - split; [lia|by vm_compute].
  - lia.
  - lia.
  - reflexivity.
  - reflexivity.
  - reflexivity.
  - reflexivity.
  - reflexivity.
  - reflexivity.
  - reflexivity.
  - reflexivity.
  - apply reverse_Permutation.
  - apply static_schedule_valid; lia.
  - apply static_schedule_valid; lia.
  - destruct (Hkernels eq_refl eq_refl)
      as (Hgood & _ & _ & _ & _ & _ & Hstrided).
    split; [exact Hgood|]. split.
    + apply Hstrided; [by vm_compute|lia|lia].
    + apply (Hmain ltac:(lia) ltac:(by vm_compute) eq_refl eq_refl "bad-ma").
      by right.
Defined.

(** C8, failing instances of the statement for every mode and every
    run.  In mode [bad-fs] the
    matrix program writes [17 + tid]: on an 18 x 18 matrix the cell
    [17][17] is printed as 17 with one thread and as 18 with two.  The
    sum program run as [good 10 1] prints 55; run as [good 10 4] with
    a team of two threads it prints 10. *)
Lemma result_depends_on_threads :
  MatrixInit.main (fun _ => true) 0 static_schedule 1 18 4 "bad-fs" 18 1
    fresh_world
  = (Done 0, {| mallocs := [144; 1296]; printed := [17] |})
  ∧ MatrixInit.main (fun _ => true) 0 static_schedule 2 18 4 "bad-fs" 18 2
      fresh_world
    = (Done 0, {| mallocs := [144; 1296]; printed := [18] |})
  ∧ ArraySum.main_28 (fun _ => true) 0 1 10 4 "good" 10 1 fresh_world
    = (Done EXIT_SUCCESS, {| mallocs := [80; 64]; printed := [55] |})
  ∧ ArraySum.main_28 (fun _ => true) 0 2 10 4 "good" 10 4 fresh_world
    = (Done EXIT_SUCCESS, {| mallocs := [80; 256]; printed := [10] |}).
Proof. split_and!; reflexivity. Qed.

End InvarianceExamples.

(** * Further properties of the programs *)

(** ** Loading the array *)

Section LoopSplit.

Context {S : Type}.

Lemma for_range_split (body : Z → S → outcome S) lo mid hi s :
  lo ≤ mid ≤ hi →
  for_range lo hi body s
  = s' ← for_range lo mid body s; for_range mid hi body s'.
Proof.
  intros H. unfold for_range.
  replace (hi - lo) with ((mid - lo) + (hi - mid)) by lia.
  rewrite seqZ_app, iterate_app by lia.
  by replace (lo + (mid - lo)) with mid by lia.
Qed.

Lemma for_range_first (body : Z → S → outcome S) lo hi s :
  lo < hi →
  for_range lo hi body s
  = s' ← body lo s; for_range (lo + 1) hi body s'.
Proof.
  intros H. unfold for_range. rewrite seqZ_cons by lia. cbn.
  by replace (Z.pred (hi - lo)) with (hi - (lo + 1)) by lia.
Qed.

End LoopSplit.

Section LoadArrayBounds.

Lemma load_array_prefix (array : list Z) N :
  0 ≤ N < ULONG_MODULUS → N ≤ Z.of_nat (length array) →
  load_array array N
  = Done (((fun i => i + 1) <$> seqZ 0 N) ++ drop (Z.to_nat N) array).
Proof.
  intros HN Hlen. unfold load_array.
  destruct (for_range_inv
    (fun i a => length a = length array
                ∧ take (Z.to_nat i) a = (fun i => i + 1) <$> seqZ 0 i
                ∧ drop (Z.to_nat i) a = drop (Z.to_nat i) array)
    0 N (fun i array => store array i (wrap (i + 1))) array)
    as (a & -> & Hl & Ht & Hd); [lia|done| |].
  - intros i a Hi (Hl & Ht & Hd). rewrite store_Done by lia.
    eexists. split; [done|]. split; [by rewrite length_insert|]. split.
    + replace (Z.to_nat (i + 1)) with (Datatypes.S (Z.to_nat i)) by lia.
      rewrite (take_S_r _ _ (wrap (i + 1)))
        by (apply list_lookup_insert_eq; lia).
      rewrite take_insert_ge, Ht by lia.
      rewrite (seqZ_app 0 i 1), fmap_app by lia. cbn.
      rewrite wrap_small by lia. done.
    + replace (Z.to_nat (i + 1)) with (Datatypes.S (Z.to_nat i)) by lia.
      rewrite drop_insert_lt by lia.
      replace (Datatypes.S (Z.to_nat i)) with (Z.to_nat i + 1)%nat by lia.
      by rewrite <- !drop_drop, Hd.
  - f_equal. by rewrite <- Ht, <- Hd, take_drop.
Qed.

Lemma load_array_short (array : list Z) N :
  N < ULONG_MODULUS → Z.of_nat (length array) < N →
  load_array array N = Fault OutOfBounds.
Proof.
  intros HN Hlen. unfold load_array.
  rewrite (for_range_split _ 0 (Z.of_nat (length array)) N) by lia.
  fold (load_array array (Z.of_nat (length array))).
  rewrite load_array_spec by lia. cbn.
  rewrite for_range_first by lia.
  rewrite store_out; [done|].
  rewrite length_fmap, length_seqZ. lia.
Qed.

End LoadArrayBounds.

(** ** The program of file 28 *)

Section StrideSeven.

Lemma Zsum_affine (a b : Z) (n : nat) :
  2 * Zsum ((fun j => a * j + b) <$> seqZ 0 (Z.of_nat n))
  = a * Z.of_nat n * (Z.of_nat n - 1) + 2 * b * Z.of_nat n.
Proof.
  induction n as [|n IH]; [simpl; lia|].
  rewrite seqZ_S, fmap_app, Zsum_app. simpl. lia.
Qed.

Lemma Zsum_periodic (f : Z → Z) (m : Z) (k : nat) :
  0 ≤ m → (∀ i, f (i + m) = f i) →
  Zsum (f <$> seqZ 0 (Z.of_nat k * m)) = Z.of_nat k * Zsum (f <$> seqZ 0 m).
Proof.
  intros Hm Hf.
  assert (∀ j : nat, ∀ i, f (Z.of_nat j * m + i) = f i) as Hshift.
  { induction j as [|j IH]; intros i; [by rewrite Z.add_0_l|].
    replace (Z.of_nat (Datatypes.S j) * m + i) with ((Z.of_nat j * m + i) + m) by lia.
    by rewrite Hf. }
  induction k as [|k IH]; [done|].
  replace (Z.of_nat (Datatypes.S k) * m) with (Z.of_nat k * m + m) by lia.
  rewrite seqZ_app, fmap_app, Zsum_app, IH by lia.
  rewrite Z.add_0_l, <- (Z.add_0_r (Z.of_nat k * m)) at 1.
  rewrite <- fmap_add_seqZ, <- list_fmap_compose.
  assert (f ∘ Z.add (Z.of_nat k * m) <$> seqZ 0 m = f <$> seqZ 0 m) as ->.
  { apply list_fmap_ext. intros ? i _. apply Hshift. }
  lia.
Qed.

Lemma gcd_seven (N : Z) : Z.gcd 7 N = 1 ↔ N mod 7 ≠ 0.
Proof.
  rewrite <- Z.gcd_mod by lia.
  pose proof (Z.mod_pos_bound N 7 ltac:(lia)) as Hr.
  assert (N mod 7 = 0 ∨ N mod 7 = 1 ∨ N mod 7 = 2 ∨ N mod 7 = 3
          ∨ N mod 7 = 4 ∨ N mod 7 = 5 ∨ N mod 7 = 6) as Hc by lia.
  destruct Hc as [->|[->|[->|[->|[->|[->| ->]]]]]]; by vm_compute.
Qed.

(** With the stride 7 on an array whose length is a multiple of 7,
    iteration [i] reads index [7 * (i mod (N / 7))]. *)
Lemma strided_sum_seven (N : Z) :
  1 ≤ N → 7 * N ≤ ULONG_MODULUS → N mod 7 = 0 →
  Zsum ((fun i => elem ((fun i => i + 1) <$> seqZ 0 N) (strided_index N 7 i))
          <$> seqZ 0 N)
  = N * (N + 1) / 2 - 3 * N.
Proof.
  intros H1 Hw H7.
  set (m := N / 7).
  assert (N = 7 * m) as HN by (unfold m; Z.div_mod_to_equations; lia).
  assert (1 ≤ m) by lia.
  assert ((fun i => elem ((fun i => i + 1) <$> seqZ 0 N) (strided_index N 7 i))
            <$> seqZ 0 N
          = (fun i => 7 * (i mod m) + 1) <$> seqZ 0 N) as ->.
  { apply list_fmap_ext. intros k i Hi.
    apply lookup_seqZ in Hi as [-> Hi].
    assert (strided_index N 7 (0 + Z.of_nat k) = 7 * ((0 + Z.of_nat k) mod m)) as ->.
    { unfold strided_index. rewrite wrap_small by lia. rewrite HN.
      replace ((0 + Z.of_nat k) * 7) with (7 * (0 + Z.of_nat k)) by lia.
      rewrite Zmult_mod_distr_l. done. }
    pose proof (Z.mod_pos_bound (0 + Z.of_nat k) m ltac:(lia)).
    by rewrite (elem_fmap_seqZ N (fun i => i + 1)) by lia. }
  assert (Zsum ((fun i => 7 * (i mod m) + 1) <$> seqZ 0 m)
          = Zsum ((fun j => 7 * j + 1) <$> seqZ 0 m)) as Hone.
  { f_equal. apply list_fmap_ext. intros ? i Hi.
    apply lookup_seqZ in Hi as [-> Hi]. rewrite Z.mod_small by lia. done. }
  rewrite HN at 1. change 7 with (Z.of_nat 7) at 2.
  rewrite (Zsum_periodic (fun i => 7 * (i mod m) + 1) m 7); [|lia|].
  2:{ intros i. replace (i + m) with (i + 1 * m) by lia.
      by rewrite Z.mod_add by lia. }
  rewrite Hone.
  pose proof (Zsum_affine 7 1 (Z.to_nat m)) as Ha.
  rewrite Z2Nat.id in Ha by lia.
  assert (N * (N + 1) = 2 * (Z.of_nat 7 * Zsum ((fun j => 7 * j + 1) <$> seqZ 0 m)
                             + 3 * N)) as Heq by lia.
  rewrite Heq, (Z.mul_comm 2), Z.div_mul by lia. lia.
Qed.

End StrideSeven.

Section ArrayPrograms.

Import ArraySum.

Variables (malloc_ok : Z → bool) (junk : Z).

Lemma array_request (N : Z) :
  0 ≤ N → allocatable N sizeof_unsigned_long →
  0 ≤ N < ULONG_MODULUS
  ∧ wrap N = N
  ∧ wrap (N * sizeof_unsigned_long) = N * 8
  ∧ Z.of_nat (length (replicate (Z.to_nat (N * 8 / sizeof_unsigned_long)) junk)) = N.
Proof.
  intros H1 Halloc.
  assert (0 ≤ N < ULONG_MODULUS ∧ N * 8 < ULONG_MODULUS) as [HN H8].
  { unfold allocatable, sizeof_unsigned_long, ULONG_MODULUS in *. lia. }
  split_and!; [lia..| | |].
  - by apply wrap_small.
  - change sizeof_unsigned_long with 8. apply wrap_small. lia.
  - change sizeof_unsigned_long with 8.
    rewrite Z.div_mul, length_replicate by lia. lia.
Qed.

(** X2 (program 28, end to end).  Run with a size [N >= 1] that fits
    in memory and [T >= 1] threads, all allocations served and the
    region run by the team asked for ([team = T]), the program
    returns [EXIT_SUCCESS] having asked for the array and then for the
    accumulators and having printed one sum: [N(N+1)/2] modulo 2^64 in
    the modes [good] and [bad-fs]; in the mode [bad-ma], whose stride
    is 7, the same when 7 does not divide [N], and [N(N+1)/2 - 3N]
    when it does (then every seventh element is read seven times). *)
Theorem main_28_prints_sum (team : Z) (fuel : nat) (N T : Z) :
  1 ≤ N → allocatable N sizeof_unsigned_long → 1 ≤ T ≤ INT_MAX →
  team = T →
  N ≤ Z.of_nat fuel →
  malloc_ok (N * 8) = true →
  malloc_ok (T * 64) = true → malloc_ok (T * 8) = true →
  main_28 malloc_ok junk team fuel 4 "good" N T fresh_world
  = (Done EXIT_SUCCESS,
     {| mallocs := [N * 8; T * 64]; printed := [wrap (N * (N + 1) / 2)] |})
  ∧ main_28 malloc_ok junk team fuel 4 "bad-fs" N T fresh_world
    = (Done EXIT_SUCCESS,
       {| mallocs := [N * 8; T * 8]; printed := [wrap (N * (N + 1) / 2)] |})
  ∧ main_28 malloc_ok junk team fuel 4 "bad-ma" N T fresh_world
    = (Done EXIT_SUCCESS,
       {| mallocs := [N * 8; T * 64];
          printed := [if N mod 7 =? 0 then wrap (N * (N + 1) / 2 - 3 * N)
                      else wrap (N * (N + 1) / 2)] |}).
Proof.
  intros H1 Halloc HT -> Hfuel Hok Hok64 Hok8.
  destruct (array_request N ltac:(lia) Halloc) as (HN & Hw & Hreq & Hlen).
  assert (N * 8 < ULONG_MODULUS) as H8
    by (unfold allocatable, sizeof_unsigned_long in *; lia).
  set (array := (fun i => i + 1) <$> seqZ 0 N).
  assert (Z.of_nat (length array) = N) as Hla
    by (unfold array; rewrite length_fmap, length_seqZ; lia).
  assert (∀ mode, valid_mode mode = true →
            main_28 malloc_ok junk T fuel 4 mode N T fresh_world
            = (_ ← (if String.eqb mode "good" then
                      _ ← sum_good malloc_ok junk T array N T; mret tt
                    else if String.eqb mode "bad-fs" then
                      _ ← sum_bad_fs malloc_ok junk T array N T; mret tt
                    else if String.eqb mode "bad-ma" then
                      _ ← sum_bad_ma_strided malloc_ok junk T fuel array N T 7;
                      mret tt
                    else mret tt);
               mret EXIT_SUCCESS)
                {| mallocs := [N * 8]; printed := [] |}) as Hmain.
  { intros mode Hmode. unfold main_28. rewrite Hmode, Hw. simpl negb. cbv iota.
    destruct (Z.eqb_spec N 0); [lia|].
    destruct (Z.leb_spec T 0); [lia|].
    unfold mbind at 1, M_bind at 1, bindM at 1, malloc at 1.
    rewrite Hreq, Hok.
    unfold mbind at 1, M_bind at 1, bindM at 1, lift at 1.
    rewrite load_array_spec by done. done. }
  assert (wrap (Zsum array) = wrap (N * (N + 1) / 2)) as Hsum
    by (unfold array; by rewrite Zsum_sequential by lia).
  split_and!.
  - rewrite Hmain by done. cbn [String.eqb Ascii.eqb Bool.eqb].
    unfold mbind, M_bind, bindM.
    rewrite (sum_good_spec malloc_ok junk N T) by done.
    by rewrite Hsum.
  - rewrite Hmain by done. cbn [String.eqb Ascii.eqb Bool.eqb].
    unfold mbind, M_bind, bindM.
    rewrite (sum_bad_fs_spec malloc_ok junk N T) by done.
    by rewrite Hsum.
  - rewrite Hmain by done. cbn [String.eqb Ascii.eqb Bool.eqb].
    unfold mbind, M_bind, bindM.
    rewrite (sum_bad_ma_strided_spec malloc_ok junk N T)
      by (done || unfold ULONG_MODULUS, INT_MAX in *; lia).
    cbn. do 3 f_equal.
    destruct (Z.eqb_spec (N mod 7) 0) as [H7|H7].
    + unfold array. rewrite strided_sum_seven by (done || lia). done.
    + apply gcd_seven in H7.
      change (fun i => elem array (strided_index N 7 i))
        with (elem array ∘ strided_index N 7).
      rewrite list_fmap_compose.
      rewrite (strided_index_perm N) by (lia || done).
      rewrite <- Hla at 1. by rewrite fmap_elem_seqZ.
Qed.

End ArrayPrograms.

Section Overflow.

Variables (malloc_ok : Z → bool) (junk team : Z).
Variable schedule : Z → Z → Z → Z.
Variables (fuel : nat) (rand : nat → Z).

(** A byte count that wraps yields a block shorter than the array. *)
Lemma wrapped_request (N : Z) :
  0 ≤ N < ULONG_MODULUS → ULONG_MODULUS ≤ N * 8 →
  Z.of_nat (length (replicate
                      (Z.to_nat (wrap (N * sizeof_unsigned_long)
                                 / sizeof_unsigned_long)) junk)) < N.
Proof.
  intros HN Hbig. rewrite length_replicate.
  change sizeof_unsigned_long with 8. unfold wrap, ULONG_MODULUS in *.
  change (2 ^ 64) with 18446744073709551616 in *.
  assert ((N * 8) `mod` 18446744073709551616 / 8 < N
          ∧ 0 ≤ (N * 8) `mod` 18446744073709551616 / 8) as [? ?]
    by (Z.div_mod_to_equations; lia).
  lia.
Qed.

(** X3 (array too large for its byte count).  The programs compute
    [size * sizeof(unsigned long)] in unsigned long arithmetic.  When
    [size * 8] reaches 2^64 the product wraps, [malloc] is asked for
    fewer bytes than the array needs, and if it serves the request
    [load_array] writes past the end of the block: the programs of
    files 28, 29, 14 and 10 all stop there, nothing printed. *)
Theorem oversized_array_overflows (N T : Z) (mode : string) :
  0 ≤ N < ULONG_MODULUS → ULONG_MODULUS ≤ N * 8 →
  malloc_ok (wrap (N * 8)) = true →
  let overflow := (Fault OutOfBounds : outcome Z,
                   {| mallocs := [wrap (N * 8)]; printed := [] |}) in
  (ArraySum.valid_mode mode = true → 1 ≤ T →
   ArraySum.main_28 malloc_ok junk team fuel 4 mode N T fresh_world = overflow
   ∧ ArraySum.main_29 malloc_ok junk team rand 4 mode N T fresh_world = overflow)
  ∧ (ArraySum.valid_mode mode = true →
     FalseSharingSim.main malloc_ok junk schedule team 4 mode N T fresh_world
     = overflow)
  ∧ PerformanceVariation.main malloc_ok junk fuel rand 3 mode N fresh_world
    = overflow.
Proof.
  intros HN Hbig Hok overflow.
  pose proof (wrapped_request N HN Hbig) as Hshort.
  assert (N ≠ 0) by (unfold ULONG_MODULUS in *; lia).
  assert (wrap N = N) as Hw by (by apply wrap_small).
  split_and!.
  - intros Hmode HT.
    unfold ArraySum.main_28, ArraySum.main_29. rewrite Hmode, Hw. simpl negb. cbv iota.
    destruct (Z.eqb_spec N 0); [lia|].
    destruct (Z.leb_spec T 0); [lia|].
    unfold mbind, M_bind, bindM, malloc, lift.
    change (N * sizeof_unsigned_long) with (N * 8) in *.
    rewrite Hok. simpl mallocs. simpl printed.
    rewrite load_array_short by (lia || done). done.
  - intros Hmode.
    unfold FalseSharingSim.main, FalseSharingSim.valid_mode.
    fold (ArraySum.valid_mode mode). rewrite Hmode, Hw. simpl negb. cbv iota.
    unfold mbind, M_bind, bindM, malloc, lift.
    change (N * sizeof_unsigned_long) with (N * 8) in *.
    rewrite Hok. simpl mallocs. simpl printed.
    rewrite load_array_short by (lia || done). done.
  - unfold PerformanceVariation.main. rewrite Hw. cbv iota.
    destruct (Z.eqb_spec N 0); [lia|].
    unfold mbind, M_bind, bindM, malloc, lift.
    change (N * sizeof_unsigned_long) with (N * 8) in *.
    rewrite Hok. simpl mallocs. simpl printed.
    rewrite load_array_short by (lia || done). done.
Qed.

End Overflow.

Section AllocationFailure.

Import ArraySum.

Variables (malloc_ok : Z → bool) (junk : Z).

(** X4 (program 28, allocation failure).  For valid arguments: if
    the array cannot be allocated [main] returns [EXIT_FAILURE] at
    once; if the array is allocated and the accumulators ([T * 64]
    bytes, [T * 8] in mode [bad-fs]) are not, the kernel calls
    [exit(EXIT_FAILURE)] after the array was loaded.  In both cases
    nothing is printed. *)
Theorem allocation_failure_exits (team : Z) (fuel : nat) (N T : Z)
    (mode : string) :
  1 ≤ N → allocatable N sizeof_unsigned_long → 1 ≤ T ≤ INT_MAX →
  N ≤ Z.of_nat fuel → valid_mode mode = true →
  (malloc_ok (N * 8) = false →
   main_28 malloc_ok junk team fuel 4 mode N T fresh_world
   = (Done EXIT_FAILURE, {| mallocs := [N * 8]; printed := [] |}))
  ∧ (malloc_ok (N * 8) = true →
     malloc_ok (T * (if String.eqb mode "bad-fs" then 8 else 64)) = false →
     main_28 malloc_ok junk team fuel 4 mode N T fresh_world
     = (Fault (Exit EXIT_FAILURE),
        {| mallocs := [N * 8; T * (if String.eqb mode "bad-fs" then 8 else 64)];
           printed := [] |})).
Proof.
  intros H1 Halloc HT Hfuel Hmode.
  destruct (array_request junk N ltac:(lia) Halloc) as (HN & Hw & Hreq & Hlen).
  destruct (padded_request T HT) as [Hreq64 _].
  destruct (packed_request T HT) as [Hreq8 _].
  split.
  - intros Hfail. unfold main_28. rewrite Hmode, Hw. simpl negb. cbv iota.
    destruct (Z.eqb_spec N 0); [lia|].
    destruct (Z.leb_spec T 0); [lia|].
    unfold mbind, M_bind, bindM, malloc. by rewrite Hreq, Hfail.
  - intros Hok Hfail. unfold main_28. rewrite Hmode, Hw. simpl negb. cbv iota.
    destruct (Z.eqb_spec N 0); [lia|].
    destruct (Z.leb_spec T 0); [lia|].
    unfold mbind at 1, M_bind at 1, bindM at 1, malloc at 1.
    rewrite Hreq, Hok.
    unfold mbind at 1, M_bind at 1, bindM at 1, lift at 1.
    rewrite load_array_spec by done.
    unfold valid_mode in Hmode.
    destruct (String.eqb mode "good") eqn:Hg.
    { apply String.eqb_eq in Hg as ->. simpl in Hfail |- *.
      unfold sum_good, mbind, M_bind, bindM, malloc.
      by rewrite Hreq64, Hfail. }
    destruct (String.eqb mode "bad-fs") eqn:Hf.
    { unfold sum_bad_fs, mbind, M_bind, bindM, malloc.
      by rewrite Hreq8, Hfail. }
    destruct (String.eqb mode "bad-ma") eqn:Hm; [|done].
    unfold sum_bad_ma_strided, mbind, M_bind, bindM, malloc, lift.
    rewrite gcd_loop_spec by lia.
    by rewrite Hreq64, Hfail.
Qed.

End AllocationFailure.

Section StridedWarning.

Import ArraySum.

Variables (malloc_ok : Z → bool) (junk : Z).

Lemma strided_index_multiple (N stride i : Z) :
  0 ≤ i → 0 ≤ stride → i * stride < ULONG_MODULUS → N ≠ 0 →
  (Z.gcd stride N | strided_index N stride i).
Proof.
  intros Hi Hs Hw HN. unfold strided_index.
  rewrite wrap_small by lia. rewrite Z.mod_eq by done.
  apply Z.divide_sub_r.
  - apply Z.divide_mul_r, Z.gcd_divide_l.
  - apply Z.divide_mul_l, Z.gcd_divide_r.
Qed.

(** X5 ([sum_bad_ma] of file 28, the warning).  When the region is
    run by the team asked for ([team = T]) and no product
    [i * stride] wraps, the function warns exactly when the greatest
    common divisor of the stride and the size, which its Euclid loop
    computes, is not 1.  Every index it reads is in range and a
    multiple of that divisor.  Hence without the warning every element
    is read once, and with it the array has at least two elements and
    the element at index 1 is never read. *)
Theorem strided_warning_is_accurate (team : Z) (fuel : nat) (array : list Z)
    (N T stride : Z) :
  1 ≤ N → allocatable N sizeof_unsigned_long → 1 ≤ T ≤ INT_MAX →
  team = T →
  N ≤ Z.of_nat fuel →
  0 ≤ stride → (N - 1) * stride < ULONG_MODULUS →
  Z.of_nat (length array) = N → malloc_ok (T * 64) = true →
  ∃ warning rep,
    (sum_bad_ma_strided malloc_ok junk team fuel array N T stride
       fresh_world).1
    = Done (warning, rep)
    ∧ warning = negb (Z.gcd stride N =? 1)
    ∧ (∀ idx, idx ∈ visited rep → 0 ≤ idx < N ∧ (Z.gcd stride N | idx))
    ∧ (warning = false → visited rep ≡ₚ seqZ 0 N)
    ∧ (warning = true → 1 < N ∧ 1 ∉ visited rep).
Proof.
  intros H1 Halloc HT -> Hfuel Hs Hprod Hlen Hok.
  assert (0 ≤ N < ULONG_MODULUS ∧ N + T ≤ ULONG_MODULUS) as [HN Hw].
  { unfold allocatable, sizeof_unsigned_long, ULONG_MODULUS, INT_MAX in *. lia. }
  rewrite (sum_bad_ma_strided_spec malloc_ok junk N T) by done.
  eexists _, _. split; [done|]. split; [done|]. cbn [visited].
  assert (∀ idx,
            idx ∈ seqZ 0 T ≫= (fun t => strided_index N stride <$> strided t N T)
            → 0 ≤ idx < N ∧ (Z.gcd stride N | idx)) as Hvis.
  { intros idx Hin. rewrite (strided_visits_perm N T) in Hin by (lia || done).
    apply list_elem_of_fmap in Hin as (i & -> & Hi).
    apply elem_of_seqZ in Hi. split.
    - unfold strided_index. apply Z.mod_pos_bound. lia.
    - apply strided_index_multiple; [lia..| |lia]. nia. }
  split_and!; [done| |].
  - intros Hg. apply negb_false_iff, Z.eqb_eq in Hg.
    rewrite (strided_visits_perm N T) by (lia || done).
    apply (strided_index_perm N); (lia || done).
  - intros Hg. apply negb_true_iff, Z.eqb_neq in Hg.
    pose proof (Z.gcd_nonneg stride N) as Hg0.
    pose proof (Z.gcd_divide_r stride N) as Hdiv.
    assert (Z.gcd stride N ≠ 0).
    { intros H0. apply Z.gcd_eq_0_r in H0. lia. }
    split.
    + apply Z.divide_pos_le in Hdiv; lia.
    + intros Hin. apply Hvis in Hin as [_ Hin].
      apply Z.divide_1_r_nonneg in Hin; lia.
Qed.

End StridedWarning.

(** ** The program of file 29 *)

Section IndexedSum.

Import ArraySum.

Variables (malloc_ok : Z → bool) (junk : Z).
Variables N T : Z.
Hypothesis HN : 0 ≤ N < ULONG_MODULUS.
Hypothesis HT : 1 ≤ T ≤ INT_MAX.

Lemma sum_bad_ma_indexed_run array indices ps :
  Z.of_nat (length indices) = N →
  (∀ idx, idx ∈ indices → 0 ≤ idx < Z.of_nat (length array)) →
  length ps = Z.to_nat T →
  sum_bad_ma_shuffled_run T array N T indices ps
  = Done {| total := wrap (Zsum (elem array <$> indices));
            visited := indices |}.
Proof.
  intros Hls Hrange Hps.
  change (sum_bad_ma_shuffled_run T array N T indices ps)
    with (partitioned_kernel sum zero_padded
            (fun tid i st => idx ← load indices i; add_padded array tid idx st)
            N T T ps).
  rewrite (partitioned_kernel_spec sum N T HN HT T _ _
             (elem array) (elem indices));
    [|lia|by apply zero_padded_spec| |done].
  - rewrite (covered_full N T).
    assert (elem indices <$> seqZ 0 N = indices) as Hsh
      by (rewrite <- Hls; apply fmap_elem_seqZ).
    rewrite Hsh. do 2 f_equal.
    change (fun i => elem array (elem indices i))
      with (elem array ∘ elem indices).
    by rewrite list_fmap_compose, Hsh.
  - intros tid i st ? ? ?. rewrite load_elem by lia. cbn.
    apply (add_padded_adds T); [done..|].
    apply Hrange. unfold elem. apply list_elem_of_lookup_total_2. lia.
Qed.

(** X6 ([sum_bad_ma] of file 29 on any index array).  Given [size]
    indices, each within the array, and the region run by the team
    asked for ([team = T]), the function reads the array at
    those indices, each as often as it occurs in the index array, and
    returns and prints the sum of the values read, modulo 2^64. *)
Theorem indexed_sum_reads_indices (team : Z) array indices w :
  team = T →
  Z.of_nat (length indices) = N →
  (∀ idx, idx ∈ indices → 0 ≤ idx < Z.of_nat (length array)) →
  malloc_ok (T * 64) = true →
  ∃ rep,
    sum_bad_ma_shuffled malloc_ok junk team array N T indices w
    = (Done rep,
       {| mallocs := mallocs w ++ [T * 64];
          printed := printed w ++ [wrap (Zsum (elem array <$> indices))] |})
    ∧ total rep = wrap (Zsum (elem array <$> indices))
    ∧ visited rep ≡ₚ indices.
Proof.
  intros -> Hls Hrange Hok. destruct (padded_request T HT) as [Hreq Hlen].
  unfold sum_bad_ma_shuffled, mbind, M_bind, bindM, malloc. rewrite Hreq, Hok.
  unfold lift. rewrite sum_bad_ma_indexed_run
    by (done || by rewrite length_replicate).
  by eexists.
Qed.

End IndexedSum.

Section FillIdentity.

Lemma fill_identity_spec (indices : list Z) N :
  0 ≤ N → Z.of_nat (length indices) = N →
  fill_identity indices N = Done (seqZ 0 N).
Proof.
  intros HN Hlen. unfold fill_identity.
  destruct (for_range_inv
    (fun i a => length a = length indices
                ∧ take (Z.to_nat i) a = seqZ 0 i)
    0 N (fun i indices => store indices i i) indices)
    as (a & -> & Hl & Ht); [lia|done| |].
  - intros i a Hi [Hl Ht]. rewrite store_Done by lia.
    eexists. split; [done|]. split; [by rewrite length_insert|].
    replace (Z.to_nat (i + 1)) with (Datatypes.S (Z.to_nat i)) by lia.
    rewrite (take_S_r _ _ i) by (apply list_lookup_insert_eq; lia).
    rewrite take_insert_ge, Ht by lia.
    by rewrite (seqZ_app 0 i 1) by lia.
  - f_equal. rewrite <- Ht. rewrite take_ge; [done|]. lia.
Qed.

End FillIdentity.

Section ShuffledProgram.

Import ArraySum.

Variables (malloc_ok : Z → bool) (junk : Z).

(** X7 (program 29, end to end).  Run with a size [N >= 1] that fits
    in memory and [T >= 1] threads, all allocations served and the
    region run by the team asked for ([team = T]), the program
    returns [EXIT_SUCCESS] and prints [N(N+1)/2] modulo 2^64 in every
    mode; in the mode [bad-ma] this holds whatever [rand()] returns,
    and the index array is allocated after the array. *)
Theorem main_29_prints_sum (team : Z) (rand : nat → Z) (N T : Z) :
  1 ≤ N → allocatable N sizeof_unsigned_long → 1 ≤ T ≤ INT_MAX →
  team = T →
  malloc_ok (N * 8) = true →
  malloc_ok (T * 64) = true → malloc_ok (T * 8) = true →
  main_29 malloc_ok junk team rand 4 "good" N T fresh_world
  = (Done EXIT_SUCCESS,
     {| mallocs := [N * 8; T * 64]; printed := [wrap (N * (N + 1) / 2)] |})
  ∧ main_29 malloc_ok junk team rand 4 "bad-fs" N T fresh_world
    = (Done EXIT_SUCCESS,
       {| mallocs := [N * 8; T * 8]; printed := [wrap (N * (N + 1) / 2)] |})
  ∧ main_29 malloc_ok junk team rand 4 "bad-ma" N T fresh_world
    = (Done EXIT_SUCCESS,
       {| mallocs := [N * 8; N * 8; T * 64];
          printed := [wrap (N * (N + 1) / 2)] |}).
Proof.
  intros H1 Halloc HT -> Hok Hok64 Hok8.
  destruct (array_request junk N ltac:(lia) Halloc) as (HN & Hw & Hreq & Hlen).
  set (array := (fun i => i + 1) <$> seqZ 0 N).
  assert (Z.of_nat (length array) = N) as Hla
    by (unfold array; rewrite length_fmap, length_seqZ; lia).
  assert (wrap (Zsum array) = wrap (N * (N + 1) / 2)) as Hsum
    by (unfold array; by rewrite Zsum_sequential by lia).
  assert (∀ mode, valid_mode mode = true →
            main_29 malloc_ok junk T rand 4 mode N T fresh_world
            = (shuffled_indices ←
                 (if String.eqb mode "bad-ma" then
                    p ← malloc malloc_ok junk (wrap (N * sizeof_unsigned_long))
                          sizeof_unsigned_long;
                    match p with
                    | None => exit EXIT_FAILURE
                    | Some indices =>
                        indices ← lift (fill_identity indices N);
                        indices ← lift (shuffle_array rand indices N);
                        mret (Some indices)
                    end
                  else mret None);
               _ ← (if String.eqb mode "good" then
                      _ ← sum_good malloc_ok junk T array N T; mret tt
                    else if String.eqb mode "bad-fs" then
                      _ ← sum_bad_fs malloc_ok junk T array N T; mret tt
                    else if String.eqb mode "bad-ma" then
                      _ ← sum_bad_ma_shuffled malloc_ok junk T array N T
                            (block_of shuffled_indices);
                      mret tt
                    else mret tt);
               mret EXIT_SUCCESS)
                {| mallocs := [N * 8]; printed := [] |}) as Hmain.
  { intros mode Hmode. unfold main_29. rewrite Hmode, Hw. simpl negb. cbv iota.
    destruct (Z.eqb_spec N 0); [lia|].
    destruct (Z.leb_spec T 0); [lia|].
    unfold mbind at 1, M_bind at 1, bindM at 1, malloc at 1.
    rewrite Hreq, Hok.
    unfold mbind at 1, M_bind at 1, bindM at 1, lift at 1.
    rewrite load_array_spec by done. done. }
  split_and!.
  - rewrite Hmain by done. cbn [String.eqb Ascii.eqb Bool.eqb].
    unfold mbind, M_bind, bindM, mret, M_ret, ret.
    rewrite (sum_good_spec malloc_ok junk N T) by done.
    by rewrite Hsum.
  - rewrite Hmain by done. cbn [String.eqb Ascii.eqb Bool.eqb].
    unfold mbind, M_bind, bindM, mret, M_ret, ret.
    rewrite (sum_bad_fs_spec malloc_ok junk N T) by done.
    by rewrite Hsum.
  - rewrite Hmain by done. cbn [String.eqb Ascii.eqb Bool.eqb].
    unfold mbind, M_bind, bindM, mret, M_ret, ret, malloc, lift.
    rewrite Hreq, Hok. cbn [mallocs printed app].
    rewrite fill_identity_spec by (lia || done).
    destruct (shuffle_array_perm rand (seqZ 0 N) N) as (l & -> & Hp);
      [lia|rewrite length_seqZ; lia|].
    cbn [block_of default].
    rewrite (sum_bad_ma_shuffled_spec malloc_ok junk N T) by done.
    by rewrite Hsum.
Qed.

End ShuffledProgram.

(** ** The program of file 31 *)

Section CountMismatches.

Import MatrixCompare.

Lemma mismatch_zip (A B : list Z) N :
  Z.of_nat (length A) = N → Z.of_nat (length B) = N →
  mismatch A B <$> seqZ 0 N
  = (fun p => if p.1 =? p.2 then 0 else 1) <$> zip A B.
Proof.
  intros HA HB. apply list_eq. intros i.
  rewrite !list_lookup_fmap, lookup_zip_with.
  destruct (A !! i) as [a|] eqn:Ha.
  - apply lookup_lt_Some in Ha as Hi.
    destruct (lookup_lt_is_Some_2 B i) as [b Hb]; [lia|].
    rewrite lookup_seqZ_lt, Hb by lia. simpl. f_equal.
    unfold mismatch, elem.
    replace (Z.to_nat (0 + Z.of_nat i)) with i by lia.
    by rewrite (list_lookup_total_correct _ _ _ Ha),
               (list_lookup_total_correct _ _ _ Hb).
  - apply lookup_ge_None in Ha. by rewrite lookup_seqZ_ge by lia.
Qed.

Lemma Zsum_mismatches (l : list (Z * Z)) :
  Zsum ((fun p => if p.1 =? p.2 then 0 else 1) <$> l)
  = Z.of_nat (length (filter (fun p => p.1 ≠ p.2) l)).
Proof.
  induction l as [|[a b] l IH]; [done|].
  rewrite fmap_cons, filter_cons.
  change (Zsum (?x :: ?k)) with (x + Zsum k). rewrite IH. cbn [fst snd].
  destruct (Z.eqb_spec a b).
  - rewrite decide_False by tauto. lia.
  - rewrite decide_True by done. rewrite length_cons. lia.
Qed.

Lemma mismatches_bound (A B : list Z) :
  (mismatches A B ≤ length A)%nat.
Proof.
  unfold mismatches. etrans; [apply length_filter|].
  rewrite length_zip_with. lia.
Qed.

Lemma mismatches_none (A B : list Z) :
  length A = length B → mismatches A B = 0%nat ↔ A = B.
Proof.
  unfold mismatches. revert B.
  induction A as [|a A IH]; intros [|b B] Hlen; try done.
  injection Hlen as Hlen. simpl. rewrite filter_cons. simpl.
  destruct (decide (a ≠ b)) as [Hab|Hab].
  - simpl. split; [done|]. intros [= ? ?]. done.
  - apply dec_stable in Hab as ->. rewrite IH by done.
    split; [by intros ->|by intros [= ->]].
Qed.

Lemma mismatch_total (A B : list Z) N :
  0 ≤ N < ULONG_MODULUS →
  Z.of_nat (length A) = N → Z.of_nat (length B) = N →
  wrap (Zsum (mismatch A B <$> seqZ 0 N)) = Z.of_nat (mismatches A B).
Proof.
  intros HN HA HB. rewrite (mismatch_zip A B N), Zsum_mismatches by done.
  apply wrap_small. fold (mismatches A B).
  pose proof (mismatches_bound A B). lia.
Qed.

End CountMismatches.

Section CompareProgram.

Import MatrixCompare.

Variables (malloc_ok : Z → bool) (junk : Z).

(** X9 (program 31, end to end).  The program compares
    [n = N * N mod 2^64] elements.  When [n >= 1], the buffers fit in
    memory and the region is run by the team asked for ([team = T]),
    it returns [EXIT_SUCCESS] in every mode, whatever [rand()]
    returns, having printed [(n - 1) / 1000 + 1] differences; the two
    matrices are allocated first, then (mode [bad-ma]) the index
    array, then the accumulators. *)
Theorem main_31_prints_count (team : Z) (fuel : nat) (rand : nat → Z)
    (N T : Z) :
  1 ≤ N < ULONG_MODULUS →
  let n := wrap (N * N) in
  1 ≤ n → allocatable n sizeof_unsigned_long → 1 ≤ T ≤ INT_MAX →
  team = T →
  n ≤ Z.of_nat fuel →
  malloc_ok (n * 8) = true →
  malloc_ok (T * 64) = true → malloc_ok (T * 8) = true →
  main malloc_ok junk team fuel rand 4 "good" N T fresh_world
  = (Done EXIT_SUCCESS,
     {| mallocs := [n * 8; n * 8; T * 64];
        printed := [(n - 1) / 1000 + 1] |})
  ∧ main malloc_ok junk team fuel rand 4 "bad-fs" N T fresh_world
    = (Done EXIT_SUCCESS,
       {| mallocs := [n * 8; n * 8; T * 8];
          printed := [(n - 1) / 1000 + 1] |})
  ∧ main malloc_ok junk team fuel rand 4 "bad-ma" N T fresh_world
    = (Done EXIT_SUCCESS,
       {| mallocs := [n * 8; n * 8; n * 8; T * 64];
          printed := [(n - 1) / 1000 + 1] |}).
Proof.
  intros HN n H1 Halloc HT -> Hfuel Hok Hok64 Hok8.
  destruct (array_request junk n ltac:(lia) Halloc) as (Hn & _ & Hreq & Hlen).
  assert (n + 1000 ≤ ULONG_MODULUS) as Hw1000.
  { unfold allocatable, sizeof_unsigned_long, ULONG_MODULUS in *. lia. }
  assert (wrap (Zsum (mismatch (matrix_A n) (matrix_B n) <$> seqZ 0 n))
          = (n - 1) / 1000 + 1) as Hcount.
  { rewrite mismatch_count by lia. apply wrap_small.
    unfold ULONG_MODULUS in *. Z.div_mod_to_equations. lia. }
  pose proof (length_matrix_A n ltac:(lia)) as HlA.
  pose proof (length_matrix_B n ltac:(lia)) as HlB.
  assert (∀ mode, valid_mode mode = true →
            main malloc_ok junk T fuel rand 4 mode N T fresh_world
            = (shuffled_indices ←
                 (if String.eqb mode "bad-ma" then
                    p ← malloc malloc_ok junk (wrap (n * sizeof_unsigned_long))
                          sizeof_unsigned_long;
                    match p with
                    | None => exit EXIT_FAILURE
                    | Some indices =>
                        indices ← lift (fill_identity indices n);
                        indices ← lift (shuffle_array rand indices n);
                        mret (Some indices)
                    end
                  else mret None);
               _ ← (if String.eqb mode "good" then
                      _ ← compare_good malloc_ok junk T (matrix_A n)
                            (matrix_B n) n T;
                      mret tt
                    else if String.eqb mode "bad-fs" then
                      _ ← compare_bad_fs malloc_ok junk T (matrix_A n)
                            (matrix_B n) n T;
                      mret tt
                    else if String.eqb mode "bad-ma" then
                      _ ← compare_bad_ma malloc_ok junk T (matrix_A n)
                            (matrix_B n) n T (block_of shuffled_indices);
                      mret tt
                    else mret tt);
               mret EXIT_SUCCESS)
                {| mallocs := [n * 8; n * 8]; printed := [] |}) as Hmain.
  { intros mode Hmode. unfold main. rewrite Hmode.
    rewrite (wrap_small N) by lia. fold n. simpl negb. cbv iota.
    destruct (Z.eqb_spec N 0); [lia|].
    destruct (Z.leb_spec T 0); [lia|].
    unfold mbind at 1, M_bind at 1, bindM at 1, malloc at 1.
    rewrite Hreq, Hok.
    unfold mbind at 1, M_bind at 1, bindM at 1, malloc at 1.
    rewrite Hok.
    unfold mbind at 1, M_bind at 1, bindM at 1, lift at 1.
    rewrite initialize_matrices_spec by (lia || done). done. }
  split_and!.
  - rewrite Hmain by done. cbn [String.eqb Ascii.eqb Bool.eqb].
    unfold mbind, M_bind, bindM, mret, M_ret, ret.
    rewrite (compare_good_spec malloc_ok junk n T) by done.
    by rewrite Hcount.
  - rewrite Hmain by done. cbn [String.eqb Ascii.eqb Bool.eqb].
    unfold mbind, M_bind, bindM, mret, M_ret, ret.
    rewrite (compare_bad_fs_spec malloc_ok junk n T) by done.
    by rewrite Hcount.
  - rewrite Hmain by done. cbn [String.eqb Ascii.eqb Bool.eqb].
    unfold mbind, M_bind, bindM, mret, M_ret, ret, malloc, lift.
    rewrite Hreq, Hok. cbn [mallocs printed app].
    rewrite fill_identity_spec by (lia || done).
    destruct (shuffle_array_perm rand (seqZ 0 n) n) as (l & -> & Hp);
      [lia|rewrite length_seqZ; lia|].
    cbn [block_of default].
    rewrite (compare_bad_ma_spec malloc_ok junk n T) by done.
    by rewrite Hcount.
Qed.

(** X10 (program 31, [N * N] wraps to 0).  The program checks
    [N == 0] but not the product: for [N] a non-zero multiple of 2^32
    the element count is 0.  The modes [good] and [bad-fs] then report
    0 differences, whatever the team; the mode [bad-ma] calls [shuffle_indices] with size
    0, which evaluates [rand() % 0]. *)
Theorem main_31_empty_matrices (team : Z) (fuel : nat) (rand : nat → Z)
    (N T : Z) :
  1 ≤ N < ULONG_MODULUS → wrap (N * N) = 0 → 1 ≤ T ≤ INT_MAX →
  1 ≤ team ≤ T →
  malloc_ok 0 = true →
  malloc_ok (T * 64) = true → malloc_ok (T * 8) = true →
  main malloc_ok junk team fuel rand 4 "good" N T fresh_world
  = (Done EXIT_SUCCESS, {| mallocs := [0; 0; T * 64]; printed := [0] |})
  ∧ main malloc_ok junk team fuel rand 4 "bad-fs" N T fresh_world
    = (Done EXIT_SUCCESS, {| mallocs := [0; 0; T * 8]; printed := [0] |})
  ∧ main malloc_ok junk team fuel rand 4 "bad-ma" N T fresh_world
    = (Fault DivByZero, {| mallocs := [0; 0; 0]; printed := [] |}).
Proof.
  intros HN Hz HT Hteam Hok Hok64 Hok8.
  assert (covered 0 T team = 0) as Hcov
    by (unfold covered; destruct (team =? T); [done|];
        rewrite Z.div_0_l by lia; lia).
  assert (∀ mode, valid_mode mode = true →
            main malloc_ok junk team fuel rand 4 mode N T fresh_world
            = (shuffled_indices ←
                 (if String.eqb mode "bad-ma" then
                    p ← malloc malloc_ok junk 0 sizeof_unsigned_long;
                    match p with
                    | None => exit EXIT_FAILURE
                    | Some indices =>
                        indices ← lift (fill_identity indices 0);
                        indices ← lift (shuffle_array rand indices 0);
                        mret (Some indices)
                    end
                  else mret None);
               _ ← (if String.eqb mode "good" then
                      _ ← compare_good malloc_ok junk team [] [] 0 T; mret tt
                    else if String.eqb mode "bad-fs" then
                      _ ← compare_bad_fs malloc_ok junk team [] [] 0 T; mret tt
                    else if String.eqb mode "bad-ma" then
                      _ ← compare_bad_ma malloc_ok junk team [] [] 0 T
                            (block_of shuffled_indices);
                      mret tt
                    else mret tt);
               mret EXIT_SUCCESS)
                {| mallocs := [0; 0]; printed := [] |}) as Hmain.
  { intros mode Hmode. unfold main. rewrite Hmode.
    rewrite (wrap_small N) by lia. rewrite Hz. simpl negb. cbv iota.
    destruct (Z.eqb_spec N 0); [lia|].
    destruct (Z.leb_spec T 0); [lia|].
    change (wrap (0 * sizeof_unsigned_long)) with 0.
    unfold mbind at 1, M_bind at 1, bindM at 1, malloc at 1.
    rewrite Hok.
    unfold mbind at 1, M_bind at 1, bindM at 1, malloc at 1.
    rewrite Hok.
    unfold mbind at 1, M_bind at 1, bindM at 1, lift at 1.
    assert (initialize_matrices fuel
              (replicate (Z.to_nat (0 `div` sizeof_unsigned_long)) junk)
              (replicate (Z.to_nat (0 `div` sizeof_unsigned_long)) junk) 0
            = Done ([], [])) as -> by (by destruct fuel).
    done. }
  split_and!.
  - rewrite Hmain by done. cbn [String.eqb Ascii.eqb Bool.eqb].
    unfold mbind, M_bind, bindM, mret, M_ret, ret.
    rewrite (compare_good_team malloc_ok junk 0 T) by (lia || done).
    by rewrite Hcov.
  - rewrite Hmain by done. cbn [String.eqb Ascii.eqb Bool.eqb].
    unfold mbind, M_bind, bindM, mret, M_ret, ret.
    rewrite (compare_bad_fs_team malloc_ok junk 0 T) by (lia || done).
    by rewrite Hcov.
  - rewrite Hmain by done. cbn [String.eqb Ascii.eqb Bool.eqb].
    unfold mbind, M_bind, bindM, mret, M_ret, ret, malloc, lift.
    rewrite Hok. cbn [mallocs printed app].
    change (fill_identity (replicate (Z.to_nat (0 `div` sizeof_unsigned_long)) junk) 0)
      with (Done ([] : list Z)).
    cbv beta iota. by rewrite shuffle_array_empty.
Qed.

End CompareProgram.

(** ** The program of file 10 *)

Section SequentialSums.

Import PerformanceVariation.

Lemma iterate_sum (array : list Z) (l : list Z) (s : Z) :
  (∀ i, i ∈ l → 0 ≤ i < Z.of_nat (length array)) →
  iterate (fun i sum => x ← load array i; Done (wrap (sum + x))) l (wrap s)
  = Done (wrap (s + Zsum (elem array <$> l))).
Proof.
  revert s. induction l as [|i l IH]; intros s Hl.
  - simpl. by rewrite Z.add_0_r.
  - assert (Zsum (elem array <$> i :: l)
            = elem array i + Zsum (elem array <$> l)) as -> by done.
    cbn [iterate]. rewrite (load_elem array i) by (apply Hl; left). cbn.
    rewrite wrap_add_l, IH by (intros; apply Hl; by right).
    do 2 f_equal. lia.
Qed.

Lemma sum_random_spec (array indices : list Z) N :
  0 ≤ N ≤ Z.of_nat (length indices) →
  (∀ idx, idx ∈ take (Z.to_nat N) indices → 0 ≤ idx < Z.of_nat (length array)) →
  sum_random array indices N
  = Done (wrap (Zsum (elem array <$> take (Z.to_nat N) indices))).
Proof.
  intros HN Hrange. unfold sum_random.
  destruct (for_range_inv
    (fun i s => s = wrap (Zsum (elem array <$> take (Z.to_nat i) indices)))
    0 N (fun i sum => idx ← load indices i;
                      x ← load array idx; Done (wrap (sum + x))) 0)
    as (s & -> & ->); [lia|done| |done].
  intros i s Hi ->.
  destruct (load_lt indices i ltac:(lia)) as (idx & Hidx & ->). cbn.
  assert (idx ∈ take (Z.to_nat N) indices) as Hin.
  { apply list_elem_of_lookup. exists (Z.to_nat i).
    rewrite lookup_take_lt by lia. done. }
  rewrite (load_elem array idx) by (by apply Hrange). cbn.
  eexists. split; [done|].
  replace (Z.to_nat (i + 1)) with (Datatypes.S (Z.to_nat i)) by lia.
  rewrite (take_S_r _ _ idx), fmap_app, Zsum_app by done. simpl.
  by rewrite wrap_add_l, Z.add_0_r.
Qed.

Lemma iterate_out_of_bounds {S} (body : Z → S → outcome S) l s :
  (∀ i s, i ∈ l → (∃ s', body i s = Done s') ∨ body i s = Fault OutOfBounds) →
  (∃ i, i ∈ l ∧ ∀ s, body i s = Fault OutOfBounds) →
  iterate body l s = Fault OutOfBounds.
Proof.
  revert s. induction l as [|i l IH]; intros s Hall (j & Hj & Hbad).
  - by apply elem_of_nil in Hj.
  - cbn [iterate]. apply elem_of_cons in Hj as [->|Hj].
    + by rewrite Hbad.
    + destruct (Hall i s ltac:(left)) as [[s' ->]| ->]; [|done].
      cbn. apply IH; [intros; apply Hall; by right|by exists j].
Qed.

Lemma sum_random_out_of_bounds (array indices : list Z) N (i : Z) :
  0 ≤ i < N → N ≤ Z.of_nat (length indices) →
  ¬ (0 ≤ elem indices i < Z.of_nat (length array)) →
  sum_random array indices N = Fault OutOfBounds.
Proof.
  intros Hi HN Hbad. unfold sum_random, for_range.
  apply iterate_out_of_bounds.
  - intros k s Hk. apply elem_of_seqZ in Hk.
    rewrite (load_elem indices k) by lia. cbn.
    destruct (decide (0 ≤ elem indices k < Z.of_nat (length array))).
    + left. rewrite load_elem by done. by eexists.
    + right. by rewrite load_out.
  - exists i. split; [apply elem_of_seqZ; lia|]. intros s.
    rewrite (load_elem indices i) by lia. cbn. by rewrite load_out.
Qed.

Lemma strided_unit N : 0 ≤ N → strided 0 N 1 = seqZ 0 N.
Proof.
  intros HN. unfold strided.
  replace ((N - 0 + 1 - 1) / 1) with N by (rewrite Z.div_1_r; lia).
  rewrite <- (list_fmap_id (seqZ 0 N)) at 2.
  apply list_fmap_ext. intros ? k _. simpl. lia.
Qed.

Lemma take_elem_seqZ (array : list Z) N :
  0 ≤ N ≤ Z.of_nat (length array) →
  elem array <$> seqZ 0 N = take (Z.to_nat N) array.
Proof.
  intros HN.
  rewrite <- (fmap_elem_seqZ (take (Z.to_nat N) array)).
  rewrite length_take. replace (Z.of_nat (Z.to_nat N `min` length array)) with N by lia.
  apply list_fmap_ext. intros ? k Hk. apply lookup_seqZ in Hk as [-> Hk].
  unfold elem. by rewrite lookup_total_take_lt by lia.
Qed.

Lemma sum_strided_spec (fuel : nat) (array : list Z) N stride :
  0 ≤ N ≤ Z.of_nat (length array) → 1 ≤ stride →
  N + stride ≤ ULONG_MODULUS → N ≤ Z.of_nat fuel →
  sum_strided fuel array N stride
  = Done (wrap (Zsum (elem array <$> strided 0 N stride))).
Proof.
  intros HN Hs Hw Hfuel. unfold sum_strided.
  rewrite for_stride_iterate by lia.
  change (iterate ?b ?l 0) with (iterate b l (wrap 0)).
  rewrite iterate_sum; [done|].
  intros i Hi. apply elem_of_strided in Hi as (k & Hk & -> & Hlt); [|lia]. nia.
Qed.

Lemma sum_strided_zero (fuel : nat) (array : list Z) N :
  1 ≤ N ≤ Z.of_nat (length array) →
  sum_strided fuel array N 0 = Fault OutOfFuel.
Proof.
  intros HN. unfold sum_strided. generalize 0 at 3. 
  induction fuel as [|fuel IH]; intros s; cbn [for_stride].
  - destruct (Z.ltb_spec 0 N); [done|lia].
  - destruct (Z.ltb_spec 0 N); [|lia].
    rewrite (load_elem array 0) by lia. cbn.
    change (wrap (0 + 0)) with 0. apply IH.
Qed.

End SequentialSums.

Section PerformanceVariationRuns.

Import PerformanceVariation.

Variables (malloc_ok : Z → bool) (junk : Z).

Lemma strided_sum_five (N : Z) :
  1 ≤ N →
  Zsum (elem ((fun i => i + 1) <$> seqZ 0 N) <$> strided 0 N 5)
  = (N + 4) / 5 * (5 * ((N + 4) / 5) - 3) / 2.
Proof.
  intros H1. unfold strided.
  replace (N - 0 + 5 - 1) with (N + 4) by lia.
  set (m := (N + 4) / 5).
  assert (1 ≤ m ∧ 5 * m ≤ N + 4) as [Hm1 Hm]
    by (unfold m; Z.div_mod_to_equations; lia).
  rewrite <- list_fmap_compose.
  assert (elem ((fun i => i + 1) <$> seqZ 0 N) ∘ (fun k => 0 + k * 5) <$> seqZ 0 m
          = (fun k => 5 * k + 1) <$> seqZ 0 m) as ->.
  { apply list_fmap_ext. intros j k Hk. apply lookup_seqZ in Hk as [-> Hk].
    simpl. rewrite (elem_fmap_seqZ N (fun i => i + 1)) by lia. lia. }
  pose proof (Zsum_affine 5 1 (Z.to_nat m)) as Ha.
  rewrite Z2Nat.id in Ha by lia.
  assert (m * (5 * m - 3) = 2 * Zsum ((fun k => 5 * k + 1) <$> seqZ 0 m))
    as -> by lia.
  by rewrite (Z.mul_comm 2), Z.div_mul by lia.
Qed.

(** X14 (program 10, mode [bad]).  For a size [N >= 1] that fits in
    memory the program returns 0 having printed the Random Sum,
    [N(N+1)/2] modulo 2^64 whatever [rand()] returns, and the Strided
    Sum of the elements at the indices 0, 5, 10, ..: with
    [m = (N + 4) / 5] of them, [m (5m - 3) / 2]. *)
Theorem main_bad_mode_prints_sums (fuel : nat) (rand : nat → Z) (argc N : Z) :
  3 ≤ argc → 1 ≤ N → allocatable N sizeof_unsigned_long →
  N ≤ Z.of_nat fuel → malloc_ok (N * 8) = true →
  main malloc_ok junk fuel rand argc "bad" N fresh_world
  = (Done 0,
     {| mallocs := [N * 8; N * 8];
        printed := [wrap (N * (N + 1) / 2);
                    wrap ((N + 4) / 5 * (5 * ((N + 4) / 5) - 3) / 2)] |}).
Proof.
  intros Hargc H1 Halloc Hfuel Hok.
  destruct (array_request junk N ltac:(lia) Halloc) as (HN & Hw & Hreq & Hlen).
  assert (N * 8 < ULONG_MODULUS) as H8
    by (unfold allocatable, sizeof_unsigned_long in *; lia).
  unfold main. destruct (Z.ltb_spec argc 3); [lia|].
  rewrite Hw. destruct (Z.eqb_spec N 0); [lia|].
  unfold mbind, M_bind, bindM, malloc, lift, print, mret, M_ret, ret.
  rewrite Hreq, Hok.
  rewrite load_array_spec by done.
  set (array := (fun i => i + 1) <$> seqZ 0 N).
  assert (Z.of_nat (length array) = N) as Hla
    by (unfold array; rewrite length_fmap, length_seqZ; lia).
  cbn [String.eqb Ascii.eqb Bool.eqb fresh_world mallocs printed app].
  rewrite fill_identity_spec by (lia || done).
  destruct (shuffle_array_perm rand (seqZ 0 N) N) as (l & -> & Hp);
    [lia|rewrite length_seqZ; lia|].
  cbn [block_of default id].
  assert (Z.of_nat (length l) = N) as Hll by (rewrite Hp, length_seqZ; lia).
  rewrite sum_random_spec; [|lia|].
  2:{ intros idx Hidx. rewrite take_ge in Hidx by lia.
      rewrite Hp in Hidx. apply elem_of_seqZ in Hidx. lia. }
  rewrite sum_strided_spec by (unfold ULONG_MODULUS in *; lia).
  rewrite take_ge by lia. rewrite Hp.
  rewrite take_elem_seqZ by lia. rewrite take_ge by lia.
  unfold array. rewrite Zsum_sequential, strided_sum_five by lia.
  done.
Qed.

Lemma Zsum_succ (l : list Z) :
  Zsum ((fun x => x + 1) <$> l) = Zsum l + Z.of_nat (length l).
Proof.
  induction l as [|x l IH]; [done|].
  rewrite fmap_cons, length_cons.
  change (Zsum (?y :: ?k)) with (y + Zsum k). rewrite IH.
  change (Zsum (?y :: ?k)) with (y + Zsum k). lia.
Qed.

(** X15 ([modify_and_sum] then [sum_linear]).  The sum that
    [modify_and_sum] reports is the sum [sum_linear] finds in the array
    as [modify_and_sum] left it; and if every cell held an unsigned
    long before, every cell does after. *)
Theorem modified_sum_is_linear_sum (array : list Z) N :
  0 ≤ N ≤ Z.of_nat (length array) →
  ∃ array' s,
    modify_and_sum array N = Done (array', s)
    ∧ sum_linear array' N = Done s
    ∧ (Forall (fun x => 0 ≤ x < ULONG_MODULUS) array →
       Forall (fun x => 0 ≤ x < ULONG_MODULUS) array').
Proof.
  intros HN. rewrite modify_and_sum_spec by done.
  eexists _, _. split; [done|].
  assert (length (take (Z.to_nat N) array) = Z.to_nat N) as Hlt
    by (rewrite length_take; lia).
  split.
  - rewrite sum_linear_spec by (rewrite length_app, length_fmap; lia).
    rewrite take_app_length' by (by rewrite length_fmap).
    rewrite (wrap_Zsum_wrap (fun x => x + 1)), Zsum_succ, Hlt.
    do 3 f_equal. lia.
  - intros Hall. apply Forall_app. split.
    + apply Forall_fmap, Forall_forall. intros x _. apply wrap_range.
    + by apply Forall_drop.
Qed.

End PerformanceVariationRuns.

(** ** The program of file 14 *)

Section SimProgram.

Import ArraySum FalseSharingSim.

Variables (malloc_ok : Z → bool) (junk : Z).
Variable schedule : Z → Z → Z → Z.
Variable team : Z.

(** The program of file 14 once the array is loaded. *)
Lemma sim_main_after_load (argc N T : Z) (mode : string) :
  4 ≤ argc → 0 ≤ N → allocatable N sizeof_unsigned_long →
  malloc_ok (N * 8) = true → valid_mode mode = true →
  main malloc_ok junk schedule team argc mode N T fresh_world
  = (r ← (if String.eqb mode "good" then
            good_branch schedule team ((fun i => i + 1) <$> seqZ 0 N) N T 0
          else if String.eqb mode "bad-fs" then
            bad_fs_branch malloc_ok junk schedule team
              ((fun i => i + 1) <$> seqZ 0 N) N T 0
          else if String.eqb mode "bad-ma" then
            bad_ma_branch schedule team ((fun i => i + 1) <$> seqZ 0 N) N T 0
          else mret {| total := 0; visited := [] |});
     _ ← print (total r);
     mret 0)
      {| mallocs := [N * 8]; printed := [] |}.
Proof.
  intros Hargc H0 Halloc Hok Hmode.
  destruct (array_request junk N H0 Halloc) as (HN & Hw & Hreq & Hlen).
  unfold main. rewrite Hmode, Hw. simpl negb. cbv iota.
  destruct (Z.ltb_spec argc 4); [lia|].
  unfold mbind at 1, M_bind at 1, bindM at 1, malloc at 1.
  rewrite Hreq, Hok.
  unfold mbind at 1, M_bind at 1, bindM at 1, lift at 1.
  rewrite load_array_spec by done. done.
Qed.

(** X16 (program 14, end to end).  The program accepts every size,
    0 included, and never checks the thread count.  For a size
    [N >= 0] that fits in memory, [T >= 1] threads, every team of
    [1 <= team <= T] threads and every schedule
    of the work-sharing loops, it returns 0 and prints the sum
    [N(N+1)/2] modulo 2^64 in each of its three modes; the mode
    [bad-fs] allocates [T * 8] more bytes. *)
Theorem sim_main_prints_sum (argc N T : Z) :
  4 ≤ argc → 0 ≤ N → allocatable N sizeof_unsigned_long →
  1 ≤ T ≤ INT_MAX → 1 ≤ team ≤ T →
  valid_schedule (schedule N team) N team →
  malloc_ok (N * 8) = true → malloc_ok (T * 8) = true →
  main malloc_ok junk schedule team argc "good" N T fresh_world
  = (Done 0, {| mallocs := [N * 8]; printed := [wrap (N * (N + 1) / 2)] |})
  ∧ main malloc_ok junk schedule team argc "bad-fs" N T fresh_world
    = (Done 0, {| mallocs := [N * 8; T * 8];
                  printed := [wrap (N * (N + 1) / 2)] |})
  ∧ main malloc_ok junk schedule team argc "bad-ma" N T fresh_world
    = (Done 0, {| mallocs := [N * 8]; printed := [wrap (N * (N + 1) / 2)] |}).
Proof.
  intros Hargc H0 Halloc HT Hteam Hsched Hok Hok8.
  set (array := (fun i => i + 1) <$> seqZ 0 N).
  assert (Z.of_nat (length array) = N) as Hla
    by (unfold array; rewrite length_fmap, length_seqZ; lia).
  assert (wrap (Zsum array) = wrap (N * (N + 1) / 2)) as Hsum
    by (unfold array; by rewrite Zsum_sequential by lia).
  split_and!.
  - rewrite sim_main_after_load by done. fold array.
    cbn [String.eqb Ascii.eqb Bool.eqb].
    unfold good_branch, mbind, M_bind, bindM, mret, M_ret, ret, lift, print.
    rewrite (reduction_linear_spec schedule N T team) by done.
    simpl. by rewrite Hsum.
  - rewrite sim_main_after_load by done. fold array.
    cbn [String.eqb Ascii.eqb Bool.eqb].
    unfold mbind, M_bind, bindM, mret, M_ret, ret, print.
    rewrite (bad_fs_branch_spec schedule N T team) by done.
    simpl. by rewrite Hsum.
  - rewrite sim_main_after_load by done. fold array.
    cbn [String.eqb Ascii.eqb Bool.eqb].
    unfold bad_ma_branch, mbind, M_bind, bindM, mret, M_ret, ret, lift, print.
    rewrite (reduction_linear_spec schedule N T team) by done.
    simpl. by rewrite Hsum.
Qed.

(** X17 (program 14, unchecked [malloc]).  The mode [bad-fs] does
    not test the pointer [malloc] returns for the partial sums: when
    that allocation fails, the loop that zeroes them writes through
    the null pointer and nothing is printed (the other programs call
    [exit(EXIT_FAILURE)] there). *)
Theorem sim_bad_fs_unchecked_malloc (argc N T : Z) :
  4 ≤ argc → 0 ≤ N → allocatable N sizeof_unsigned_long →
  1 ≤ T ≤ INT_MAX →
  malloc_ok (N * 8) = true → malloc_ok (T * 8) = false →
  main malloc_ok junk schedule team argc "bad-fs" N T fresh_world
  = (Fault OutOfBounds, {| mallocs := [N * 8; T * 8]; printed := [] |}).
Proof.
  intros Hargc H0 Halloc HT Hok Hfail.
  destruct (packed_request T HT) as [Hreq8 _].
  rewrite sim_main_after_load by done.
  cbn [String.eqb Ascii.eqb Bool.eqb].
  unfold bad_fs_branch, mbind, M_bind, bindM, mret, M_ret, ret, print,
    malloc, lift.
  rewrite Hreq8, Hfail. cbn [block_of default].
  rewrite for_range_first by lia.
  rewrite store_out by (simpl; lia). done.
Qed.

End SimProgram.

(** ** The program of file 23 *)

Section ThreadSpecificWrites.

Import MatrixInit.

Lemma for_int_stride_iterate {S} (body : Z → S → outcome S) hi step :
  0 < step → hi + step ≤ INT_MAX + 1 →
  ∀ (fuel : nat) lo s,
    0 ≤ lo → hi - lo ≤ Z.of_nat fuel →
    for_int_stride fuel hi step body lo s = iterate body (strided lo hi step) s.
Proof.
  intros Hs Hw. induction fuel as [|fuel IH]; intros lo s Hlo Hf.
  - rewrite strided_nil by lia. simpl.
    destruct (Z.ltb_spec lo hi); [lia|done].
  - simpl. destruct (Z.ltb_spec lo hi).
    + rewrite strided_cons by done. cbn.
      destruct (body lo s) as [s'|f]; cbn; [|done].
      unfold int_add.
      destruct (Z.leb_spec (- INT_MAX - 1) (lo + step)); [|lia].
      destruct (Z.leb_spec (lo + step) INT_MAX); [|lia].
      cbn. apply IH; lia.
    + by rewrite strided_nil by lia.
Qed.

Lemma wrote_with_nil f m : wrote_with f [] m m.
Proof.
  split_and!; [done|by rewrite app_nil_r|done|].
  intros o. by rewrite bool_decide_eq_false_2 by apply not_elem_of_nil.
Qed.

Lemma wrote_with_app f l1 l2 m m1 m2 :
  wrote_with f l1 m m1 → wrote_with f l2 m1 m2 → wrote_with f (l1 ++ l2) m m2.
Proof.
  intros (Hr1 & Hw1 & Hl1 & Hb1) (Hr2 & Hw2 & Hl2 & Hb2). split_and!.
  - congruence.
  - by rewrite Hw2, Hw1, app_assoc.
  - congruence.
  - intros o. rewrite Hb2, Hb1.
    destruct (bool_decide_reflect (Z.of_nat o ∈ l2)) as [H2|H2].
    + by rewrite bool_decide_eq_true_2 by (apply elem_of_app; auto).
    + destruct (bool_decide_reflect (Z.of_nat o ∈ l1)) as [H1|H1].
      * by rewrite bool_decide_eq_true_2 by (apply elem_of_app; auto).
      * rewrite bool_decide_eq_false_2; [done|].
        rewrite elem_of_app. tauto.
Qed.

Lemma write_cell_wrote_with f i j v row m :
  0 ≤ i → rows m !! Z.to_nat i = Some row →
  0 ≤ row + j < Z.of_nat (length (a_block m)) →
  v = f (row + j) →
  ∃ m', write_cell i j v m = Done m' ∧ wrote_with f [row + j] m m'.
Proof.
  intros Hi Hrow Hoff ->. unfold write_cell.
  rewrite (load_Done _ i row) by done. cbn.
  rewrite store_Done by done. cbn.
  eexists. split; [done|]. split_and!; simpl; [done|done|by rewrite length_insert|].
  intros o. destruct (decide (o = Z.to_nat (row + j))) as [->|Hne].
  - rewrite list_lookup_insert_eq by lia.
    rewrite bool_decide_eq_true_2 by (apply list_elem_of_singleton; lia).
    by rewrite Z2Nat.id by lia.
  - rewrite list_lookup_insert_ne by done.
    rewrite bool_decide_eq_false_2; [done|].
    rewrite list_elem_of_singleton. lia.
Qed.

Lemma iterate_wrote_with (R : list Z) (L : nat) f (offs : Z → list Z)
    (body : Z → matrix → outcome matrix) l m :
  (∀ k m, k ∈ l → rows m = R → length (a_block m) = L →
          ∃ m', body k m = Done m' ∧ wrote_with f (offs k) m m') →
  rows m = R → length (a_block m) = L →
  ∃ m', iterate body l m = Done m' ∧ wrote_with f (l ≫= offs) m m'.
Proof.
  revert m. induction l as [|k l IH]; intros m Hbody HR HL.
  - exists m. split; [done|]. apply wrote_with_nil.
  - destruct (Hbody k m ltac:(left) HR HL) as (m1 & Hb & Hw1).
    destruct (IH m1) as (m2 & Hrun & Hw2).
    { intros. apply Hbody; [by right|done..]. }
    { destruct Hw1 as (? & _). congruence. }
    { destruct Hw1 as (_ & _ & ? & _). congruence. }
    exists m2. split.
    + cbn. by rewrite Hb.
    + cbn. by eapply wrote_with_app.
Qed.

Variable schedule : Z → Z → Z → Z.
Variables N T team : Z.
Hypothesis HN : 1 ≤ N.
Hypothesis HT : 1 ≤ team ≤ T.
Hypothesis Hsched : valid_schedule (schedule N team) N team.
Hypothesis Hstep : N + T ≤ INT_MAX + 1.

Lemma elem_of_bad_fs_offsets o :
  o ∈ bad_fs_offsets (schedule N team) N T team
  ↔ ∃ i j, 0 ≤ i < N ∧ 0 ≤ j < N ∧ j mod T = schedule N team i ∧ o = j * N + i.
Proof.
  unfold bad_fs_offsets. rewrite list_elem_of_bind. split.
  - intros (tid & (i & (j & ->%list_elem_of_singleton & Hj)%list_elem_of_bind
                   & [Hown [? ?]%elem_of_seqZ]%list_elem_of_filter)%list_elem_of_bind
                & [? ?]%elem_of_seqZ).
    apply elem_of_strided in Hj as (k & Hk & -> & Hlt); [|lia].
    exists i, (tid + k * T). split_and!; [(lia || nia)..| |done].
    rewrite Z.mod_add, Z.mod_small by lia. done.
  - intros (i & j & Hi & Hj & Hmod & ->).
    pose proof (Hsched i Hi) as Hrange.
    exists (schedule N team i). split; [|apply elem_of_seqZ; lia].
    apply list_elem_of_bind. exists i. split.
    + apply list_elem_of_bind. exists j. split; [by apply list_elem_of_singleton|].
      apply elem_of_strided; [lia|]. exists (j / T).
      split; [apply Z.div_pos; lia|]. split; [|lia].
      rewrite <- Hmod. rewrite (Z.div_mod j T) at 1 by lia. lia.
    + apply list_elem_of_filter. split; [done|apply elem_of_seqZ; lia].
Qed.

Lemma NoDup_bad_fs_offsets : NoDup (bad_fs_offsets (schedule N team) N T team).
Proof.
  unfold bad_fs_offsets.
  apply NoDup_bind; [| |apply NoDup_seqZ].
  - intros t1 t2 o _ _
      (i1 & (j1 & ->%list_elem_of_singleton & Hj1)%list_elem_of_bind
       & [Hown1 [? ?]%elem_of_seqZ]%list_elem_of_filter)%list_elem_of_bind
      (i2 & (j2 & Heq%list_elem_of_singleton & Hj2)%list_elem_of_bind
       & [Hown2 [? ?]%elem_of_seqZ]%list_elem_of_filter)%list_elem_of_bind.
    assert (i1 = i2); [|congruence].
    assert ((j1 * N + i1) mod N = (j2 * N + i2) mod N) as Hm by congruence.
    rewrite !(Z.add_comm (_ * N)), !Z.mod_add, !Z.mod_small in Hm by lia. done.
  - intros tid _. apply NoDup_bind.
    + intros i1 i2 o [_ [? ?]%elem_of_seqZ]%list_elem_of_filter
        [_ [? ?]%elem_of_seqZ]%list_elem_of_filter
        (j1 & ->%list_elem_of_singleton & Hj1)%list_elem_of_bind
        (j2 & Heq%list_elem_of_singleton & Hj2)%list_elem_of_bind.
      assert ((j1 * N + i1) mod N = (j2 * N + i2) mod N) as Hm by congruence.
      rewrite !(Z.add_comm (_ * N)), !Z.mod_add, !Z.mod_small in Hm by lia. done.
    + intros i _. apply NoDup_bind; [| |apply NoDup_strided; lia].
      * intros j1 j2 o _ _ ->%list_elem_of_singleton Heq%list_elem_of_singleton.
        nia.
      * intros. apply NoDup_singleton.
    + apply NoDup_filter, NoDup_seqZ.
Qed.

Lemma bad_fs_mode_spec (fuel : nat) blk :
  N ≤ Z.of_nat fuel → Z.of_nat (length blk) = N * N →
  ∃ m', bad_fs_mode schedule team fuel
          {| rows := row_offsets N; a_block := blk; writes := [] |} N T
        = Done m'
        ∧ wrote_with (fun o => 17 + schedule N team (o mod N))
            (bad_fs_offsets (schedule N team) N T team)
            {| rows := row_offsets N; a_block := blk; writes := [] |} m'.
Proof.
  intros Hfuel Hblk. unfold bad_fs_mode, parallel_for, parallel.
  rewrite Z.sub_0_r.
  apply (iterate_wrote_with (row_offsets N) (length blk)); [|done..].
  intros tid m [? ?]%elem_of_seqZ HR HL.
  apply (iterate_wrote_with (row_offsets N) (length blk)); [|done..].
  intros i m1 [Hown [? ?]%elem_of_seqZ]%list_elem_of_filter HR1 HL1.
  rewrite for_int_stride_iterate by lia.
  apply (iterate_wrote_with (row_offsets N) (length blk)); [|done..].
  intros j m2 Hj HR2 HL2.
  apply elem_of_strided in Hj as (k & Hk & -> & Hlt); [|lia].
  assert (0 ≤ k * T) by nia.
  unfold int_add.
  destruct (Z.leb_spec (- INT_MAX - 1) (17 + tid)); [|unfold INT_MAX in *; lia].
  destruct (Z.leb_spec (17 + tid) INT_MAX); [|unfold INT_MAX in *; lia].
  cbn.
  apply write_cell_wrote_with;
    [lia|rewrite HR2; apply lookup_row_offsets; lia|rewrite HL2; nia|].
  rewrite (Z.add_comm (_ * N)), Z.mod_add, Z.mod_small by lia. by rewrite Hown.
Qed.

End ThreadSpecificWrites.

Section MatrixBadFs.

Import MatrixInit.

Variables (malloc_ok : Z → bool) (junk : Z).
Variable schedule : Z → Z → Z → Z.

Lemma bad_fs_mode_cells (fuel : nat) (N T team : Z) (blk : list Z) :
  1 ≤ N → 1 ≤ team ≤ T → N + T ≤ INT_MAX + 1 →
  valid_schedule (schedule N team) N team →
  N ≤ Z.of_nat fuel → Z.of_nat (length blk) = N * N →
  ∃ m', bad_fs_mode schedule team fuel
          {| rows := row_offsets N; a_block := blk; writes := [] |} N T
        = Done m'
        ∧ rows m' = row_offsets N
        ∧ writes m' = bad_fs_offsets (schedule N team) N T team
        ∧ length (a_block m') = length blk
        ∧ (∀ i j, 0 ≤ i < N → 0 ≤ j < N →
             a_block m' !! Z.to_nat (j * N + i)
             = if j mod T =? schedule N team i then Some (17 + schedule N team i)
               else blk !! Z.to_nat (j * N + i)).
Proof.
  intros HN HT Hstep Hsched Hfuel Hblk.
  destruct (bad_fs_mode_spec schedule N T team HN HT Hstep fuel blk Hfuel Hblk)
    as (m' & Hrun & HR & HW & HL & HB).
  simpl in HR, HW, HL, HB.
  exists m'. split_and!; [done..|].
  intros i j Hi Hj. rewrite HB. rewrite Z2Nat.id by nia.
  rewrite (Z.add_comm (j * N)), Z.mod_add, Z.mod_small by lia.
  destruct (Z.eqb_spec (j mod T) (schedule N team i)) as [Heq|Hne].
  - rewrite bool_decide_eq_true_2; [done|].
    apply elem_of_bad_fs_offsets; [done..|]. exists i, j. split_and!; (lia || done).
  - rewrite bool_decide_eq_false_2; [done|].
    intros (i' & j' & Hi' & Hj' & Hmod & Heq)%elem_of_bad_fs_offsets; [|done..].
    assert (i' = i ∧ j' = j) as [-> ->]; [|done].
    assert ((i + j * N) mod N = (j' * N + i') mod N) as Hm by congruence.
    rewrite (Z.add_comm (j' * N)), !Z.mod_add, !Z.mod_small in Hm by lia.
    split; [done|]. nia.
Qed.

(** X18 ([bad_fs_mode]).  When [j += threads] cannot overflow, with
    every team of [1 <= team <= T] threads the
    function ends normally and writes the cell in row [j], column [i]
    exactly when [j mod T] is the thread the schedule gives column [i]
    to; it stores 17 plus that thread's number there, once, and
    leaves every other cell as it found it.  With one thread this is
    the whole matrix, 17 everywhere. *)
Theorem bad_fs_mode_writes (fuel : nat) (N T team : Z) (blk : list Z) :
  1 ≤ N → 1 ≤ team ≤ T → N + T ≤ INT_MAX + 1 →
  valid_schedule (schedule N team) N team →
  N ≤ Z.of_nat fuel → Z.of_nat (length blk) = N * N →
  ∃ m', bad_fs_mode schedule team fuel
          {| rows := row_offsets N; a_block := blk; writes := [] |} N T
        = Done m'
        ∧ (∀ i j, 0 ≤ i < N → 0 ≤ j < N →
             a_block m' !! Z.to_nat (j * N + i)
             = if j mod T =? schedule N team i then Some (17 + schedule N team i)
               else blk !! Z.to_nat (j * N + i))
        ∧ (∀ i j, 0 ≤ i < N → 0 ≤ j < N →
             j * N + i ∈ writes m' ↔ j mod T = schedule N team i)
        ∧ NoDup (writes m')
        ∧ (T = 1 → a_block m' = replicate (Z.to_nat (N * N)) 17).
Proof.
  intros HN HT Hstep Hsched Hfuel Hblk.
  destruct (bad_fs_mode_cells fuel N T team blk HN HT Hstep Hsched Hfuel Hblk)
    as (m' & Hrun & HR & HW & HL & Hcells).
  exists m'. split_and!; [done..| | |].
  - intros i j Hi Hj. rewrite HW, elem_of_bad_fs_offsets by done. split.
    + intros (i' & j' & Hi' & Hj' & Hmod & Heq).
      assert (i' = i ∧ j' = j) as [-> ->]; [|done].
      assert ((i + j * N) mod N = (j' * N + i') mod N) as Hm
        by (f_equal; lia).
      rewrite (Z.add_comm (j' * N)), !Z.mod_add, !Z.mod_small in Hm by lia.
      split; [done|]. nia.
    + intros Hmod. exists i, j. split_and!; (lia || done).
  - rewrite HW. by apply NoDup_bad_fs_offsets.
  - intros ->. assert (team = 1) as -> by lia. apply list_eq. intros o.
    destruct (decide (Z.of_nat o < N * N)) as [Ho|Ho].
    + rewrite lookup_replicate_2 by lia.
      pose proof (Z.mod_pos_bound (Z.of_nat o) N ltac:(lia)).
      pose proof (Z.div_mod (Z.of_nat o) N ltac:(lia)).
      assert (0 ≤ Z.of_nat o / N) by (apply Z.div_pos; lia).
      assert (Z.of_nat o / N < N) by (apply Z.div_lt_upper_bound; lia).
      replace o with (Z.to_nat (Z.of_nat o / N * N + Z.of_nat o mod N)) at 1 by lia.
      rewrite Hcells by lia.
      pose proof (Hsched (Z.of_nat o mod N) ltac:(lia)).
      rewrite Z.mod_1_r.
      replace (schedule N 1 (Z.of_nat o mod N)) with 0 by lia. done.
    + rewrite lookup_ge_None_2 by lia. symmetry.
      apply lookup_replicate_None. lia.
Qed.


Lemma assign_rows_overflow (rows0 : list Z) (N : Z) :
  1 ≤ N ≤ INT_MAX → INT_MAX < (N - 1) * N →
  Z.of_nat (length rows0) = N →
  assign_rows rows0 N = Fault IntOverflow.
Proof.
  intros HN Hbig Hlen. unfold assign_rows.
  set (i0 := INT_MAX / N + 1).
  assert (0 ≤ INT_MAX / N) by (apply Z.div_pos; unfold INT_MAX; lia).
  pose proof (Z.div_mod INT_MAX N ltac:(lia)) as Hdm.
  pose proof (Z.mod_pos_bound INT_MAX N ltac:(lia)) as Hmb.
  assert (INT_MAX < i0 * N ∧ (i0 - 1) * N ≤ INT_MAX ∧ 1 ≤ i0 < N) as (Hi0 & Hp & Hr).
  { unfold i0. split_and!; nia. }
  rewrite (for_range_split _ 0 i0 N) by lia.
  destruct (for_range_inv
    (fun i a => length a = length rows0)
    0 i0 (fun i rows => off ← int_mul i N; store rows i off) rows0)
    as (a & -> & Hl); [lia|done| |].
  - intros i a Hi Hl. unfold int_mul.
    assert (- INT_MAX - 1 ≤ i * N ≤ INT_MAX) as [? ?]
      by (unfold INT_MAX in *; nia).
    destruct (Z.leb_spec (- INT_MAX - 1) (i * N)); [|lia].
    destruct (Z.leb_spec (i * N) INT_MAX); [|lia]. cbn.
    rewrite store_Done by lia.
    eexists. split; [done|]. by rewrite length_insert.
  - cbn. rewrite for_range_first by lia. unfold int_mul.
    destruct (Z.leb_spec (i0 * N) INT_MAX); [lia|].
    by rewrite andb_false_r.
Qed.

(** X20 (program 23, row offsets).  [a_block + i * N] multiplies
    two [int]s.  For [N] rows with [(N - 1) * N] above [INT_MAX] (from
    46342 rows on) the product overflows while the row pointers are
    assigned: in every mode the program stops there, both blocks
    allocated and nothing printed. *)
Theorem row_offset_overflow (fuel : nat) (argc N T team : Z) (mode : string)
    (rows0 : list Z) :
  1 ≤ N ≤ INT_MAX → INT_MAX < (N - 1) * N →
  (Z.of_nat (length rows0) = N → assign_rows rows0 N = Fault IntOverflow)
  ∧ (4 ≤ argc → valid_mode mode = true →
     malloc_ok (8 * N) = true → malloc_ok (4 * N * N) = true →
     main malloc_ok junk schedule team fuel argc mode N T fresh_world
     = (Fault IntOverflow,
        {| mallocs := [8 * N; 4 * N * N]; printed := [] |})).
Proof.
  intros HN Hbig. split; [by apply assign_rows_overflow|].
  intros Hargc Hmode Hok_rows Hok_block.
  unfold main. destruct (Z.ltb_spec argc 4); [lia|]. rewrite Hmode.
  unfold mbind, M_bind, bindM, malloc, lift, print, mret, M_ret, ret.
  cbn [negb fresh_world mallocs printed app].
  change sizeof_pointer with 8. change sizeof_int with 4.
  rewrite (wrap_small (8 * N)), Hok_rows
    by (unfold ULONG_MODULUS, INT_MAX in *; lia).
  rewrite (wrap_small (4 * N * N)), Hok_block
    by (unfold ULONG_MODULUS, INT_MAX in *; nia).
  rewrite assign_rows_overflow; [done..|].
  rewrite length_replicate, (Z.mul_comm 8), Z.div_mul by lia. lia.
Qed.

End MatrixBadFs.

(** ** Functions on their own *)

Section LoadArrayTheorem.

(** X1 ([load_array], bounds).  On a buffer of at least [size] cells
    the function sets cell [i] to [i + 1] for every [i < size],
    whatever the cells held, and leaves the cells from [size] on as
    they were; on a shorter buffer it writes out of bounds. *)
Theorem load_array_bounds (array : list Z) (size : Z) :
  0 ≤ size < ULONG_MODULUS →
  (size ≤ Z.of_nat (length array) →
   load_array array size
   = Done (((fun i => i + 1) <$> seqZ 0 size) ++ drop (Z.to_nat size) array))
  ∧ (Z.of_nat (length array) < size →
     load_array array size = Fault OutOfBounds).
Proof.
  intros Hsize. split; intros Hlen.
  - by apply load_array_prefix.
  - apply load_array_short; lia.
Qed.

End LoadArrayTheorem.

Section CompareTheorem.

Import MatrixCompare.

Variables (malloc_ok : Z → bool) (junk : Z).

(** X8 (the comparison kernels on any data).  On two buffers of [N]
    elements each, [compare_good], [compare_bad_fs] and [compare_bad_ma]
    (for every permutation of the indices) return and print the
    number of positions at which the buffers differ, for every thread
    count, when the region is run by the team asked for ([team = T]);
    the count is at most [N], and it is 0 exactly when the
    buffers are equal. *)
Theorem compare_counts_mismatches (team N T : Z) (A B shuffled : list Z) :
  0 ≤ N < ULONG_MODULUS → 1 ≤ T ≤ INT_MAX →
  team = T →
  Z.of_nat (length A) = N → Z.of_nat (length B) = N →
  malloc_ok (T * 64) = true → malloc_ok (T * 8) = true →
  shuffled ≡ₚ seqZ 0 N →
  compare_good malloc_ok junk team A B N T fresh_world
  = (Done {| total := Z.of_nat (mismatches A B); visited := seqZ 0 N |},
     {| mallocs := [T * 64]; printed := [Z.of_nat (mismatches A B)] |})
  ∧ compare_bad_fs malloc_ok junk team A B N T fresh_world
    = (Done {| total := Z.of_nat (mismatches A B); visited := seqZ 0 N |},
       {| mallocs := [T * 8]; printed := [Z.of_nat (mismatches A B)] |})
  ∧ compare_bad_ma malloc_ok junk team A B N T shuffled fresh_world
    = (Done {| total := Z.of_nat (mismatches A B); visited := shuffled |},
       {| mallocs := [T * 64]; printed := [Z.of_nat (mismatches A B)] |})
  ∧ Z.of_nat (mismatches A B) ≤ N
  ∧ (mismatches A B = 0%nat ↔ A = B).
Proof.
  intros HN HT -> HA HB Hok64 Hok8 Hperm.
  pose proof (mismatch_total A B N HN HA HB) as Hc.
  split_and!.
  - by rewrite (compare_good_spec malloc_ok junk N T), Hc.
  - by rewrite (compare_bad_fs_spec malloc_ok junk N T), Hc.
  - by rewrite (compare_bad_ma_spec malloc_ok junk N T), Hc.
  - pose proof (mismatches_bound A B). lia.
  - apply mismatches_none. lia.
Qed.

End CompareTheorem.

Section ShuffleTheorem.

(** X11 (the shuffle on any contents).  Applied to [N >= 1] cells
    holding any values, the shuffle ends normally, with every access
    in bounds, and returns the same values in some order: nothing is
    lost or duplicated, whatever [rand()] returns.  *)
Theorem shuffle_permutes_any_array (rand : nat → Z) (indices : list Z)
    (N : Z) :
  1 ≤ N < ULONG_MODULUS → Z.of_nat (length indices) = N →
  ∃ l, shuffle_array rand indices N = Done l
       ∧ l ≡ₚ indices
       ∧ length l = length indices
       ∧ Zsum l = Zsum indices.
Proof.
  intros HN Hlen.
  destruct (shuffle_array_perm rand indices N HN Hlen) as (l & Hrun & Hp).
  exists l. split_and!; [done|done|by rewrite Hp|by rewrite Hp].
Qed.

End ShuffleTheorem.

Section SequentialSumTheorems.

Import PerformanceVariation.

(** X12 ([sum_random]).  On [size] indices that all lie within the
    array the function returns the sum, modulo 2^64, of the elements
    at those indices; when the indices are a permutation of
    [0, size) that is what [sum_linear] returns.  An index outside the
    array makes it read out of bounds. *)
Theorem sum_random_reads_indices (array indices : list Z) (size : Z) :
  0 ≤ size ≤ Z.of_nat (length indices) →
  ((∀ idx, idx ∈ take (Z.to_nat size) indices
           → 0 ≤ idx < Z.of_nat (length array)) →
   sum_random array indices size
   = Done (wrap (Zsum (elem array <$> take (Z.to_nat size) indices))))
  ∧ (Z.of_nat (length array) = size → indices ≡ₚ seqZ 0 size →
     sum_random array indices size = sum_linear array size)
  ∧ (∀ i, 0 ≤ i < size →
          ¬ (0 ≤ elem indices i < Z.of_nat (length array)) →
          sum_random array indices size = Fault OutOfBounds).
Proof.
  intros Hsize. split_and!.
  - intros Hrange. by apply sum_random_spec.
  - intros Hla Hp.
    assert (Z.of_nat (length indices) = size) as Hli
      by (rewrite Hp, length_seqZ; lia).
    rewrite sum_linear_spec by lia. rewrite sum_random_spec; [|lia|].
    + rewrite !take_ge by lia. rewrite Hp.
      by rewrite take_elem_seqZ, take_ge by lia.
    + intros idx Hidx. rewrite take_ge in Hidx by lia.
      rewrite Hp in Hidx. apply elem_of_seqZ in Hidx. lia.
  - intros i Hi Hbad. apply (sum_random_out_of_bounds _ _ _ i); (lia || done).
Qed.

(** X13 ([sum_strided]).  For a stride of at least 1 (and a size
    that the increment cannot carry past 2^64) the function returns
    the sum, modulo 2^64, of the elements at the indices 0, stride,
    2 stride, .. below [size]; with the stride 1 that is what
    [sum_linear] returns.  With the stride 0 and a non-empty array the
    loop never ends: it runs out of every amount of fuel. *)
Theorem sum_strided_steps (fuel : nat) (array : list Z) (size stride : Z) :
  0 ≤ size ≤ Z.of_nat (length array) →
  (1 ≤ stride → size + stride ≤ ULONG_MODULUS → size ≤ Z.of_nat fuel →
   sum_strided fuel array size stride
   = Done (wrap (Zsum (elem array <$> strided 0 size stride))))
  ∧ (size < ULONG_MODULUS → size ≤ Z.of_nat fuel →
     sum_strided fuel array size 1 = sum_linear array size)
  ∧ (1 ≤ size → sum_strided fuel array size 0 = Fault OutOfFuel).
Proof.
  intros Hsize. split_and!.
  - intros. by apply sum_strided_spec.
  - intros Hw Hfuel.
    rewrite sum_strided_spec, sum_linear_spec by lia.
    by rewrite strided_unit, take_elem_seqZ by lia.
  - intros H1. apply sum_strided_zero. lia.
Qed.

End SequentialSumTheorems.

(** ** Examples *)

Section FurtherExamples.

Lemma load_array_bounds_witness :
  load_array [9; 9; 9; 9; 9] 3 = Done [1; 2; 3; 9; 9]
  ∧ load_array [9; 9] 3 = Fault OutOfBounds.
Proof.
  split.
  - destruct (load_array_bounds [9; 9; 9; 9; 9] 3) as [Hfits _];
      [split; [lia|reflexivity]|].
    apply Hfits. simpl. lia.
  - destruct (load_array_bounds [9; 9] 3) as [_ Hshort];
      [split; [lia|reflexivity]|].
    apply Hshort. simpl. lia.
Defined.

Lemma main_28_prints_sum_witness :
  ArraySum.main_28 (fun _ => true) 0 3 14 4 "good" 14 3 fresh_world
  = (Done EXIT_SUCCESS, {| mallocs := [112; 192]; printed := [105] |})
  ∧ ArraySum.main_28 (fun _ => true) 0 3 14 4 "bad-fs" 14 3 fresh_world
    = (Done EXIT_SUCCESS, {| mallocs := [112; 24]; printed := [105] |})
  ∧ ArraySum.main_28 (fun _ => true) 0 3 14 4 "bad-ma" 14 3 fresh_world
    = (Done EXIT_SUCCESS, {| mallocs := [112; 192]; printed := [63] |}).
Proof.
  apply (main_28_prints_sum (fun _ => true) 0 3 14 14 3);
    [lia|by vm_compute|split; [lia|by vm_compute]|reflexivity|lia
    |reflexivity..].
Defined.

Lemma oversized_array_overflows_witness :
  ArraySum.main_28 (fun _ => true) 0 4 0 4 "good" (2 ^ 61) 4 fresh_world
  = (Fault OutOfBounds, {| mallocs := [0]; printed := [] |})
  ∧ ArraySum.main_29 (fun _ => true) 0 4 (fun _ => 0) 4 "good" (2 ^ 61) 4
      fresh_world
    = (Fault OutOfBounds, {| mallocs := [0]; printed := [] |})
  ∧ FalseSharingSim.main (fun _ => true) 0 static_schedule 4 4 "good"
      (2 ^ 61) 4 fresh_world
    = (Fault OutOfBounds, {| mallocs := [0]; printed := [] |})
  ∧ PerformanceVariation.main (fun _ => true) 0 0 (fun _ => 0) 3 "good"
      (2 ^ 61) fresh_world
    = (Fault OutOfBounds, {| mallocs := [0]; printed := [] |}).
Proof.
  destruct (oversized_array_overflows (fun _ => true) 0 4 static_schedule 0
              (fun _ => 0) (2 ^ 61) 4 "good")
    as (Harray & Hsim & Hperf);
    [split; [lia|reflexivity]|by vm_compute|reflexivity|].
  destruct Harray as [H28 H29]; [reflexivity|lia|].
  exact (conj H28 (conj H29 (conj (Hsim eq_refl) Hperf))).
Defined.

Lemma allocation_failure_exits_witness :
  ArraySum.main_28 (fun _ => false) 0 2 10 4 "good" 10 2 fresh_world
  = (Done EXIT_FAILURE, {| mallocs := [80]; printed := [] |})
  ∧ ArraySum.main_28 (fun bytes => bytes <? 100) 0 2 10 4 "good" 10 2
      fresh_world
    = (Fault (Exit EXIT_FAILURE), {| mallocs := [80; 128]; printed := [] |}).
Proof.
  split.
  - destruct (allocation_failure_exits (fun _ => false) 0 2 10 10 2 "good")
      as [Harray _];
      [lia|by vm_compute|split; [lia|by vm_compute]|lia|reflexivity|].
    apply Harray. reflexivity.
  - destruct (allocation_failure_exits (fun bytes => bytes <? 100) 0 2 10 10 2
                "good") as [_ Hslots];
      [lia|by vm_compute|split; [lia|by vm_compute]|lia|reflexivity|].
    apply Hslots; reflexivity.
Defined.

Lemma strided_warning_is_accurate_witness :
  ∃ warning rep,
    (ArraySum.sum_bad_ma_strided (fun _ => true) 0 2 6 [1; 2; 3; 4; 5; 6] 6 2 4
       fresh_world).1 = Done (warning, rep)
    ∧ warning = negb (Z.gcd 4 6 =? 1)
    ∧ (∀ idx, idx ∈ visited rep → 0 ≤ idx < 6 ∧ (Z.gcd 4 6 | idx))
    ∧ (warning = false → visited rep ≡ₚ seqZ 0 6)
    ∧ (warning = true → 1 < 6 ∧ 1 ∉ visited rep).
Proof.
  apply (strided_warning_is_accurate (fun _ => true) 0 2 6 [1; 2; 3; 4; 5; 6]
           6 2 4);
    [lia|by vm_compute|split; [lia|by vm_compute]|reflexivity|lia|lia
    |by vm_compute|reflexivity|reflexivity].
Defined.

Lemma indexed_sum_reads_indices_witness :
  ∃ rep,
    ArraySum.sum_bad_ma_shuffled (fun _ => true) 0 2 [10; 20; 30] 3 2 [2; 2; 0]
      fresh_world
    = (Done rep, {| mallocs := [128]; printed := [70] |})
    ∧ total rep = 70
    ∧ visited rep ≡ₚ [2; 2; 0].
Proof.
  apply (indexed_sum_reads_indices (fun _ => true) 0 3 2);
    [split; [lia|reflexivity]|split; [lia|by vm_compute]|reflexivity
    |reflexivity| |reflexivity].
  intros idx Hin.
  repeat (apply elem_of_cons in Hin as [->|Hin]; [simpl; lia|]).
  by apply elem_of_nil in Hin.
Defined.

Lemma main_29_prints_sum_witness :
  ArraySum.main_29 (fun _ => true) 0 3 (fun k => Z.of_nat k * 7 + 3) 4 "good"
    10 3 fresh_world
  = (Done EXIT_SUCCESS, {| mallocs := [80; 192]; printed := [55] |})
  ∧ ArraySum.main_29 (fun _ => true) 0 3 (fun k => Z.of_nat k * 7 + 3) 4
      "bad-fs" 10 3 fresh_world
    = (Done EXIT_SUCCESS, {| mallocs := [80; 24]; printed := [55] |})
  ∧ ArraySum.main_29 (fun _ => true) 0 3 (fun k => Z.of_nat k * 7 + 3) 4
      "bad-ma" 10 3 fresh_world
    = (Done EXIT_SUCCESS, {| mallocs := [80; 80; 192]; printed := [55] |}).
Proof.
  apply (main_29_prints_sum (fun _ => true) 0 3 (fun k => Z.of_nat k * 7 + 3)
           10 3);
    [lia|by vm_compute|split; [lia|by vm_compute]|reflexivity..].
Defined.

Lemma compare_counts_mismatches_witness :
  MatrixCompare.compare_good (fun _ => true) 0 2 [1; 2; 3; 4] [1; 5; 3; 6] 4 2
    fresh_world
  = (Done {| total := 2; visited := [0; 1; 2; 3] |},
     {| mallocs := [128]; printed := [2] |})
  ∧ MatrixCompare.compare_bad_fs (fun _ => true) 0 2 [1; 2; 3; 4] [1; 5; 3; 6]
      4 2 fresh_world
    = (Done {| total := 2; visited := [0; 1; 2; 3] |},
       {| mallocs := [16]; printed := [2] |})
  ∧ MatrixCompare.compare_bad_ma (fun _ => true) 0 2 [1; 2; 3; 4] [1; 5; 3; 6]
      4 2 [3; 1; 0; 2] fresh_world
    = (Done {| total := 2; visited := [3; 1; 0; 2] |},
       {| mallocs := [128]; printed := [2] |})
  ∧ 2 ≤ 4
  ∧ (mismatches [1; 2; 3; 4] [1; 5; 3; 6] = 0%nat
     ↔ [1; 2; 3; 4] = [1; 5; 3; 6]).
Proof.
  apply (compare_counts_mismatches (fun _ => true) 0 2 4 2
           [1; 2; 3; 4] [1; 5; 3; 6] [3; 1; 0; 2]);
    [split; [lia|reflexivity]|split; [lia|by vm_compute]|reflexivity..|].
  by apply (bool_decide_unpack _); vm_compute.
Defined.

Lemma main_31_prints_count_witness :
  MatrixCompare.main (fun _ => true) 0 4 2500 (fun k => Z.of_nat k * 7 + 3) 4
    "good" 50 4 fresh_world
  = (Done EXIT_SUCCESS,
     {| mallocs := [20000; 20000; 256]; printed := [3] |})
  ∧ MatrixCompare.main (fun _ => true) 0 4 2500 (fun k => Z.of_nat k * 7 + 3)
      4 "bad-fs" 50 4 fresh_world
    = (Done EXIT_SUCCESS,
       {| mallocs := [20000; 20000; 32]; printed := [3] |})
  ∧ MatrixCompare.main (fun _ => true) 0 4 2500 (fun k => Z.of_nat k * 7 + 3)
      4 "bad-ma" 50 4 fresh_world
    = (Done EXIT_SUCCESS,
       {| mallocs := [20000; 20000; 20000; 256]; printed := [3] |}).
Proof.
  apply (main_31_prints_count (fun _ => true) 0 4 2500
           (fun k => Z.of_nat k * 7 + 3) 50 4);
    [split; [lia|reflexivity]|by vm_compute|by vm_compute
    |split; [lia|by vm_compute]|reflexivity|by vm_compute|reflexivity..].
Defined.

Lemma main_31_empty_matrices_witness :
  MatrixCompare.main (fun _ => true) 0 1 0 (fun _ => 0) 4 "good" (2 ^ 32) 2
    fresh_world
  = (Done EXIT_SUCCESS, {| mallocs := [0; 0; 128]; printed := [0] |})
  ∧ MatrixCompare.main (fun _ => true) 0 1 0 (fun _ => 0) 4 "bad-fs" (2 ^ 32) 2
      fresh_world
    = (Done EXIT_SUCCESS, {| mallocs := [0; 0; 16]; printed := [0] |})
  ∧ MatrixCompare.main (fun _ => true) 0 1 0 (fun _ => 0) 4 "bad-ma" (2 ^ 32) 2
      fresh_world
    = (Fault DivByZero, {| mallocs := [0; 0; 0]; printed := [] |}).
Proof.
  apply (main_31_empty_matrices (fun _ => true) 0 1 0 (fun _ => 0) (2 ^ 32) 2);
    [split; [lia|reflexivity]|reflexivity|split; [lia|by vm_compute]|lia
    |reflexivity..].
Defined.

Lemma shuffle_permutes_any_array_witness :
  ∃ l, shuffle_array (fun k => Z.of_nat k * 3 + 1) [5; 5; 7; 1] 4 = Done l
       ∧ l ≡ₚ [5; 5; 7; 1]
       ∧ length l = 4%nat
       ∧ Zsum l = 18.
Proof.
  apply (shuffle_permutes_any_array (fun k => Z.of_nat k * 3 + 1)
           [5; 5; 7; 1] 4);
    [split; [lia|reflexivity]|reflexivity].
Defined.

Lemma sum_random_reads_indices_witness :
  PerformanceVariation.sum_random [10; 20; 30] [2; 0; 1] 3 = Done 60
  ∧ PerformanceVariation.sum_random [10; 20; 30] [2; 0; 1] 3
    = PerformanceVariation.sum_linear [10; 20; 30] 3
  ∧ PerformanceVariation.sum_random [10; 20; 30] [2; 0; 3] 3
    = Fault OutOfBounds.
Proof.
  destruct (sum_random_reads_indices [10; 20; 30] [2; 0; 1] 3)
    as (Hsum & Hlinear & _); [simpl; lia|].
  destruct (sum_random_reads_indices [10; 20; 30] [2; 0; 3] 3)
    as (_ & _ & Hfault); [simpl; lia|].
  split_and!.
  - apply Hsum. intros idx Hin.
    repeat (apply elem_of_cons in Hin as [->|Hin]; [simpl; lia|]).
    by apply elem_of_nil in Hin.
  - apply Hlinear; [reflexivity|].
    by apply (bool_decide_unpack _); vm_compute.
  - apply (Hfault 2); [lia|]. vm_compute. intros [_ H]. discriminate H.
Defined.

Lemma sum_strided_steps_witness :
  PerformanceVariation.sum_strided 10 [1; 2; 3; 4; 5; 6; 7; 8; 9; 10] 10 5
  = Done 7
  ∧ PerformanceVariation.sum_strided 10 [1; 2; 3; 4; 5; 6; 7; 8; 9; 10] 10 1
    = PerformanceVariation.sum_linear [1; 2; 3; 4; 5; 6; 7; 8; 9; 10] 10
  ∧ PerformanceVariation.sum_strided 10 [1; 2; 3; 4; 5; 6; 7; 8; 9; 10] 10 0
    = Fault OutOfFuel.
Proof.
  destruct (sum_strided_steps 10 [1; 2; 3; 4; 5; 6; 7; 8; 9; 10] 10 5)
    as (Hsum & Hunit & Hzero); [simpl; lia|].
  split_and!.
  - apply Hsum; [lia|by vm_compute|lia].
  - apply Hunit; [reflexivity|lia].
  - apply Hzero. lia.
Defined.

Lemma main_bad_mode_prints_sums_witness :
  PerformanceVariation.main (fun _ => true) 0 12 (fun k => Z.of_nat k * 7 + 3)
    3 "bad" 12 fresh_world
  = (Done 0, {| mallocs := [96; 96]; printed := [78; 18] |}).
Proof.
  apply (main_bad_mode_prints_sums (fun _ => true) 0 12
           (fun k => Z.of_nat k * 7 + 3) 3 12);
    [lia|lia|by vm_compute|lia|reflexivity].
Defined.

Lemma modified_sum_is_linear_sum_witness :
  ∃ array' s,
    PerformanceVariation.modify_and_sum [5; 7; 11; 13] 3 = Done (array', s)
    ∧ PerformanceVariation.sum_linear array' 3 = Done s
    ∧ Forall (fun x => 0 ≤ x < ULONG_MODULUS) array'.
Proof.
  destruct (modified_sum_is_linear_sum [5; 7; 11; 13] 3)
    as (array' & s & Hrun & Hlinear & Hrange); [simpl; lia|].
  exists array', s. split; [exact Hrun|]. split; [exact Hlinear|].
  apply Hrange. repeat constructor; reflexivity || lia.
Defined.

Lemma sim_main_prints_sum_witness :
  FalseSharingSim.main (fun _ => true) 0 static_schedule 2 4 "good" 10 3
    fresh_world
  = (Done 0, {| mallocs := [80]; printed := [55] |})
  ∧ FalseSharingSim.main (fun _ => true) 0 static_schedule 2 4 "bad-fs" 10 3
      fresh_world
    = (Done 0, {| mallocs := [80; 24]; printed := [55] |})
  ∧ FalseSharingSim.main (fun _ => true) 0 static_schedule 2 4 "bad-ma" 10 3
      fresh_world
    = (Done 0, {| mallocs := [80]; printed := [55] |}).
Proof.
  apply (sim_main_prints_sum (fun _ => true) 0 static_schedule 2 4 10 3);
    [lia|lia|by vm_compute|split; [lia|by vm_compute]|lia
    |apply static_schedule_valid; lia|reflexivity..].
Defined.

Lemma sim_bad_fs_unchecked_malloc_witness :
  FalseSharingSim.main (fun bytes => bytes =? 80) 0 static_schedule 3 4
    "bad-fs" 10 3 fresh_world
  = (Fault OutOfBounds, {| mallocs := [80; 24]; printed := [] |}).
Proof.
  apply (sim_bad_fs_unchecked_malloc (fun bytes => bytes =? 80) 0
           static_schedule 3 4 10 3);
    [lia|lia|by vm_compute|split; [lia|by vm_compute]|reflexivity..].
Defined.

Lemma bad_fs_mode_writes_witness :
  ∃ m', MatrixInit.bad_fs_mode static_schedule 2 4
          {| MatrixInit.rows := row_offsets 4;
             MatrixInit.a_block := replicate 16 0;
             MatrixInit.writes := [] |} 4 2
        = Done m'
        ∧ (∀ i j, 0 ≤ i < 4 → 0 ≤ j < 4 →
             MatrixInit.a_block m' !! Z.to_nat (j * 4 + i)
             = if j mod 2 =? static_schedule 4 2 i
               then Some (17 + static_schedule 4 2 i)
               else replicate 16 0 !! Z.to_nat (j * 4 + i))
        ∧ (∀ i j, 0 ≤ i < 4 → 0 ≤ j < 4 →
             j * 4 + i ∈ MatrixInit.writes m'
             ↔ j mod 2 = static_schedule 4 2 i)
        ∧ NoDup (MatrixInit.writes m')
        ∧ (2 = 1 → MatrixInit.a_block m' = replicate (Z.to_nat (4 * 4)) 17).
Proof.
  apply (bad_fs_mode_writes static_schedule 4 4 2 2 (replicate 16 0));
    [lia|lia|by vm_compute|apply static_schedule_valid; lia|lia|reflexivity].
Defined.


Lemma row_offset_overflow_witness :
  MatrixInit.assign_rows (replicate (Z.to_nat 46342) 0) 46342 = Fault IntOverflow
  ∧ MatrixInit.main (fun _ => true) 0 static_schedule 1 0 4 "good" 46342 1
      fresh_world
    = (Fault IntOverflow,
       {| mallocs := [370736; 8590323856]; printed := [] |}).
Proof.
  destruct (row_offset_overflow (fun _ => true) 0 static_schedule 0 4 46342 1 1
              "good" (replicate (Z.to_nat 46342) 0)) as [Hrows Hmain];
    [split; [lia|by vm_compute]|by vm_compute|].
  split.
  - apply Hrows. by vm_compute.
  - apply Hmain; [lia|reflexivity..].
Defined.

End FurtherExamples.

(** ** The program of file 23 without rows *)

Section EmptyMatrix.

Import MatrixInit.

Variables (malloc_ok : Z → bool) (junk : Z).
Variable schedule : Z → Z → Z → Z.

Lemma parallel_for_empty {S} (owner : Z → Z) T lo hi
    (body : Z → Z → S → outcome S) (s : S) :
  hi ≤ lo → parallel_for owner T lo hi body s = Done s.
Proof.
  intros Hle. unfold parallel_for, parallel.
  rewrite seqZ_nil by lia. simpl.
  induction (seqZ 0 T) as [|tid l IH]; [done|]. by cbn.
Qed.

(** X21 (program 23, no rows).  The program does not validate [N]:
    for [N <= 0] and a known mode it asks [malloc] for
    [8 N mod 2^64] and [4 N N mod 2^64] bytes and, if both requests are
    served, runs the chosen mode over no cell at all, whatever the
    team, prints no cell and returns 0. *)
Theorem matrix_without_rows (fuel : nat) (argc N T team : Z)
    (mode : string) :
  4 ≤ argc → valid_mode mode = true → N ≤ 0 → 1 ≤ T →
  malloc_ok (wrap (8 * N)) = true → malloc_ok (wrap (4 * N * N)) = true →
  main malloc_ok junk schedule team fuel argc mode N T fresh_world
  = (Done 0,
     {| mallocs := [wrap (8 * N); wrap (4 * N * N)]; printed := [] |}).
Proof.
  intros Hargc Hmode HN HT Hok_rows Hok_block.
  unfold main. destruct (Z.ltb_spec argc 4); [lia|]. rewrite Hmode.
  unfold mbind, M_bind, bindM, malloc, lift, print, mret, M_ret, ret.
  cbn [negb fresh_world mallocs printed app].
  change sizeof_pointer with 8. change sizeof_int with 4.
  rewrite Hok_rows, Hok_block.
  unfold assign_rows. rewrite for_range_empty by lia.
  unfold good_mode, bad_fs_mode, bad_ma_mode.
  rewrite !parallel_for_empty by lia.
  destruct (Z.ltb_spec 17 N); [lia|].
  by repeat case_match.
Qed.

End EmptyMatrix.

Section EmptyMatrixExample.

Lemma matrix_without_rows_witness :
  MatrixInit.main (fun _ => true) 0 static_schedule 2 0 4 "bad-fs" (-3) 2
    fresh_world
  = (Done 0,
     {| mallocs := [18446744073709551592; 36]; printed := [] |}).
Proof.
  apply (matrix_without_rows (fun _ => true) 0 static_schedule 0 4 (-3) 2 2
           "bad-fs"); [lia|reflexivity|lia|lia|reflexivity..].
Defined.

End EmptyMatrixExample.
